(** * lo-fi: operations, patch applier, diff engine and rebase

    A shallow embedding of [packages/common/src/operation.ts] (the patch
    variants, [applyPatch], [applyOperations], [diffToPatches],
    [initialToPatches]) and of the [Metadata] class of the web package
    ([rebase], [updateSchema]), followed by the properties of the
    synchronisation core stated over it.

    JavaScript objects are mutable and compared by identity.  Where the code
    depends on it, the embedding keeps track: ref objects carry the identity
    of the object they are, [applyPatch] reports what it did to the object
    it was handed, and whatever else changes behind the values (the console,
    the clock, the supply of fresh objects) is threaded through as a
    [World]. *)

From stdpp Require Import gmap strings list fin_maps sorting pretty.
From Stdlib Require Import ZArith.

Set Default Proof Using "Type".

(** ** JavaScript values that occur in normalized objects *)

Abbreviation ObjectIdentifier := string (only parsing).

(** A JavaScript [number], as far as the code here can tell numbers apart:
    an integer, zero being the falsy one (a fraction would behave like any
    other non-zero number), or [NaN], which is falsy and strictly equal to
    nothing, not even to itself. *)
Inductive JsNumber :=
| Int (z : Z)
| NaN.

Inductive Primitive :=
| PString (s : string)
| PNumber (n : JsNumber)
| PBoolean (b : bool)
| PNull
| PUndefined.

(** [ObjectRef]: the object [{ '@@type': 'ref', id }].  A ref is itself a
    JavaScript object, so [===] on two refs compares which object they are,
    not what they contain; [ident] names the object. *)
Record ObjectRef := mkRef {
  ident : nat;
  id : ObjectIdentifier
}.

(** [PropertyValue]: a string, number, boolean, [null], [undefined] or an
    [ObjectRef]. *)
Inductive PropertyValue :=
| Prim (p : Primitive)
| Ref (r : ObjectRef).

(** [PropertyName = string | number]; a numeric name is an array position. *)
Inductive PropertyName :=
| Key (s : string)
| Index (i : nat).

(** An array slot: [None] is a hole of a sparse array. *)
Abbreviation Slot := (option PropertyValue).

(** [NormalizedObject]: a record of property values or an array of them.
    Both carry the hidden identity that [assignOid] stamps on a value. *)
Inductive NormalizedObject :=
| NObject (oid : option ObjectIdentifier) (props : gmap string PropertyValue)
| NArray (oid : option ObjectIdentifier) (items : list Slot).

(** [T | undefined], with the [null] that [applyPatch] also tests for. *)
Inductive Base :=
| Undefined
| Null
| Present (o : NormalizedObject).

#[global] Instance JsNumber_eq_dec : EqDecision JsNumber.
Proof. solve_decision. Defined.
#[global] Instance Primitive_eq_dec : EqDecision Primitive.
Proof. solve_decision. Defined.
#[global] Instance ObjectRef_eq_dec : EqDecision ObjectRef.
Proof. solve_decision. Defined.
#[global] Instance PropertyValue_eq_dec : EqDecision PropertyValue.
Proof. solve_decision. Defined.
#[global] Instance PropertyName_eq_dec : EqDecision PropertyName.
Proof. solve_decision. Defined.
#[global] Instance NormalizedObject_eq_dec : EqDecision NormalizedObject.
Proof. solve_decision. Defined.
#[global] Instance Base_eq_dec : EqDecision Base.
Proof. solve_decision. Defined.

(** [isObjectRef(obj)] *)
Definition isObjectRef (obj : PropertyValue) : bool :=
  match obj with
  | Ref _ => true
  | Prim _ => false
  end.

(** Truthiness, as [!x] and [if (x)] see a value. *)
Definition truthy (v : PropertyValue) : bool :=
  match v with
  | Prim (PString s) => negb (bool_decide (s = ""))
  | Prim (PNumber (Int z)) => negb (bool_decide (z = 0%Z))
  | Prim (PNumber NaN) => false
  | Prim (PBoolean b) => b
  | Prim PNull => false
  | Prim PUndefined => false
  | Ref _ => true
  end.

(** [a === b] *)
Definition primStrictEq (a b : Primitive) : bool :=
  match a, b with
  | PString s, PString t => bool_decide (s = t)
  | PNumber (Int x), PNumber (Int y) => bool_decide (x = y)
  | PBoolean x, PBoolean y => bool_decide (x = y)
  | PNull, PNull => true
  | PUndefined, PUndefined => true
  | _, _ => false
  end.

Definition strictEq (a b : PropertyValue) : bool :=
  match a, b with
  | Prim p, Prim q => primStrictEq p q
  | Ref r, Ref s => bool_decide (ident r = ident s)
  | _, _ => false
  end.

(** [base === undefined || base === null] *)
Definition absent (base : Base) : bool :=
  match base with
  | Undefined | Null => true
  | Present _ => false
  end.

(** ** Patches and operations *)

Inductive Only := first | last.

Inductive OperationPatch :=
| PInitialize (value : NormalizedObject)
| PSet (name : PropertyName) (value : PropertyValue)
| PRemove (name : PropertyName)
| PListPush (value : PropertyValue)
| PListInsert (index : Z) (value : PropertyValue)
    (values : option (list PropertyValue))
| PListDelete (index : Z) (count : Z)
| PListMoveByRef (value : ObjectRef) (index : Z)
| PListMoveByIndex (from : Z) (to : Z)
| PListRemove (value : PropertyValue) (only : option Only)
| PListAdd (value : PropertyValue)
| PDelete.

Record Operation := mkOperation {
  op_oid : ObjectIdentifier;
  op_timestamp : string;
  op_data : OperationPatch
}.

#[global] Instance Only_eq_dec : EqDecision Only.
Proof. solve_decision. Defined.
#[global] Instance OperationPatch_eq_dec : EqDecision OperationPatch.
Proof. solve_decision. Defined.
#[global] Instance Operation_eq_dec : EqDecision Operation.
Proof. solve_decision. Defined.

Definition isInitialize (patch : OperationPatch) : bool :=
  match patch with
  | PInitialize _ => true
  | _ => false
  end.

(** The patches that go through [listCheck]. *)
Definition listTargeted (patch : OperationPatch) : bool :=
  match patch with
  | PListPush _ | PListInsert _ _ _ | PListDelete _ _ | PListMoveByRef _ _
  | PListMoveByIndex _ _ | PListRemove _ _ | PListAdd _ => true
  | PInitialize _ | PSet _ _ | PRemove _ | PDelete => false
  end.

(** ** Effects: exceptions, the console, fresh objects *)

Inductive Error :=
| ListInsertNeedsValue (patch : OperationPatch)
    (* 'Cannot apply list insert patch; expected value or values' *)
| TypeError
    (* a property read on null or undefined *)
| CannotDiffArrayWithObject
    (* 'Cannot diff an array with an object' *)
| AssertionFailed
| SchemaChangedWithoutVersionChange.

Inductive Completion (A : Type) :=
| Normal (a : A)
| Throw (e : Error).
Arguments Normal {A} a.
Arguments Throw {A} e.

Inductive LogEntry :=
| CannotApplyListPatch (received : NormalizedObject)
| SchemaMismatchForVersion (version : Z).

(** The state outside the values: the identities handed out to objects so
    far, what [console.error] has printed, and how often the two impure
    callbacks of the diff engine, [getNow] and [createSubId], were called. *)
Record World := mkWorld {
  next_ident : nat;
  console : list LogEntry;
  now_calls : nat;
  subid_calls : nat
}.

Definition freshWorld (n : nat) : World := mkWorld n [] 0 0.

Definition JS (A : Type) : Type := World → Completion A * World.

Definition ret {A} (a : A) : JS A := λ w, (Normal a, w).
Definition throw {A} (e : Error) : JS A := λ w, (Throw e, w).
Definition bind {A B} (m : JS A) (k : A → JS B) : JS B :=
  λ w, match m w with
       | (Normal a, w') => k a w'
       | (Throw e, w') => (Throw e, w')
       end.
Definition lift {A} (c : Completion A) : JS A := λ w, (c, w).

Notation "'let*' x ':=' m 'in' k" := (bind m (λ x, k))
  (at level 10, x name, m at level 100, k at level 200).
Notation "'let*' ' x ':=' m 'in' k" := (bind m (λ x, k))
  (at level 10, x strict pattern, m at level 100, k at level 200).

Definition printed (entry : LogEntry) (w : World) : World :=
  mkWorld (next_ident w) (console w ++ [entry]) (now_calls w) (subid_calls w).

Definition console_error (entry : LogEntry) : JS unit :=
  λ w, (Normal (), printed entry w).

(** Reserve [n] identities for objects about to be created. *)
Definition newObjects (n : nat) : JS nat :=
  λ w, (Normal (next_ident w),
        mkWorld (next_ident w + n) (console w) (now_calls w) (subid_calls w)).

(** ** Array methods used by the applier *)

(** Reading a slot; a hole reads as [undefined]. *)
Definition readSlot (s : Slot) : PropertyValue := default (Prim PUndefined) s.

Definition toIndex (found : option nat) : Z :=
  match found with
  | Some i => Z.of_nat i
  | None => (-1)%Z
  end.

Fixpoint firstIndexWhere {A} (p : A → bool) (xs : list A) : option nat :=
  match xs with
  | [] => None
  | x :: rest => if p x then Some 0 else S <$> firstIndexWhere p rest
  end.

Fixpoint lastIndexWhere {A} (p : A → bool) (xs : list A) : option nat :=
  match xs with
  | [] => None
  | x :: rest =>
      match lastIndexWhere p rest with
      | Some i => Some (S i)
      | None => if p x then Some 0 else None
      end
  end.

(** [indexOf], [lastIndexOf] and [some] skip holes; the first two compare
    with [===]. *)
Definition slotIs (v : PropertyValue) (s : Slot) : bool :=
  match s with
  | Some x => strictEq x v
  | None => false
  end.

Definition indexOf (xs : list Slot) (v : PropertyValue) : Z :=
  toIndex (firstIndexWhere (slotIs v) xs).

Definition lastIndexOf (xs : list Slot) (v : PropertyValue) : Z :=
  toIndex (lastIndexWhere (slotIs v) xs).

Definition some (xs : list Slot) (p : PropertyValue → bool) : bool :=
  existsb (λ s, match s with Some x => p x | None => false end) xs.

(** [findIndex] visits every position from the front, holes included, and
    stops at the first hit; the callback may throw. *)
Fixpoint findIndexFrom (i : nat) (p : PropertyValue → Completion bool)
    (xs : list Slot) : Completion Z :=
  match xs with
  | [] => Normal (-1)%Z
  | s :: rest =>
      match p (readSlot s) with
      | Throw e => Throw e
      | Normal true => Normal (Z.of_nat i)
      | Normal false => findIndexFrom (S i) p rest
      end
  end.

Definition findIndex (xs : list Slot) (p : PropertyValue → Completion bool)
    : Completion Z :=
  findIndexFrom 0 p xs.

(** Modelled from the spec: [findLastIndex] is imported from [utils.js], which
    is not part of the sources.  It is taken to be the mirror image of
    [findIndex]: positions are visited from the back and the first hit wins
    (the spec's [only: last] removes one occurrence, the last one). *)
Fixpoint findLastIndexRev (p : PropertyValue → Completion bool)
    (reversed : list Slot) : Completion Z :=
  match reversed with
  | [] => Normal (-1)%Z
  | s :: rest =>
      match p (readSlot s) with
      | Throw e => Throw e
      | Normal true => Normal (Z.of_nat (length rest))
      | Normal false => findLastIndexRev p rest
      end
  end.

Definition findLastIndex (xs : list Slot)
    (p : PropertyValue → Completion bool) : Completion Z :=
  findLastIndexRev p (rev xs).

(** [splice(start, deleteCount, ...items)]: a negative [start] counts from
    the end, both numbers are clamped to the array.  Returns the removed
    elements and the array as it is afterwards. *)
Definition spliceStart (len : nat) (start : Z) : nat :=
  if (start <? 0)%Z then Z.to_nat (Z.max (Z.of_nat len + start) 0)
  else Z.to_nat (Z.min start (Z.of_nat len)).

Definition spliceCount (len actualStart : nat) (deleteCount : Z) : nat :=
  Z.to_nat (Z.min (Z.max deleteCount 0) (Z.of_nat (len - actualStart))).

Definition splice {A} (xs : list A) (start deleteCount : Z) (new : list A)
    : list A * list A :=
  let s := spliceStart (length xs) start in
  let d := spliceCount (length xs) s deleteCount in
  (take d (drop s xs), take s xs ++ new ++ drop (s + d) xs).

(** [xs[0]] *)
Definition firstOf (xs : list Slot) : PropertyValue :=
  match xs with
  | [] => Prim PUndefined
  | s :: _ => readSlot s
  end.

(** [arr[i] = v]: writing past the end grows the array, leaving holes. *)
Definition writeSlot (xs : list Slot) (i : nat) (v : PropertyValue)
    : list Slot :=
  if decide (i < length xs) then <[i := Some v]> xs
  else xs ++ replicate (i - length xs) None ++ [Some v].

(** [delete arr[i]] leaves a hole and keeps the length. *)
Definition deleteSlot (xs : list Slot) (i : nat) : list Slot :=
  <[i := None]> xs.

(** ** The patch applier *)

Definition isArray (o : NormalizedObject) : bool :=
  match o with
  | NArray _ _ => true
  | NObject _ _ => false
  end.

(** The elements of a value that [listCheck] has narrowed to an array. *)
Definition elements (o : NormalizedObject) : list Slot :=
  match o with
  | NArray _ xs => xs
  | NObject _ _ => []
  end.

Definition withElements (o : NormalizedObject) (xs : list Slot)
    : NormalizedObject :=
  match o with
  | NArray oid _ => NArray oid xs
  | NObject _ _ => o
  end.

(** The property key a name denotes on a plain object. *)
Definition propertyKey (name : PropertyName) : string :=
  match name with
  | Key s => s
  | Index i => pretty i
  end.

(** [obj[name] = value].  On an array only the indexed elements are
    represented: a property stored under a string name is seen by none of
    the operations below, so it leaves the elements as they are (a name that
    spells a position is taken to be given as the number). *)
Definition setProperty (o : NormalizedObject) (name : PropertyName)
    (value : PropertyValue) : NormalizedObject :=
  match o, name with
  | NObject oid props, _ => NObject oid (<[propertyKey name := value]> props)
  | NArray oid xs, Index i => NArray oid (writeSlot xs i value)
  | NArray oid xs, Key _ => NArray oid xs
  end.

(** [delete obj[name]] *)
Definition deleteProperty (o : NormalizedObject) (name : PropertyName)
    : NormalizedObject :=
  match o, name with
  | NObject oid props, _ => NObject oid (delete (propertyKey name) props)
  | NArray oid xs, Index i => NArray oid (deleteSlot xs i)
  | NArray oid xs, Key _ => NArray oid xs
  end.

(** The copy of one value: a primitive is itself, a ref becomes a new
    object with the same id. *)
Definition cloneValue (fresh : nat) (v : PropertyValue) : PropertyValue :=
  match v with
  | Prim p => Prim p
  | Ref r => Ref (mkRef fresh (id r))
  end.

(** Modelled from the spec: [cloneDeep] is imported from [utils.js], which is
    not part of the sources.  "[initialize] always returns a deep clone of
    [patch.value]; never aliases input": the copy has the contents of the
    original, and every ref object in it is a new object. *)
Definition cloneDeep (value : NormalizedObject) : JS NormalizedObject :=
  match value with
  | NObject oid props =>
      let entries := map_to_list props in
      let* start := newObjects (length entries) in
      ret (NObject oid
             (list_to_map
                (imap (λ i '(k, v), (k, cloneValue (start + i) v)) entries)))
  | NArray oid xs =>
      let* start := newObjects (length xs) in
      ret (NArray oid (imap (λ i s, cloneValue (start + i) <$> s) xs))
  end.

(** [listCheck(obj)] *)
Definition listCheck (obj : NormalizedObject) : JS bool :=
  if negb (isArray obj) then
    let* _ := console_error (CannotApplyListPatch obj) in
    ret false
  else ret true.

(** The callback [(item) => item.id === valueToRemove.id]: reading [id] off
    [null] or [undefined] is a TypeError, off any other primitive it is
    [undefined], which no ref id equals. *)
Definition hasIdOf (valueToRemove : ObjectRef) (item : PropertyValue)
    : Completion bool :=
  match item with
  | Prim PNull | Prim PUndefined => Throw TypeError
  | Prim _ => Normal false
  | Ref r => Normal (bool_decide (id r = id valueToRemove))
  end.

(** The body of the [do ... while] of [list-remove] up to the splice: the
    position to remove, [-1] if there is none. *)
Definition removalIndex (only : option Only) (valueToRemove : PropertyValue)
    (xs : list Slot) : Completion Z :=
  match only with
  | Some last =>
      match valueToRemove with
      | Ref r => findLastIndex xs (hasIdOf r)
      | Prim _ => Normal (lastIndexOf xs valueToRemove)
      end
  | _ =>
      match valueToRemove with
      | Ref r => findIndex xs (hasIdOf r)
      | Prim _ => Normal (indexOf xs valueToRemove)
      end
  end.

(** The [do ... while (!patch.only && index !== -1)] loop.  Every further
    round has removed an element, so [S (length xs)] rounds are enough (see
    [listRemoveLoop_enough]). *)
Fixpoint listRemoveLoop (rounds : nat) (only : option Only)
    (valueToRemove : PropertyValue) (xs : list Slot)
    : Completion (list Slot) :=
  match rounds with
  | 0 => Normal xs
  | S rounds' =>
      match removalIndex only valueToRemove xs with
      | Throw e => Throw e
      | Normal index =>
          let xs' :=
            if bool_decide (index ≠ (-1)%Z) then (splice xs index 1 []).2
            else xs in
          if negb (bool_decide (is_Some only)) && bool_decide (index ≠ (-1)%Z)
          then listRemoveLoop rounds' only valueToRemove xs'
          else Normal xs'
      end
  end.

Definition listRemove (only : option Only) (valueToRemove : PropertyValue)
    (xs : list Slot) : Completion (list Slot) :=
  listRemoveLoop (S (length xs)) only valueToRemove xs.

(** What a call of [applyPatch] leaves behind: the value it returns, and the
    contents of the object that was passed in as [base].  The cases that end
    in [return base] mutate that object in place and return it, so both are
    the same; [delete] and [initialize] leave it untouched.  When the call
    throws, what it had done to the object until then is not kept: no caller
    here catches the exception. *)
Record Applied := mkApplied {
  returned : Base;
  base_after : Base
}.

Definition inPlace (b : Base) : Applied := mkApplied b b.

Definition applyPatch (base : Base) (patch : OperationPatch) : JS Applied :=
  match base, patch with
  | _, PInitialize value =>
      let* copy := cloneDeep value in
      ret (mkApplied (Present copy) base)
  | Undefined, _ | Null, _ =>
      (* deleted objects remain deleted unless re-initialized *)
      ret (inPlace base)
  | Present o, PSet name value =>
      ret (inPlace (Present (setProperty o name value)))
  | Present o, PRemove name =>
      ret (inPlace (Present (deleteProperty o name)))
  | Present o, PListPush value =>
      let* isList := listCheck o in
      if isList then
        ret (inPlace (Present (withElements o (elements o ++ [Some value]))))
      else ret (inPlace base)
  | Present o, PListDelete index count =>
      let* isList := listCheck o in
      if isList then
        ret (inPlace
               (Present
                  (withElements o (splice (elements o) index count []).2)))
      else ret (inPlace base)
  | Present o, PListMoveByIndex from to =>
      let* isList := listCheck o in
      if isList then
        let '(spliceResult, rest) := splice (elements o) from 1 [] in
        ret (inPlace
               (Present
                  (withElements o
                     (splice rest to 0 [Some (firstOf spliceResult)]).2)))
      else ret (inPlace base)
  | Present o, PListRemove value only =>
      let* isList := listCheck o in
      if isList then
        let* xs := lift (listRemove only value (elements o)) in
        ret (inPlace (Present (withElements o xs)))
      else ret (inPlace base)
  | Present o, PListAdd value =>
      let* isList := listCheck o in
      if isList then
        let alreadyHas :=
          some (elements o)
            (λ item,
               match item, value with
               | Ref r, Ref v => bool_decide (id r = id v)
               | _, _ => strictEq item value
               end) in
        if negb alreadyHas then
          ret (inPlace (Present (withElements o (elements o ++ [Some value]))))
        else ret (inPlace base)
      else ret (inPlace base)
  | Present o, PListMoveByRef value index =>
      let* isList := listCheck o in
      if isList then
        let found := indexOf (elements o) (Ref value) in
        let '(spliceResult, rest) := splice (elements o) found 1 [] in
        ret (inPlace
               (Present
                  (withElements o
                     (splice rest index 0 [Some (firstOf spliceResult)]).2)))
      else ret (inPlace base)
  | Present o, PListInsert index value values =>
      let* isList := listCheck o in
      if isList then
        match truthy value, values with
        | false, None => throw (ListInsertNeedsValue patch)
        | true, _ =>
            ret (inPlace
                   (Present
                      (withElements o
                         (splice (elements o) index 0 [Some value]).2)))
        | false, Some vs =>
            ret (inPlace
                   (Present
                      (withElements o
                         (splice (elements o) index 0 (Some <$> vs)).2)))
        end
      else ret (inPlace base)
  | Present o, PDelete =>
      ret (mkApplied Undefined base)
  end.

(** [applyOperations]: every round hands the object [base] to [applyPatch],
    and [cur] is whatever the latest call returned. *)
Fixpoint applyOperations_from (base cur : Base) (operations : list Operation)
    : JS Base :=
  match operations with
  | [] => ret cur
  | op :: rest =>
      let* r := applyPatch base (op_data op) in
      applyOperations_from (base_after r) (returned r) rest
  end.

Definition applyOperations (base : Base) (operations : list Operation)
    : JS Base :=
  applyOperations_from base base operations.

(** ** The metadata store *)

(** [DocumentBaseline] *)
Record DocumentBaseline := mkBaseline {
  bl_oid : ObjectIdentifier;
  bl_snapshot : Base;
  bl_timestamp : string
}.

(** [StorageSchema]: its version, and the text [JSON.stringify] prints for
    the rest of it. *)
Record StorageSchema := mkSchema {
  version : Z;
  collections : string
}.

#[global] Instance DocumentBaseline_eq_dec : EqDecision DocumentBaseline.
Proof. solve_decision. Defined.
#[global] Instance StorageSchema_eq_dec : EqDecision StorageSchema.
Proof. solve_decision. Defined.

(** What [JSON.stringify] tells apart in a schema. *)
Definition JSON_stringify (s : StorageSchema) : Z * string :=
  (version s, collections s).

(** Timestamps are strings whose lexical order is the order of time. *)
Definition ts_le (a b : string) : Prop := String.leb a b = true.
Definition ts_lt (a b : string) : Prop := String.ltb a b = true.

#[global] Instance ts_le_dec a b : Decision (ts_le a b).
Proof. unfold ts_le. apply _. Defined.
#[global] Instance ts_lt_dec a b : Decision (ts_lt a b).
Proof. unfold ts_lt. apply _. Defined.

(** A row of the operations table: the compound key [(oid, timestamp)] and
    what the row holds besides, the patch and the [isLocal] flag. *)
Abbreviation OperationKey := (ObjectIdentifier * string)%type.
Abbreviation OperationRow := (OperationKey * (OperationPatch * bool))%type.

Definition row_oid (row : OperationRow) : ObjectIdentifier := row.1.1.
Definition row_timestamp (row : OperationRow) : string := row.1.2.
Definition row_data (row : OperationRow) : OperationPatch := row.2.1.
Definition row_operation (row : OperationRow) : Operation :=
  mkOperation (row_oid row) (row_timestamp row) (row_data row).

(** The three tables: [operations] keyed by [(oid, timestamp)], [baselines]
    keyed by [oid], and the stored schema of the [info] table. *)
Record Db := mkDb {
  operations : gmap OperationKey (OperationPatch * bool);
  baselines : gmap ObjectIdentifier DocumentBaseline;
  schema : option StorageSchema
}.

(** The methods of [Metadata] take the tables they work on as an argument
    and return them as they leave them; one call is one transaction.  The
    debug output through [context.log] and the replica id that [rebase]
    looks up for it are left out. *)
Module Metadata.

(** Modelled from the spec: [OperationsStore] is not part of the sources.
    [iterateOverAllOperationsForEntity(oid, f, { to })] visits the rows of
    one sub-object "in timestamp order, optionally truncating at [to]"; the
    rows visited are those with [timestamp ≤ to]. *)
Definition inScan (oid : ObjectIdentifier) (to : string) (row : OperationRow)
    : Prop :=
  row_oid row = oid ∧ ts_le (row_timestamp row) to.

#[global] Instance inScan_dec oid to row : Decision (inScan oid to row).
Proof. unfold inScan. apply _. Defined.

Definition operationsForEntity
    (store : gmap OperationKey (OperationPatch * bool))
    (oid : ObjectIdentifier) (to : string) : list OperationRow :=
  merge_sort (λ a b, ts_le (row_timestamp a) (row_timestamp b))
    (filter (inScan oid to) (map_to_list store)).

(** [baseline?.snapshot || undefined] *)
Definition snapshotOrUndefined (baseline : option DocumentBaseline) : Base :=
  match baseline with
  | Some b => if absent (bl_snapshot b) then Undefined else bl_snapshot b
  | None => Undefined
  end.

(** [!baseline || patch.timestamp > baseline.timestamp] *)
Definition notYetFolded (baseline : option DocumentBaseline)
    (row : OperationRow) : Prop :=
  match baseline with
  | None => True
  | Some b => ts_lt (bl_timestamp b) (row_timestamp row)
  end.

#[global] Instance notYetFolded_dec baseline row :
  Decision (notYetFolded baseline row).
Proof. destruct baseline; apply _. Defined.

(** The callback of [rebase], run over the scanned rows: apply the patch if
    it is newer than the baseline, then delete the row. *)
Fixpoint rebaseRows (baseline : option DocumentBaseline)
    (rows : list OperationRow) (current : Base)
    (store : gmap OperationKey (OperationPatch * bool))
    : JS (Base * gmap OperationKey (OperationPatch * bool)) :=
  match rows with
  | [] => ret (current, store)
  | row :: rest =>
      let* current' :=
        (if decide (notYetFolded baseline row) then
           let* r := applyPatch current (row_data row) in
           ret (returned r)
         else ret current) in
      rebaseRows baseline rest current' (delete row.1 store)
  end.

(** Modelled from the spec: [assignOid] lives in [oids.js], which is not part
    of the sources.  "[assignOid(value, oid)] stamps a value with a hidden
    identity." *)
Definition assignOid (o : NormalizedObject) (oid : ObjectIdentifier)
    : NormalizedObject :=
  match o with
  | NObject _ props => NObject (Some oid) props
  | NArray _ xs => NArray (Some oid) xs
  end.

(** [if (current) assignOid(current, oid)] *)
Definition stamp (current : Base) (oid : ObjectIdentifier) : Base :=
  match current with
  | Present o => Present (assignOid o oid)
  | _ => current
  end.

(** [rebase(oid, upTo)] *)
Definition rebase (db : Db) (oid : ObjectIdentifier) (upTo : string)
    : JS (DocumentBaseline * Db) :=
  let baseline := baselines db !! oid in
  let current := snapshotOrUndefined baseline in
  let* '(current, store) :=
    rebaseRows baseline (operationsForEntity (operations db) oid upTo)
      current (operations db) in
  let newBaseline := mkBaseline oid (stamp current oid) upTo in
  if negb (absent (bl_snapshot newBaseline)) then
    ret (newBaseline,
         mkDb store (<[oid := newBaseline]> (baselines db)) (schema db))
  else
    ret (newBaseline, mkDb store (delete oid (baselines db)) (schema db)).

(** [updateSchema(schema, overrideConflict?)] *)
Definition updateSchema (db : Db) (new : StorageSchema)
    (overrideConflict : option Z) : JS Db :=
  let storedSchema := schema db in
  let* _ :=
    match storedSchema with
    | Some stored =>
        if bool_decide (overrideConflict = Some (version stored))
           && bool_decide (version stored = version new)
           && bool_decide (JSON_stringify stored ≠ JSON_stringify new)
        then
          let* _ := console_error (SchemaMismatchForVersion (version new)) in
          throw SchemaChangedWithoutVersionChange
        else ret ()
    | None => ret ()
    end in
  ret (mkDb (operations db) (baselines db) (Some new)).

End Metadata.

(** ** The diff engine *)

(** The values the diff engine compares: documents as the application holds
    them, objects and arrays nested in one another, each object or array
    carrying the OID it was stamped with, if any. *)
#[warnings="-register-all"]
Inductive Value :=
| VPrim (p : Primitive)
| VObject (oid : option ObjectIdentifier) (fields : list (string * Value))
| VArray (oid : option ObjectIdentifier) (items : list Value).

Record DiffOptions := mkOptions {
  mergeUnknownObjects : bool;
  defaultUndefined : bool
}.

(** Modelled from the spec: [isObject] is imported from [utils.js], which is
    not part of the sources; "new value is an object or array". *)
Definition isObject (v : Value) : bool :=
  match v with
  | VPrim _ => false
  | VObject _ _ | VArray _ _ => true
  end.

(** Modelled from the spec: [maybeGetOid], [getOid], [assignOid] and
    [createRef] live in [oids.js], which is not part of the sources.
    [maybeGetOid] returns the hidden identity if present, [getOid] insists on
    one, [createRef] makes the ref object for an OID.  With the identity
    hidden, no property of an object is an OID key, and the [isOidKey]
    tests of the source never fire. *)
Definition maybeGetOid (v : Value) : option ObjectIdentifier :=
  match v with
  | VPrim _ => None
  | VObject oid _ | VArray oid _ => oid
  end.

Definition getOid (v : Value) : JS ObjectIdentifier :=
  match maybeGetOid v with
  | Some oid => ret oid
  | None => throw AssertionFailed
  end.

Definition assignOid (v : Value) (oid : ObjectIdentifier) : Value :=
  match v with
  | VPrim p => VPrim p
  | VObject _ fields => VObject (Some oid) fields
  | VArray _ items => VArray (Some oid) items
  end.

Definition createRef (oid : ObjectIdentifier) : JS PropertyValue :=
  let* fresh := newObjects 1 in
  ret (Ref (mkRef fresh oid)).

(** [removeOid(value)] takes the stamp off again. *)
Definition removeOid (o : NormalizedObject) : NormalizedObject :=
  match o with
  | NObject _ props => NObject None props
  | NArray _ xs => NArray None xs
  end.

(** An OID as [if (valueOid)] sees it: there, and not the empty string. *)
Definition truthyOid (oid : option ObjectIdentifier) : bool :=
  match oid with
  | Some s => negb (bool_decide (s = ""))
  | None => false
  end.

(** [value !== oldValue] for a primitive [value]. *)
Definition differsFrom (value : Primitive) (oldValue : Value) : bool :=
  match oldValue with
  | VPrim old => negb (primStrictEq value old)
  | _ => true
  end.

(** [from[key]], [undefined] when there is no such property or element. *)
Definition getField (fields : list (string * Value)) (key : string) : Value :=
  match list_find (λ kv, kv.1 = key) fields with
  | Some (_, (_, v)) => v
  | None => VPrim PUndefined
  end.

Definition getItem (items : list Value) (i : nat) : Value :=
  default (VPrim PUndefined) (items !! i).

(** ** More of the normalized objects *)

(** [maybeGetOid(obj)] on a normalized object. *)
Definition oidOf (o : NormalizedObject) : option ObjectIdentifier :=
  match o with
  | NObject oid _ | NArray oid _ => oid
  end.

(** ** Values of any shape *)

(** What the source types as [any]: a primitive, a ref, or an object or
    array of such values, each object or array with the OID it was stamped
    with, if any. *)
#[warnings="-register-all"]
Inductive Any :=
| APrim (p : Primitive)
| ARef (r : ObjectRef)
| AObject (oid : option ObjectIdentifier) (fields : list (string * Any))
| AArray (oid : option ObjectIdentifier) (items : list Any).

(** A property value, and a list of named ones, as values of any shape. *)
Definition embed (v : PropertyValue) : Any :=
  match v with
  | Prim p => APrim p
  | Ref r => ARef r
  end.

Definition embedFields (fs : list (string * PropertyValue))
    : list (string * Any) :=
  (λ kv, (kv.1, embed kv.2)) <$> fs.

(** [!isObject(value) || isObjectRef(value)]: the value is a primitive or a
    ref, which is then the property value it is. *)
Definition flat (value : Any) : option PropertyValue :=
  match value with
  | APrim p => Some (Prim p)
  | ARef r => Some (Ref r)
  | AObject _ _ | AArray _ _ => None
  end.

(** [value !== oldValue] for a primitive or ref [value]: an object that is
    not a ref is another object than any ref. *)
Definition differs (value : PropertyValue) (oldValue : Any) : bool :=
  match flat oldValue with
  | Some old => negb (strictEq value old)
  | None => true
  end.

(** Modelled from the spec: [maybeGetOid] and [getOid] live in [oids.js],
    which is not part of the sources.  The hidden OID of a value; a ref,
    like a primitive, carries none, and [getOid] insists on one. *)
Definition anyOid (v : Any) : option ObjectIdentifier :=
  match v with
  | AObject oid _ | AArray oid _ => oid
  | APrim _ | ARef _ => None
  end.

Definition getAnyOid (v : Any) : JS ObjectIdentifier :=
  match anyOid v with
  | Some oid => ret oid
  | None => throw AssertionFailed
  end.

(** [Object.entries(value)] of a value that is not an array: a ref is the
    object [{ '@@type': 'ref', id }]. *)
Definition entries (v : Any) : list (string * Any) :=
  match v with
  | AObject _ fields => fields
  | ARef r => [("@@type", APrim (PString "ref")); ("id", APrim (PString (id r)))]
  | APrim _ | AArray _ _ => []
  end.

(** Modelled from the spec: [isObject] is imported from [utils.js], which is
    not part of the sources.  An object, an array or a ref is one, a
    primitive, [null] included, is not (the source tests
    [!isObject(value) || isObjectRef(value)] for "primitive fields"). *)
Definition isObjectAny (v : Any) : bool :=
  match v with
  | APrim _ => false
  | _ => true
  end.

(** [from[key]] and [from[i]] *)
Definition anyField (fields : list (string * Any)) (key : string) : Any :=
  match list_find (λ kv, kv.1 = key) fields with
  | Some (_, (_, v)) => v
  | None => APrim PUndefined
  end.

Definition anyItem (items : list Any) (i : nat) : Any :=
  default (APrim PUndefined) (items !! i).

(** ** The shallow diff *)

(** What [shallowDiffToPatches] throws: 'Shallow diff was given a nested
    object', or one of the errors above. *)
Inductive ShallowError :=
| GivenNestedObject
| Thrown (e : Error).

Definition Shallow (A : Type) : Type := World → (ShallowError + A) * World.

Definition retS {A} (a : A) : Shallow A := λ w, (inr a, w).
Definition throwS {A} (e : ShallowError) : Shallow A := λ w, (inl e, w).
Definition bindS {A B} (m : Shallow A) (k : A → Shallow B) : Shallow B :=
  λ w, match m w with
       | (inr a, w') => k a w'
       | (inl e, w') => (inl e, w')
       end.
Definition run {A} (m : JS A) : Shallow A :=
  λ w, match m w with
       | (Normal a, w') => (inr a, w')
       | (Throw e, w') => (inl (Thrown e), w')
       end.

Notation "'let+' x ':=' m 'in' k" := (bindS m (λ x, k))
  (at level 10, x name, m at level 100, k at level 200).

(** ** Grouping operations and baselines *)

(** The property names every object inherits from [Object.prototype]: the
    [in] operator finds them on the empty object [{}]. *)
Definition inheritedNames : list string :=
  ["constructor"; "hasOwnProperty"; "isPrototypeOf"; "propertyIsEnumerable";
   "toLocaleString"; "toString"; "valueOf"; "__proto__";
   "__defineGetter__"; "__defineSetter__"; "__lookupGetter__";
   "__lookupSetter__"].

(** The loop shared by the three grouping functions:
    [if (key in grouped) grouped[key].push(item); else grouped[key] = [item]].
    Under an inherited name [grouped[key]] is not an array, and calling its
    [push] is a TypeError. *)
Fixpoint groupInto {A} (key : A → string) (items : list A)
    (grouped : gmap string (list A)) : Completion (gmap string (list A)) :=
  match items with
  | [] => Normal grouped
  | item :: rest =>
      if bool_decide (is_Some (grouped !! key item)
                      ∨ key item ∈ inheritedNames) then
        match grouped !! key item with
        | Some group =>
            groupInto key rest (<[key item := group ++ [item]]> grouped)
        | None => Throw TypeError
        end
      else groupInto key rest (<[key item := [item]]> grouped)
  end.

(** [groupPatchesByIdentifier(patches)] *)
Definition groupPatchesByIdentifier (patches : list Operation)
    : Completion (gmap ObjectIdentifier (list Operation)) :=
  groupInto op_oid patches ∅.

Section Roots.

(** Modelled from the spec: [getOidRoot] lives in [oids.js], which is not
    part of the sources; it answers the OID of the document a sub-object
    belongs to ("the root OID is obtained by stripping the fragment").  It
    is left open. *)
Variable getOidRoot : ObjectIdentifier → ObjectIdentifier.

(** [groupPatchesByRootOid(patches)] *)
Definition groupPatchesByRootOid (patches : list Operation)
    : Completion (gmap ObjectIdentifier (list Operation)) :=
  groupInto (λ patch, getOidRoot (op_oid patch)) patches ∅.

(** [groupBaselinesByRootOid(baselines)] *)
Definition groupBaselinesByRootOid (baselines : list DocumentBaseline)
    : Completion (gmap ObjectIdentifier (list DocumentBaseline)) :=
  groupInto (λ baseline, getOidRoot (bl_oid baseline)) baselines ∅.

End Roots.

(** ** Migrations *)

(** [new Array(n)] throws a RangeError unless [n] is a length, an integer
    from 0 to 2^32 - 1. *)
Inductive RangeError := InvalidArrayLength.

(** [migrationRange(from, to)]: [[...Array(to - from).keys()].map((i) => 1 +
    i + from)], for version numbers that are integers. *)
Definition migrationRange (from to : Z) : RangeError + list Z :=
  let n := (to - from)%Z in
  if bool_decide (0 ≤ n < 2 ^ 32)%Z
  then inr ((λ i, 1 + Z.of_nat i + from)%Z <$> seq 0 (Z.to_nat n))
  else inl InvalidArrayLength.

(** ** Schemas and their migrations *)

(** What reading [obj[key]] off a plain object finds: a property of its
    own, what it inherits from [Object.prototype] under that name (a
    function, or the prototype itself: truthy, and without any of the
    properties read here), or [undefined]. *)
Inductive Looked (A : Type) :=
| Own (a : A)
| Inherited (key : string)
| Missing.
Arguments Own {A} a.
Arguments Inherited {A} key.
Arguments Missing {A}.

(** A plain object: its own properties, in the order of [Object.keys]. *)
Definition get {A} (obj : list (string * A)) (key : string) : Looked A :=
  match list_find (λ kv, kv.1 = key) obj with
  | Some (_, (_, a)) => Own a
  | None =>
      if bool_decide (key ∈ inheritedNames) then Inherited key else Missing
  end.

(** [!obj[key]] *)
Definition absentFrom {A} (obj : list (string * A)) (key : string) : bool :=
  match get obj key with
  | Missing => true
  | _ => false
  end.

(** [obj[key] = value] on an object made by [{}]: assigning to [__proto__]
    changes the prototype and makes no property. *)
Definition assign {A} (obj : gmap string A) (key : string) (value : A)
    : gmap string A :=
  if bool_decide (key = "__proto__") then obj else <[key := value]> obj.

Module Migrations.

(** What the migration code reads of the schema of a field, of a synthetic
    and of a compound index. *)
Record FieldSchema := mkField {
  type : string;
  indexed : bool
}.

Record SyntheticSchema := mkSynthetic {
  synthetic_type : string
}.

Record CompoundSchema := mkCompound {
  compound_of : list string
}.

(** [MigrationIndexDescription] *)
Record MigrationIndexDescription := mkIndex {
  name : string;
  multiEntry : bool;
  synthetic : bool;
  compound : bool
}.

Section Schemas.

(** Whatever else a collection schema holds (its name and primary key, the
    defaults and item types of its fields, the functions of its
    synthetics): this code hands it to [stableStringify] and reads none of
    it. *)
Context {Rest : Type}.

Record CollectionSchema := mkCollection {
  fields : list (string * FieldSchema);
  synthetics : option (list (string * SyntheticSchema));
  compounds : option (list (string * CompoundSchema));
  rest : Rest
}.

Record StorageSchema := mkStorageSchema {
  version : Z;
  collections : list (string * CollectionSchema)
}.

(** [Migration], without the closure [migrate] that runs the procedure
    against an engine. *)
Record Migration := mkMigration {
  migration_version : Z;
  oldSchema : StorageSchema;
  newSchema : StorageSchema;
  addedCollections : list string;
  removedCollections : list string;
  allCollections : list string;
  changedCollections : list string;
  addedIndexes : gmap string (list MigrationIndexDescription);
  removedIndexes : gmap string (list MigrationIndexDescription)
}.

(** [(collection.fields[fieldName] || collection.synthetics[fieldName]).type
    === 'array'] *)
Definition componentIsArray (collection : CollectionSchema)
    (fieldName : string) : Completion bool :=
  match get (fields collection) fieldName with
  | Own field => Normal (bool_decide (type field = "array"))
  | Inherited _ => Normal false
  | Missing =>
      match synthetics collection with
      | None => Throw TypeError
      | Some synths =>
          match get synths fieldName with
          | Own synth => Normal (bool_decide (synthetic_type synth = "array"))
          | Inherited _ => Normal false
          | Missing => Throw TypeError
          end
      end
  end.

(** [names.some(p)] for a callback that may throw. *)
Fixpoint someOf (p : string → Completion bool) (names : list string)
    : Completion bool :=
  match names with
  | [] => Normal false
  | fieldName :: rest =>
      match p fieldName with
      | Throw e => Throw e
      | Normal true => Normal true
      | Normal false => someOf p rest
      end
  end.

(** The [map] over the compound indexes. *)
Fixpoint compoundIndexes (collection : CollectionSchema)
    (entries : list (string * CompoundSchema))
    : Completion (list MigrationIndexDescription) :=
  match entries with
  | [] => Normal []
  | (key, description) :: rest =>
      match someOf (componentIsArray collection) (compound_of description) with
      | Throw e => Throw e
      | Normal multi =>
          match compoundIndexes collection rest with
          | Throw e => Throw e
          | Normal indexes => Normal (mkIndex key multi false true :: indexes)
          end
      end
  end.

Definition fieldIndexes (collection : CollectionSchema)
    : list MigrationIndexDescription :=
  (λ kv, mkIndex kv.1 (bool_decide (type kv.2 = "array")) false false)
    <$> filter (λ kv, indexed kv.2 = true) (fields collection).

Definition syntheticIndexes (collection : CollectionSchema)
    : list MigrationIndexDescription :=
  (λ kv, mkIndex kv.1 (bool_decide (synthetic_type kv.2 = "array")) true false)
    <$> default [] (synthetics collection).

(** [getIndexes(collection)]; [Object.keys] of the [fields] that something
    inherited does not have is a TypeError. *)
Definition getIndexes (collection : Looked CollectionSchema)
    : Completion (list MigrationIndexDescription) :=
  match collection with
  | Missing => Normal []
  | Inherited _ => Throw TypeError
  | Own collection =>
      match compoundIndexes collection (default [] (compounds collection)) with
      | Throw e => Throw e
      | Normal compoundOnes =>
          Normal (fieldIndexes collection ++ syntheticIndexes collection
                  ++ compoundOnes)
      end
  end.

(** [!indexes.find((i) => i.name === index.name)] *)
Definition unknownIn (indexes : list MigrationIndexDescription)
    (index : MigrationIndexDescription) : bool :=
  negb (bool_decide (name index ∈ name <$> indexes)).

(** Modelled from the spec: [stableStringify] is imported from [index.js],
    which is not part of the sources.  What it prints for a collection
    schema, or for what is found in the place of one, is left open. *)
Variable stableStringify : Looked CollectionSchema → option string.

(** The loop of [migrate] over the changed collections. *)
Fixpoint indexChanges (old new : StorageSchema) (changed : list string)
    (added removed : gmap string (list MigrationIndexDescription))
    : Completion (gmap string (list MigrationIndexDescription)
                  * gmap string (list MigrationIndexDescription)) :=
  match changed with
  | [] => Normal (added, removed)
  | collection :: rest =>
      match getIndexes (get (collections old) collection) with
      | Throw e => Throw e
      | Normal oldIndexes =>
          match getIndexes (get (collections new) collection) with
          | Throw e => Throw e
          | Normal newIndexes =>
              let addedHere := filter (λ i, unknownIn oldIndexes i = true)
                                 newIndexes in
              let removedHere := filter (λ i, unknownIn newIndexes i = true)
                                   oldIndexes in
              indexChanges old new rest
                (if bool_decide (0 < length addedHere)
                 then assign added collection addedHere else added)
                (if bool_decide (0 < length removedHere)
                 then assign removed collection removedHere else removed)
          end
      end
  end.

(** [migrate(oldSchema, newSchema, procedure)] *)
Definition migrate (old new : StorageSchema) : Completion Migration :=
  let changed :=
    filter (λ key, stableStringify (get (collections old) key)
                   ≠ stableStringify (get (collections new) key))
      (collections new).*1 in
  let removed :=
    filter (λ key, absentFrom (collections new) key = true)
      (collections old).*1 in
  let added :=
    filter (λ key, absentFrom (collections old) key = true)
      (collections new).*1 in
  match indexChanges old new changed ∅ ∅ with
  | Throw e => Throw e
  | Normal (addedIndexes, removedIndexes) =>
      Normal (mkMigration (version new) old new added removed
                (collections new).*1 changed addedIndexes removedIndexes)
  end.

(** [createDefaultMigration(schema, newSchema?)] *)
Definition createDefaultMigration (schema : StorageSchema)
    (newSchema : option StorageSchema) : Completion Migration :=
  let oldSchema :=
    match newSchema with
    | Some _ => schema
    | None => mkStorageSchema 0 []
    end in
  migrate oldSchema (default schema newSchema).

End Schemas.

Arguments CollectionSchema : clear implicits.
Arguments StorageSchema : clear implicits.
Arguments Migration : clear implicits.

End Migrations.

(** ** Refs in place of objects, and back *)

(** Modelled from the spec: [assignOid] lives in [oids.js], which is not
    part of the sources; it "stamps a value with a hidden identity" and
    answers the value. *)
Definition assignAnyOid (v : Any) (oid : ObjectIdentifier) : Any :=
  match v with
  | AObject _ fields => AObject (Some oid) fields
  | AArray _ items => AArray (Some oid) items
  | APrim _ | ARef _ => v
  end.

(** [!!resolved] *)
Definition truthyAny (v : Any) : bool :=
  match v with
  | APrim p => truthy (Prim p)
  | _ => true
  end.

(** [dereference(input, refs, used)]; [used] is the array as the call
    leaves it. *)
Definition dereference (input : Any) (refs : gmap ObjectIdentifier Any)
    (used : list ObjectIdentifier) : JS (Any * list ObjectIdentifier) :=
  match input with
  | ARef r =>
      let used := used ++ [id r] in
      match refs !! id r with
      | Some resolved =>
          if truthyAny resolved then ret (assignAnyOid resolved (id r), used)
          else throw AssertionFailed
      | None => throw AssertionFailed
      end
  | _ => ret (input, used)
  end.

(** One round of the loops of [substituteFirstLevelObjectsWithRefs]: an
    object in a slot is entered in [refObjects] under its OID, and a new ref
    to that OID takes its place. *)
Definition substituteSlot (value : Any)
    (refObjects : gmap ObjectIdentifier Any)
    : JS (Any * gmap ObjectIdentifier Any) :=
  if isObjectAny value then
    let* oid := getAnyOid value in
    let* ref := createRef oid in
    ret (embed ref, <[oid := value]> refObjects)
  else ret (value, refObjects).

Fixpoint substituteItems (items : list Any)
    (refObjects : gmap ObjectIdentifier Any)
    : JS (list Any * gmap ObjectIdentifier Any) :=
  match items with
  | [] => ret ([], refObjects)
  | item :: rest =>
      let* '(item', refObjects) := substituteSlot item refObjects in
      let* '(rest', refObjects) := substituteItems rest refObjects in
      ret (item' :: rest', refObjects)
  end.

Fixpoint substituteFields (fields : list (string * Any))
    (refObjects : gmap ObjectIdentifier Any)
    : JS (list (string * Any) * gmap ObjectIdentifier Any) :=
  match fields with
  | [] => ret ([], refObjects)
  | (key, value) :: rest =>
      let* '(value', refObjects) := substituteSlot value refObjects in
      let* '(rest', refObjects) := substituteFields rest refObjects in
      ret ((key, value') :: rest', refObjects)
  end.

(** [substituteFirstLevelObjectsWithRefs(base, refObjects)]: the base as the
    call leaves it, and the map it returns.  [Object.entries] of [null] or
    [undefined] is a TypeError; a ref or another primitive has no entry that
    is an object. *)
Definition substituteFirstLevelObjectsWithRefs (base : Any)
    (refObjects : gmap ObjectIdentifier Any)
    : JS (Any * gmap ObjectIdentifier Any) :=
  match base with
  | AArray oid items =>
      let* '(items', refObjects) := substituteItems items refObjects in
      ret (AArray oid items', refObjects)
  | AObject oid fields =>
      let* '(fields', refObjects) := substituteFields fields refObjects in
      ret (AObject oid fields', refObjects)
  | APrim PNull | APrim PUndefined => throw TypeError
  | APrim _ | ARef _ => ret (base, refObjects)
  end.

(** ** Notions used in the statements *)

(** The left fold of [applyPatch], each patch applied to the result of the
    patches before it, as the specification words it. *)
Fixpoint foldPatches (cur : Base) (operations : list Operation) : JS Base :=
  match operations with
  | [] => ret cur
  | op :: rest =>
      let* r := applyPatch cur (op_data op) in
      foldPatches (returned r) rest
  end.

(** The patches that end in [return base]. *)
Definition returnsBase (patch : OperationPatch) : bool :=
  match patch with
  | PInitialize _ | PDelete => false
  | _ => true
  end.

Definition falsyScalars : list PropertyValue :=
  [Prim (PNumber (Int 0)); Prim (PBoolean false); Prim (PString "");
   Prim PNull].

(** The specification's reading of [list-move-by-ref]: the element is found
    by comparing ref ids, taken out, and put back at the target index. *)
Definition refWithId (target : ObjectRef) (s : Slot) : bool :=
  match s with
  | Some (Ref r) => bool_decide (id r = id target)
  | _ => false
  end.

Definition moveByRefId (xs : list Slot) (value : ObjectRef) (index : Z)
    : list Slot :=
  match firstIndexWhere (refWithId value) xs with
  | Some i =>
      let '(removed, rest) := splice xs (Z.of_nat i) 1 [] in
      (splice rest index 0 removed).2
  | None => xs
  end.

(** No element of [xs] is the object [value] itself. *)
Definition otherObjects (value : ObjectRef) (xs : list Slot) : Prop :=
  Forall (λ s, ∀ r, s = Some (Ref r) → ident r ≠ ident value) xs.

(** The specification's reading of [list-remove]: a ref matches the elements
    that are refs with its id, any other value the elements strictly equal to
    it; without [only] every match goes, with [only] the first or the last
    one. *)
Definition matchesValue (value : PropertyValue) (s : Slot) : bool :=
  match value with
  | Ref r => refWithId r s
  | Prim _ => slotIs value s
  end.

Definition removeAt {A} (found : option nat) (l : list A) : list A :=
  match found with
  | Some i => delete i l
  | None => l
  end.

Definition removeMatching (only : option Only) (value : PropertyValue)
    (xs : list Slot) : list Slot :=
  match only with
  | None => filter (λ s, matchesValue value s = false) xs
  | Some first => removeAt (firstIndexWhere (matchesValue value) xs) xs
  | Some last => removeAt (lastIndexWhere (matchesValue value) xs) xs
  end.

(** No element reads as [null] or [undefined]. *)
Definition withoutNullish (xs : list Slot) : Prop :=
  Forall (λ s, readSlot s ≠ Prim PNull ∧ readSlot s ≠ Prim PUndefined) xs.

(** The specification's [updateSchema]: a stored schema of the same version
    and different content is a schema mismatch, unless [overrideConflict] is
    that version. *)
Definition schemaDrift (stored : option StorageSchema) (new : StorageSchema)
    (overrideConflict : option Z) : bool :=
  match stored with
  | Some s =>
      bool_decide (version s = version new)
      && bool_decide (JSON_stringify s ≠ JSON_stringify new)
      && negb (bool_decide (overrideConflict = Some (version s)))
  | None => false
  end.

(** The operations table after the rows [rows] have been deleted. *)
Definition deleteRows (store : gmap OperationKey (OperationPatch * bool))
    (rows : list OperationRow) : gmap OperationKey (OperationPatch * bool) :=
  foldl (λ s row, delete row.1 s) store rows.

(** The operations that a run of pushes appends: the first gets the
    timestamp of call [start] of [getNow], the next that of call
    [S start], and so on. *)
Fixpoint stampedFrom (getNow : nat → string) (start : nat)
    (items : list (ObjectIdentifier * OperationPatch)) : list Operation :=
  match items with
  | [] => []
  | (oid, data) :: rest =>
      mkOperation oid (getNow start) data :: stampedFrom getNow (S start) rest
  end.

(** The world after [n] more calls of [getNow]. *)
Definition ticked (n : nat) (w : World) : World :=
  mkWorld (next_ident w) (console w) (now_calls w + n) (subid_calls w).

(** The OIDs of the values that carry one. *)
Definition carriedOids (vs : list Value) : list ObjectIdentifier :=
  omap (λ v, if truthyOid (maybeGetOid v) then maybeGetOid v else None) vs.

(** The OIDs carried by the elements of [from] beyond the length of [to]. *)
Definition droppedOids (fromItems toItems : list Value)
    : list ObjectIdentifier :=
  carriedOids (drop (length toItems) fromItems).

(** The [initialize] payloads of the entries of a normalized map. *)
Definition initializations
    (entries : list (ObjectIdentifier * NormalizedObject))
    : list (ObjectIdentifier * OperationPatch) :=
  (λ entry, (entry.1, PInitialize (removeOid entry.2))) <$> entries.

(** A pass over the list of patches that only appends to it. *)
Definition appending (m : list Operation → JS (list Operation)) : Prop :=
  ∀ patches w ps w',
    m patches w = (Normal ps, w') → ∃ added, ps = patches ++ added.

(** A computation that always returns and never calls [getNow]. *)
Definition steady {A} (m : JS A) : Prop :=
  ∀ w, ∃ a w', m w = (Normal a, w') ∧ now_calls w' = now_calls w.

(** The number of elements a [list-insert] puts in. *)
Definition insertedCount (value : PropertyValue)
    (values : option (list PropertyValue)) : Z :=
  if truthy value then 1%Z else Z.of_nat (length (default [] values)).

(** What an array holds, read element by element. *)
Definition contents (xs : list Slot) : list PropertyValue := readSlot <$> xs.

(** The operations a shallow diff may emit. *)
Definition shallowPatch (data : OperationPatch) : bool :=
  match data with
  | PSet _ _ | PRemove _ | PListDelete _ _ => true
  | _ => false
  end.

(** The elements and fields of a value when all of them are primitives or
    refs. *)
Fixpoint flatItems (items : list Any) : option (list PropertyValue) :=
  match items with
  | [] => Some []
  | item :: rest =>
      match flat item, flatItems rest with
      | Some v, Some vs => Some (v :: vs)
      | _, _ => None
      end
  end.

Fixpoint flatFields (fields : list (string * Any))
    : option (list (string * PropertyValue)) :=
  match fields with
  | [] => Some []
  | (key, item) :: rest =>
      match flat item, flatFields rest with
      | Some v, Some vs => Some ((key, v) :: vs)
      | _, _ => None
      end
  end.

(** The [set] patches of the loop over the elements of [to], from position
    [i] on. *)
Fixpoint elementSets (fromItems : list Any) (i : nat)
    (values : list PropertyValue) : list OperationPatch :=
  match values with
  | [] => []
  | value :: rest =>
      (if differs value (anyItem fromItems i) then [PSet (Index i) value]
       else [])
      ++ elementSets fromItems (S i) rest
  end.

(** The [set] patches of the loop over the entries of [to]. *)
Fixpoint fieldSets (fromFields : list (string * Any))
    (values : list (string * PropertyValue)) : list OperationPatch :=
  match values with
  | [] => []
  | (key, value) :: rest =>
      (if differs value (anyField fromFields key) then [PSet (Key key) value]
       else [])
      ++ fieldSets fromFields rest
  end.

(** The [list-delete] that ends the diff of two arrays, if [to] is the
    shorter one. *)
Definition tailDelete (fromItems toItems : list Any) : list OperationPatch :=
  let deletedItemsAtEnd :=
    (Z.of_nat (length fromItems) - Z.of_nat (length toItems))%Z in
  if bool_decide (deletedItemsAtEnd > 0)%Z
  then [PListDelete (Z.of_nat (length toItems)) deletedItemsAtEnd] else [].

(** The [remove] patches for the keys of [from] that [to] does not have. *)
Definition removals (fromFields toFields : list (string * Any))
    : list OperationPatch :=
  PRemove ∘ Key <$> filter (λ k, k ∉ toFields.*1) fromFields.*1.

Definition isArrayAny (v : Any) : bool :=
  match v with
  | AArray _ _ => true
  | _ => false
  end.

(** The values a shallow diff looks at in [to]: the elements of an array,
    the property values of an object. *)
Definition children (v : Any) : list Any :=
  match v with
  | AArray _ items => items
  | _ => (entries v).*2
  end.

(** Reading position [i] of an array: a hole, and a position past the end,
    read as [undefined]. *)
Definition readAt (xs : list Slot) (i : nat) : PropertyValue :=
  default (Prim PUndefined) (mjoin (xs !! i)).

(** Reading a property of an object. *)
Definition readProperty (props : gmap string PropertyValue) (key : string)
    : PropertyValue :=
  default (Prim PUndefined) (props !! key).

(** Two refs of the same identity are the same object. *)
Definition sameObjects (vs : list PropertyValue) : Prop :=
  ∀ r s, Ref r ∈ vs → Ref s ∈ vs → ident r = ident s → r = s.

(** The operations with payloads [datas], all for [oid]. *)
Definition opsFor (oid : ObjectIdentifier) (datas : list OperationPatch)
    : list (ObjectIdentifier * OperationPatch) :=
  (λ data, (oid, data)) <$> datas.

(** The items with key [k], in the order of the list. *)
Definition keyed {A} (key : A → string) (k : string) (items : list A)
    : list A :=
  filter (λ item, key item = k) items.

(** What a grouping holds under [k]: no group at all if no item has that
    key. *)
Definition groupOf {A} (key : A → string) (items : list A) (k : string)
    : option (list A) :=
  match keyed key k items with
  | [] => None
  | group => Some group
  end.

(** The operations a diff may emit. *)
Definition diffPatch (data : OperationPatch) : bool :=
  match data with
  | PInitialize _ | PSet _ _ | PRemove _ | PListDelete _ _ | PDelete => true
  | _ => false
  end.

Definition isRemove (data : OperationPatch) : bool :=
  match data with
  | PRemove _ => true
  | _ => false
  end.

(** A pass over the list of patches that only appends to it, and only
    operations whose payload is as [P] says. *)
Definition emitting (P : OperationPatch → Prop)
    (m : list Operation → JS (list Operation)) : Prop :=
  ∀ patches w ps w',
    m patches w = (Normal ps, w') →
    ∃ added, ps = patches ++ added ∧ Forall (λ op, P (op_data op)) added.

(** A value as it comes back from storage: every object and array in it
    carries an OID, no object has a key twice, and no primitive is [NaN]. *)
#[warnings="-register-all"]
Inductive stampedThroughout : Value → Prop :=
| stamped_prim p : p ≠ PNumber NaN → stampedThroughout (VPrim p)
| stamped_object oid fields :
    NoDup fields.*1 →
    Forall (λ kv, stampedThroughout kv.2) fields →
    stampedThroughout (VObject (Some oid) fields)
| stamped_array oid items :
    Forall stampedThroughout items →
    stampedThroughout (VArray (Some oid) items).

(** The OIDs of the objects among [values]. *)
Definition objectOids (values : list Any) : list (option ObjectIdentifier) :=
  anyOid <$> filter (λ value, isObjectAny value = true) values.

(** What [substituteFirstLevelObjectsWithRefs] leaves in the place of
    [value]: the value itself if it is a primitive, a ref to its OID if it
    is an object. *)
Definition standsFor (value new : Any) : Prop :=
  if isObjectAny value then
    ∃ r, new = ARef r ∧ anyOid value = Some (id r)
  else new = value.

(** The map after the objects among [values] have been entered, in
    order. *)
Definition entered (refObjects : gmap ObjectIdentifier Any)
    (values : list Any) : gmap ObjectIdentifier Any :=
  foldl (λ refs value,
           match anyOid value with
           | Some oid => if isObjectAny value then <[oid := value]> refs
                         else refs
           | None => refs
           end) refObjects values.

(** Every object among [values] carries an OID. *)
Definition allStamped (values : list Any) : bool :=
  forallb (λ value, negb (isObjectAny value)
                    || bool_decide (is_Some (anyOid value))) values.

(** The OIDs that dereferencing the refs that stand for [values] uses. *)
Definition objectIds (values : list Any) : list ObjectIdentifier :=
  omap (λ value, if isObjectAny value then anyOid value else None) values.

(** [dereference] over a list of slots. *)
Fixpoint dereferenceAll (values : list Any) (refs : gmap ObjectIdentifier Any)
    (used : list ObjectIdentifier) : JS (list Any * list ObjectIdentifier) :=
  match values with
  | [] => ret ([], used)
  | value :: rest =>
      let* '(value', used) := dereference value refs used in
      let* '(rest', used) := dereferenceAll rest refs used in
      ret (value' :: rest', used)
  end.

Section MigrationNotions.

Context {Rest : Type}.

(** Every component of every compound index of the collection is one of its
    fields or synthetics. *)
Definition resolvable (collection : Migrations.CollectionSchema Rest)
    : Prop :=
  ∀ key description fieldName,
    (key, description) ∈ default [] (Migrations.compounds collection) →
    fieldName ∈ Migrations.compound_of description →
    fieldName ∈ (Migrations.fields collection).*1
    ∨ fieldName ∈ (default [] (Migrations.synthetics collection)).*1.

(** The indexes of [these] whose name no index of [those] has. *)
Definition notAmong (those these : list Migrations.MigrationIndexDescription)
    : list Migrations.MigrationIndexDescription :=
  filter (λ index, Migrations.unknownIn those index = true) these.

(** What [migrate] may record under a collection in [addedIndexes]
    ([removedIndexes]): the indexes the new schema has for it and the old
    one does not (the reverse), if there are any. *)
Definition indexDelta (from to : Migrations.StorageSchema Rest)
    (every : list string) (collection : string)
    (indexes : list Migrations.MigrationIndexDescription) : Prop :=
  collection ∈ every ∧ indexes ≠ []
  ∧ ∃ fromIndexes toIndexes,
      Migrations.getIndexes (get (Migrations.collections from) collection)
        = Normal fromIndexes
      ∧ Migrations.getIndexes (get (Migrations.collections to) collection)
          = Normal toIndexes
      ∧ indexes = notAmong fromIndexes toIndexes.

(** Every collection of the schema is [resolvable]. *)
Definition wellFormed (schema : Migrations.StorageSchema Rest) : Prop :=
  ∀ key collection,
    (key, collection) ∈ Migrations.collections schema → resolvable collection.

End MigrationNotions.

(** ** Inputs of the examples *)

Definition refTo (n : nat) (oid : ObjectIdentifier) : Slot :=
  Some (Ref (mkRef n oid)).

(** An array of three refs, and a ref object of its own that has the id of
    the second. *)
Definition exampleRefs : list Slot :=
  [refTo 1 "todo/1:r#b"; refTo 2 "todo/1:r#a"; refTo 3 "todo/1:r#c"].
Definition exampleMoved : ObjectRef := mkRef 7 "todo/1:r#a".

Definition exampleWithNull : list Slot :=
  [Some (Prim PNull); refTo 2 "todo/1:r#a"].

Definition exampleDocument : Base :=
  Present (NObject None {["a" := Prim (PNumber (Int 1))]}).
Definition exampleDeleteThenSet : list Operation :=
  [mkOperation "todo/1:r" "1" PDelete;
   mkOperation "todo/1:r" "2" (PSet (Key "b") (Prim (PNumber (Int 2))))].

(** The tables with schema [{version: 1, A}] stored. *)
Definition exampleSchemaDb : Db := mkDb ∅ ∅ (Some (mkSchema 1 "A")).

(** The compaction scenario of the specification: operations at timestamps
    1, 2 and 3 for one OID, rebased up to 3. *)
Definition exampleDb : Db :=
  mkDb
    (list_to_map
       [(("todo/1:r", "1"),
         (PInitialize (NObject None {["title" := Prim (PString "hi")]}), true));
        (("todo/1:r", "3"),
         (PSet (Key "title") (Prim (PString "ho")), true));
        (("todo/1:r", "2"),
         (PSet (Key "done") (Prim (PBoolean false)), true));
        (("todo/2:s", "2"), (PDelete, false))])
    ∅ None.

Definition exampleSnapshot : Base :=
  Present (NObject (Some "todo/1:r")
             (<["done" := Prim (PBoolean false)]>
                {["title" := Prim (PString "ho")]})).

Definition exampleBaseline : DocumentBaseline :=
  mkBaseline "todo/1:r" exampleSnapshot "3".

(** The tables after [rebase("todo/1:r", "3")]: the rows of the OID are
    gone, its baseline is in place. *)
Definition exampleDbAfter : Db :=
  mkDb {[("todo/2:s", "2") := (PDelete, false)]}
    {["todo/1:r" := exampleBaseline]} None.

(** Callbacks for the examples: the clock counts 0, 1, 2, ..., sub-ids are
    s0, s1, ..., and a sub-OID appends [#subId] to the OID of its parent. *)
Definition exampleNow (n : nat) : string := pretty n.
Definition exampleSubId (n : nat) : string := "s" +:+ pretty n.
Definition exampleSubOid (parent : ObjectIdentifier) (key : PropertyName)
    (subId : string) : ObjectIdentifier :=
  parent +:+ "#" +:+ subId.
Definition exampleOptions : DiffOptions := mkOptions false false.

Definition number (z : Z) : Value := VPrim (PNumber (Int z)).

(** The sub-objects of the scenario "nested replace by reassignment". *)
Definition exampleOldSub : Value :=
  VObject (Some "todo/a:x#sub") [("v", number 1)].
Definition exampleNewSub : Value := VObject None [("v", number 2)].

Definition exampleTags : list Slot :=
  [Some (Prim (PString "a")); Some (Prim (PString "b"))].

Definition exampleFromTags : list PropertyValue :=
  [Prim (PString "a"); Prim (PString "b"); Prim (PString "c")].
Definition exampleToTags : list PropertyValue :=
  [Prim (PString "a"); Prim (PString "x")].

Definition exampleToFields : list (string * PropertyValue) :=
  [("title", Prim (PString "ho")); ("sub", Ref (mkRef 1 "todo/1:r#s"))].

Definition exampleNested : Value :=
  VObject (Some "todo/a:x")
    [("id", VPrim (PString "a")); ("sub", exampleOldSub);
     ("tags", VArray (Some "todo/a:x#tags") [number 1; number 2])].

(** The scenario "nested replace by reassignment", and what the diff emits
    for it. *)
Definition exampleReplaceFrom : Value :=
  VObject (Some "todo/a:x")
    [("id", VPrim (PString "a")); ("sub", exampleOldSub)].
Definition exampleReplaceTo : Value :=
  VObject None [("id", VPrim (PString "a")); ("sub", exampleNewSub)].
Definition exampleReplaceOps : list Operation :=
  [mkOperation "todo/a:x#s0" "0"
     (PInitialize (NObject None {["v" := Prim (PNumber (Int 2))]}));
   mkOperation "todo/a:x" "1" (PSet (Key "sub") (Ref (mkRef 0 "todo/a:x#s0")));
   mkOperation "todo/a:x#sub" "2" PDelete].

(** A document with two sub-objects in place. *)
Definition exampleAny : Any :=
  AObject (Some "todo/a:x")
    [("id", APrim (PString "a"));
     ("sub", AObject (Some "todo/a:x#sub") [("v", APrim (PNumber (Int 1)))]);
     ("tags", AArray (Some "todo/a:x#tags") [APrim (PString "x")])].

(** The collections of the test schema, as far as the migration code reads
    them; the rest is a text that differs where the collections do. *)
Definition exampleTodo : Migrations.CollectionSchema string :=
  Migrations.mkCollection
    [("id", Migrations.mkField "string" true);
     ("content", Migrations.mkField "string" true);
     ("done", Migrations.mkField "boolean" false);
     ("tags", Migrations.mkField "array" false);
     ("category", Migrations.mkField "string" false);
     ("attachments", Migrations.mkField "array" false)]
    (Some [("example", Migrations.mkSynthetic "string")])
    (Some [("tagsSortedByDone", Migrations.mkCompound ["tags"; "done"]);
           ("categorySortedByDone",
            Migrations.mkCompound ["category"; "done"])])
    "todo".

Definition exampleWeird : Migrations.CollectionSchema string :=
  Migrations.mkCollection
    [("id", Migrations.mkField "string" true);
     ("weird", Migrations.mkField "any" false);
     ("map", Migrations.mkField "map" false);
     ("objectMap", Migrations.mkField "map" false);
     ("reference", Migrations.mkField "ref" false)]
    (Some []) (Some []) "weird".

Definition exampleSchema : Migrations.StorageSchema string :=
  Migrations.mkStorageSchema 1 [("todo", exampleTodo); ("weird", exampleWeird)].

(** A later schema: the tags of a todo are indexed and its content is not,
    one compound index is gone; the weird collection is dropped and a
    collection of lists is new. *)
Definition exampleLaterTodo : Migrations.CollectionSchema string :=
  Migrations.mkCollection
    [("id", Migrations.mkField "string" true);
     ("content", Migrations.mkField "string" false);
     ("done", Migrations.mkField "boolean" false);
     ("tags", Migrations.mkField "array" true);
     ("category", Migrations.mkField "string" false);
     ("attachments", Migrations.mkField "array" false)]
    (Some [("example", Migrations.mkSynthetic "string")])
    (Some [("tagsSortedByDone", Migrations.mkCompound ["tags"; "done"])])
    "todo, with indexed tags".

Definition exampleList : Migrations.CollectionSchema string :=
  Migrations.mkCollection
    [("id", Migrations.mkField "string" true);
     ("title", Migrations.mkField "string" false)]
    None None "list".

Definition exampleLaterSchema : Migrations.StorageSchema string :=
  Migrations.mkStorageSchema 2
    [("todo", exampleLaterTodo); ("list", exampleList)].

(** A printer for the examples: the text kept with a collection, and
    nothing for what is not one. *)
Definition examplePrint (found : Looked (Migrations.CollectionSchema string))
    : option string :=
  match found with
  | Own collection => Some (Migrations.rest collection)
  | _ => None
  end.

(** The migration between the two example schemas. *)
Definition exampleMigration : Migrations.Migration string :=
  Migrations.mkMigration 2 exampleSchema exampleLaterSchema
    ["list"] ["weird"] ["todo"; "list"] ["todo"; "list"]
    {[ "todo" := [Migrations.mkIndex "tags" true false false];
       "list" := [Migrations.mkIndex "id" false false false] ]}
    {[ "todo" := [Migrations.mkIndex "content" false false false;
                  Migrations.mkIndex "categorySortedByDone" false false true]
    ]}.

(** The first migration, to the test schema. *)
Definition exampleFirstMigration : Migrations.Migration string :=
  Migrations.mkMigration 1 (Migrations.mkStorageSchema 0 []) exampleSchema
    ["todo"; "weird"] [] ["todo"; "weird"] ["todo"; "weird"]
    {[ "todo" := [Migrations.mkIndex "id" false false false;
                  Migrations.mkIndex "content" false false false;
                  Migrations.mkIndex "example" false true false;
                  Migrations.mkIndex "tagsSortedByDone" true false true;
                  Migrations.mkIndex "categorySortedByDone" false false true];
       "weird" := [Migrations.mkIndex "id" false false false] ]}
    ∅.

(** A schema with a collection under a name that every object inherits. *)
Definition exampleInheritedSchema : Migrations.StorageSchema string :=
  Migrations.mkStorageSchema 2
    [("todo", exampleTodo); ("constructor", exampleList)].

Section DiffEngine.

(** The two callbacks of the source: the [n]-th call of [getNow] returns
    [getNow n], the [n]-th call of [createSubId] returns [createSubId n]. *)
Variable getNow : nat → string.
Variable createSubId : nat → string.

(** Modelled from the spec: how [oids.js] builds the OID of a sub-object is
    not part of the sources ("a sub-OID is constructed from a parent OID and
    a key path").  It is left open: [subOid parent key subId]. *)
Variable subOid : ObjectIdentifier → PropertyName → string → ObjectIdentifier.

Variable options : DiffOptions.

Definition now : JS string :=
  λ w, (Normal (getNow (now_calls w)),
        mkWorld (next_ident w) (console w) (S (now_calls w)) (subid_calls w)).

Definition newSubId : JS string :=
  λ w, (Normal (createSubId (subid_calls w)),
        mkWorld (next_ident w) (console w) (now_calls w) (S (subid_calls w))).

(** [patches.push({ oid, timestamp: getNow(), data })] *)
Definition push (patches : list Operation) (oid : ObjectIdentifier)
    (data : OperationPatch) : JS (list Operation) :=
  let* timestamp := now in
  ret (patches ++ [mkOperation oid timestamp data]).

(** Modelled from the spec: [ensureOid] lives in [oids.js], which is not part
    of the sources.  [ensureOid(value, parentOid, key, createSubId)] answers
    the OID the value has, and gives it a new sub-OID of the parent first if
    it has none ("otherwise, ensure a new OID"). *)
Definition ensureOid (value : Value) (parentOid : ObjectIdentifier)
    (key : PropertyName) : JS (ObjectIdentifier * Value) :=
  match maybeGetOid value with
  | Some oid => ret (oid, value)
  | None =>
      let* subId := newSubId in
      let oid := subOid parentOid key subId in
      ret (oid, assignOid value oid)
  end.

(** Modelled from the spec: [assignOidsToAllSubObjects] lives in [oids.js],
    which is not part of the sources.  [assignOids v own] is
    [assignOid(v, own)] followed by [assignOidsToAllSubObjects(v,
    createSubId)]: the value gets the OID [own], and every object or array
    below it keeps its OID or is given a new one. *)
Fixpoint assignOids (v : Value) (own : ObjectIdentifier) {struct v}
    : JS Value :=
  match v with
  | VPrim p => ret (VPrim p)
  | VObject _ fields =>
      let* fields' :=
        (fix each (fs : list (string * Value)) : JS (list (string * Value)) :=
           match fs with
           | [] => ret []
           | (k, child) :: rest =>
               let* child' :=
                 (if isObject child then
                    let* '(oid, _) := ensureOid child own (Key k) in
                    assignOids child oid
                  else ret child) in
               let* rest' := each rest in
               ret ((k, child') :: rest')
           end) fields in
      ret (VObject (Some own) fields')
  | VArray _ items =>
      let* items' :=
        (fix each (i : nat) (vs : list Value) : JS (list Value) :=
           match vs with
           | [] => ret []
           | child :: rest =>
               let* child' :=
                 (if isObject child then
                    let* '(oid, _) := ensureOid child own (Index i) in
                    assignOids child oid
                  else ret child) in
               let* rest' := each (S i) rest in
               ret (child' :: rest')
           end) 0 items in
      ret (VArray (Some own) items')
  end.

(** What the shallow copy of the parent holds in the slot of [child]: the
    primitive itself, or a ref to the OID of the sub-object. *)
Definition shallow (child : Value) (own : ObjectIdentifier)
    (key : PropertyName) : JS (PropertyValue * option ObjectIdentifier) :=
  match child with
  | VPrim p => ret (Prim p, None)
  | _ =>
      let* '(oid, _) := ensureOid child own key in
      let* ref := createRef oid in
      ret (ref, Some oid)
  end.

(** Modelled from the spec: [normalize] lives in [oids.js], which is not part
    of the sources.  It "walks value and produces a mapping OID → shallow
    copy with ObjectRef substitutions.  The root entry's OID equals the root
    of value."  The entries are listed root first, then the sub-objects in
    the order of their slots. *)
Fixpoint normalizeAs (v : Value) (own : ObjectIdentifier) {struct v}
    : JS (list (ObjectIdentifier * NormalizedObject)) :=
  match v with
  | VPrim p => ret []
  | VObject _ fields =>
      let* '(props, below) :=
        (fix each (fs : list (string * Value))
           : JS (list (string * PropertyValue)
                 * list (ObjectIdentifier * NormalizedObject)) :=
           match fs with
           | [] => ret ([], [])
           | (k, child) :: rest =>
               let* '(slot, oid) := shallow child own (Key k) in
               let* entries :=
                 match oid with
                 | Some oid => normalizeAs child oid
                 | None => ret []
                 end in
               let* '(props, below) := each rest in
               ret ((k, slot) :: props, entries ++ below)
           end) fields in
      ret ((own, NObject (Some own) (list_to_map props)) :: below)
  | VArray _ items =>
      let* '(slots, below) :=
        (fix each (i : nat) (vs : list Value)
           : JS (list PropertyValue
                 * list (ObjectIdentifier * NormalizedObject)) :=
           match vs with
           | [] => ret ([], [])
           | child :: rest =>
               let* '(slot, oid) := shallow child own (Index i) in
               let* entries :=
                 match oid with
                 | Some oid => normalizeAs child oid
                 | None => ret []
                 end in
               let* '(slots, below) := each (S i) rest in
               ret (slot :: slots, entries ++ below)
           end) 0 items in
      ret ((own, NArray (Some own) (Some <$> slots)) :: below)
  end.

Definition normalize (v : Value)
    : JS (list (ObjectIdentifier * NormalizedObject)) :=
  let* own := getOid v in
  normalizeAs v own.

(** The loop of [initialToPatches] over the entries of the normalized map. *)
Fixpoint pushInitialize (entries : list (ObjectIdentifier * NormalizedObject))
    (patches : list Operation) : JS (list Operation) :=
  match entries with
  | [] => ret patches
  | (key, value) :: rest =>
      let* patches := push patches key (PInitialize (removeOid value)) in
      pushInitialize rest patches
  end.

(** [initialToPatches(initial, rootOid, getNow, createSubId, patches)] *)
Definition initialToPatches (initial : Value) (rootOid : ObjectIdentifier)
    (patches : list Operation) : JS (list Operation) :=
  let* initial := assignOids initial rootOid in
  let* normalized := normalize initial in
  pushInitialize normalized patches.

(** The choice of [valueOid] in [diffItems]: with [mergeUnknownObjects], a
    new value without an OID takes over the OID of the old value; in every
    other case [ensureOid] decides. *)
Definition resolveOid (oid : ObjectIdentifier) (key : PropertyName)
    (value oldValue : Value) : JS (ObjectIdentifier * Value) :=
  if negb (mergeUnknownObjects options) then ensureOid value oid key
  else
    let oldValueOid := maybeGetOid oldValue in
    let valueOid := maybeGetOid value in
    match (if negb (truthyOid valueOid) && truthyOid oldValueOid
           then oldValueOid else None) with
    | Some old => ret (old, assignOid value old)
    | None => ensureOid value oid key
    end.

Definition isUndefined (v : Value) : bool :=
  match v with
  | VPrim PUndefined => true
  | _ => false
  end.

(** [valueOid !== oldValueOid] *)
Definition otherOid (valueOid : ObjectIdentifier)
    (oldValueOid : option ObjectIdentifier) : bool :=
  negb (bool_decide (oldValueOid = Some valueOid)).

(** The closure [diffItems(key, value, oldValue)] of [diffToPatches];
    [recurse] is [diffToPatches] itself.  It is handed [value] as it was
    found in [to]: the OID the closure may have stamped on it is not read by
    the callee (see [diffToPatches_ignores_oid_of_to]). *)
Definition diffItems
    (recurse : Value → Value → list PropertyName → list Operation →
               JS (list Operation))
    (oid : ObjectIdentifier) (keyPath : list PropertyName)
    (key : PropertyName) (value oldValue : Value) (patches : list Operation)
    : JS (list Operation) :=
  match value with
  | VPrim p =>
      if differsFrom p oldValue then push patches oid (PSet key (Prim p))
      else ret patches
  | _ =>
      let oldValueOid := maybeGetOid oldValue in
      let* '(valueOid, stamped) := resolveOid oid key value oldValue in
      if isUndefined oldValue || otherOid valueOid oldValueOid then
        let* patches := initialToPatches stamped valueOid patches in
        let* timestamp := now in
        let* ref := createRef valueOid in
        let patches := patches ++ [mkOperation oid timestamp (PSet key ref)] in
        match oldValueOid with
        | Some old => push patches old PDelete
        | None => ret patches
        end
      else recurse oldValue value (keyPath ++ [key]) patches
  end.

(** The loop over the elements of [from] beyond the end of [to]. *)
Fixpoint deleteDropped (dropped : list Value) (patches : list Operation)
    : JS (list Operation) :=
  match dropped with
  | [] => ret patches
  | value :: rest =>
      let valueOid := maybeGetOid value in
      let* patches :=
        match valueOid with
        | Some o =>
            if truthyOid valueOid then push patches o PDelete else ret patches
        | None => ret patches
        end in
      deleteDropped rest patches
  end.

(** The loop over the keys left in [oldKeys]. *)
Fixpoint removeKeys (oid : ObjectIdentifier) (oldKeys : list string)
    (patches : list Operation) : JS (list Operation) :=
  match oldKeys with
  | [] => ret patches
  | key :: rest =>
      let* patches := push patches oid (PRemove (Key key)) in
      removeKeys oid rest patches
  end.

(** [diffToPatches(from, to, getNow, keyPath, createSubId, patches, options)] *)
Fixpoint diffToPatches (from to : Value) (keyPath : list PropertyName)
    (patches : list Operation) {struct to} : JS (list Operation) :=
  let* oid := getOid from in
  match from, to with
  | VArray _ fromItems, VArray _ toItems =>
      let* patches :=
        (fix each (i : nat) (vs : list Value) (patches : list Operation)
           : JS (list Operation) :=
           match vs with
           | [] => ret patches
           | value :: rest =>
               let* patches :=
                 diffItems diffToPatches oid keyPath (Index i) value
                   (getItem fromItems i) patches in
               each (S i) rest patches
           end) 0 toItems patches in
      let deletedItemsAtEnd :=
        (Z.of_nat (length fromItems) - Z.of_nat (length toItems))%Z in
      if bool_decide (deletedItemsAtEnd > 0)%Z then
        let* patches :=
          deleteDropped (drop (length toItems) fromItems) patches in
        push patches oid
          (PListDelete (Z.of_nat (length toItems)) deletedItemsAtEnd)
      else ret patches
  | VArray _ _, _ | _, VArray _ _ => throw CannotDiffArrayWithObject
  | VObject _ fromFields, VObject _ toFields =>
      let* '(oldKeys, patches) :=
        (fix each (fs : list (string * Value)) (oldKeys : list string)
             (patches : list Operation)
           : JS (list string * list Operation) :=
           match fs with
           | [] => ret (oldKeys, patches)
           | (key, value) :: rest =>
               if isUndefined value && defaultUndefined options then
                 each rest oldKeys patches
               else
                 let oldKeys := filter (λ k, k ≠ key) oldKeys in
                 let* patches :=
                   diffItems diffToPatches oid keyPath (Key key) value
                     (getField fromFields key) patches in
                 each rest oldKeys patches
           end) toFields (fromFields.*1) patches in
      if negb (defaultUndefined options) then removeKeys oid oldKeys patches
      else ret patches
  | _, _ => ret patches
  end.

(** The first loop of the array case, on its own. *)
Fixpoint diffElements (oid : ObjectIdentifier) (keyPath : list PropertyName)
    (fromItems : list Value) (i : nat) (vs : list Value)
    (patches : list Operation) : JS (list Operation) :=
  match vs with
  | [] => ret patches
  | value :: rest =>
      let* patches :=
        diffItems diffToPatches oid keyPath (Index i) value
          (getItem fromItems i) patches in
      diffElements oid keyPath fromItems (S i) rest patches
  end.

(** The first loop of the object case, on its own. *)
Fixpoint diffFields (oid : ObjectIdentifier) (keyPath : list PropertyName)
    (fromFields : list (string * Value)) (fs : list (string * Value))
    (oldKeys : list string) (patches : list Operation)
    : JS (list string * list Operation) :=
  match fs with
  | [] => ret (oldKeys, patches)
  | (key, value) :: rest =>
      if isUndefined value && defaultUndefined options then
        diffFields oid keyPath fromFields rest oldKeys patches
      else
        let oldKeys := filter (λ k, k ≠ key) oldKeys in
        let* patches :=
          diffItems diffToPatches oid keyPath (Key key) value
            (getField fromFields key) patches in
        diffFields oid keyPath fromFields rest oldKeys patches
  end.

(** The closure [diffItems(key, value, oldValue)] of
    [shallowDiffToPatches]. *)
Definition shallowDiffItems (oid : ObjectIdentifier) (key : PropertyName)
    (value oldValue : Any) (patches : list Operation)
    : Shallow (list Operation) :=
  match flat value with
  | Some v =>
      if differs v oldValue then run (push patches oid (PSet key v))
      else retS patches
  | None => throwS GivenNestedObject
  end.

Fixpoint shallowDiffElements (oid : ObjectIdentifier) (fromItems : list Any)
    (i : nat) (vs : list Any) (patches : list Operation)
    : Shallow (list Operation) :=
  match vs with
  | [] => retS patches
  | value :: rest =>
      let+ patches :=
        shallowDiffItems oid (Index i) value (anyItem fromItems i) patches in
      shallowDiffElements oid fromItems (S i) rest patches
  end.

Fixpoint shallowDiffFields (oid : ObjectIdentifier)
    (fromFields : list (string * Any)) (fs : list (string * Any))
    (oldKeys : list string) (patches : list Operation)
    : Shallow (list string * list Operation) :=
  match fs with
  | [] => retS (oldKeys, patches)
  | (key, value) :: rest =>
      let oldKeys := filter (λ k, k ≠ key) oldKeys in
      let+ patches :=
        shallowDiffItems oid (Key key) value (anyField fromFields key)
          patches in
      shallowDiffFields oid fromFields rest oldKeys patches
  end.

(** [shallowDiffToPatches(from, to, getNow, patches)] *)
Definition shallowDiffToPatches (from to : Any) (patches : list Operation)
    : Shallow (list Operation) :=
  let+ oid := run (getAnyOid from) in
  match from, to with
  | AArray _ fromItems, AArray _ toItems =>
      let+ patches := shallowDiffElements oid fromItems 0 toItems patches in
      let deletedItemsAtEnd :=
        (Z.of_nat (length fromItems) - Z.of_nat (length toItems))%Z in
      if bool_decide (deletedItemsAtEnd > 0)%Z then
        run (push patches oid
               (PListDelete (Z.of_nat (length toItems)) deletedItemsAtEnd))
      else retS patches
  | AArray _ _, _ | _, AArray _ _ => throwS (Thrown CannotDiffArrayWithObject)
  | _, _ =>
      if isObjectAny from && isObjectAny to then
        let+ diffed :=
          shallowDiffFields oid (entries from) (entries to)
            (entries from).*1 patches in
        run (removeKeys oid diffed.1 diffed.2)
      else retS patches
  end.

(** [shallowInitialToPatches(initial, rootOid, getNow, patches)] *)
Definition shallowInitialToPatches (initial : NormalizedObject)
    (rootOid : ObjectIdentifier) (patches : list Operation)
    : JS (list Operation) :=
  push patches rootOid (PInitialize initial).

(** The payloads a diff run with [options] may emit: no [remove] under
    [defaultUndefined]. *)
Definition emitted (data : OperationPatch) : Prop :=
  diffPatch data = true
  ∧ (defaultUndefined options = true → isRemove data = false).

(** *** Properties of the diff engine *)

Implicit Types (patches : list Operation) (w : World) (v value : Value).

Lemma ticked_0 w : ticked 0 w = w.
Proof. destruct w. unfold ticked. simpl. by rewrite Nat.add_0_r. Qed.

Lemma ticked_ticked n m w : ticked n (ticked m w) = ticked (m + n) w.
Proof. unfold ticked. simpl. f_equal. lia. Qed.

Lemma push_run patches oid data w :
  push patches oid data w =
    (Normal (patches ++ [mkOperation oid (getNow (now_calls w)) data]),
     ticked 1 w).
Proof. unfold push, bind, now, ret, ticked. simpl. by rewrite Nat.add_1_r. Qed.

Lemma deleteDropped_run dropped patches w :
  deleteDropped dropped patches w =
    (Normal (patches ++ stampedFrom getNow (now_calls w)
                          ((λ o, (o, PDelete)) <$> carriedOids dropped)),
     ticked (length (carriedOids dropped)) w).
Proof.
  revert patches w. unfold carriedOids.
  induction dropped as [|value rest IH]; intros patches w; simpl.
  - by rewrite app_nil_r, ticked_0.
  - unfold bind.
    destruct (maybeGetOid value) as [o|]; simpl;
      [destruct (bool_decide (o = "")); simpl|].
    + unfold ret. apply IH.
    + rewrite IH. simpl. rewrite <- app_assoc. simpl. f_equal.
      unfold ticked. simpl. f_equal. by rewrite Nat.add_succ_r.
    + unfold ret. apply IH.
Qed.

Lemma diffToPatches_array oid fromItems toOid toItems keyPath patches w :
  diffToPatches (VArray (Some oid) fromItems) (VArray toOid toItems)
    keyPath patches w =
  (let* patches := diffElements oid keyPath fromItems 0 toItems patches in
   if bool_decide
        (Z.of_nat (length fromItems) - Z.of_nat (length toItems) > 0)%Z
   then
     let* patches :=
       deleteDropped (drop (length toItems) fromItems) patches in
     push patches oid
       (PListDelete (Z.of_nat (length toItems))
          (Z.of_nat (length fromItems) - Z.of_nat (length toItems)))
   else ret patches) w.
Proof.
  simpl. unfold bind at 1. unfold getOid, maybeGetOid, ret at 1.
  unfold bind at 1 3. match goal with |- context [?f 0 toItems patches w] =>
    assert (∀ vs i ps w0, f i vs ps w0
              = diffElements oid keyPath fromItems i vs ps w0) as ->; [|done]
  end.
  induction vs as [|value rest IH]; intros i ps w0; [done|].
  simpl. unfold bind.
  destruct (diffItems _ _ _ _ _ _ _ _) as [[ps'|e] w1];
    [apply IH|done].
Qed.

(** The OID of [to] plays no part in the diff, so it does not matter that
    [diffItems] recurses on the value as found rather than as stamped. *)
Lemma diffToPatches_ignores_oid_of_to from to oid keyPath patches w :
  diffToPatches from (assignOid to oid) keyPath patches w =
  diffToPatches from to keyPath patches w.
Proof. by destruct from, to. Qed.

(** Induction over nested values. *)
Lemma Value_nested_ind (P : Value → Prop) :
  (∀ p, P (VPrim p)) →
  (∀ oid fields, Forall (λ kv, P kv.2) fields → P (VObject oid fields)) →
  (∀ oid items, Forall P items → P (VArray oid items)) →
  ∀ v, P v.
Proof.
  intros Hprim Hobject Harray.
  fix IH 1. intros [p|oid fields|oid items].
  - apply Hprim.
  - apply Hobject. induction fields as [|[k child] rest IHrest];
      constructor; [apply IH|apply IHrest].
  - apply Harray. induction items as [|child rest IHrest];
      constructor; [apply IH|apply IHrest].
Qed.

Lemma steady_ret {A} (a : A) : steady (ret a).
Proof. intros w. by exists a, w. Qed.

Lemma steady_bind {A B} (m : JS A) (k : A → JS B) :
  steady m → (∀ a, steady (k a)) → steady (bind m k).
Proof.
  intros Hm Hk w. destruct (Hm w) as (a & w1 & Em & Hw1).
  destruct (Hk a w1) as (b & w2 & Ek & Hw2).
  exists b, w2. unfold bind. rewrite Em, Ek. split; [done|congruence].
Qed.

Lemma steady_newObjects n : steady (newObjects n).
Proof. intros w. by eexists _, _. Qed.

Lemma steady_newSubId : steady newSubId.
Proof. intros w. by eexists _, _. Qed.

Lemma steady_createRef oid : steady (createRef oid).
Proof.
  apply steady_bind; [apply steady_newObjects|intros; apply steady_ret].
Qed.

Lemma steady_ensureOid v parentOid key :
  steady (ensureOid v parentOid key).
Proof.
  unfold ensureOid. destruct (maybeGetOid v); [apply steady_ret|].
  apply steady_bind; [apply steady_newSubId|intros; apply steady_ret].
Qed.

Lemma steady_resolveOid oid key value oldValue :
  steady (resolveOid oid key value oldValue).
Proof.
  unfold resolveOid.
  repeat case_match; apply steady_ensureOid || apply steady_ret.
Qed.

Create HintDb steady.
#[local] Hint Resolve steady_ret steady_newObjects steady_newSubId
  steady_createRef steady_ensureOid : steady.

Lemma steady_assignOids v : ∀ own, steady (assignOids v own).
Proof.
  induction v as [p|oid fields IH|oid items IH] using Value_nested_ind;
    intros own; simpl.
  - apply steady_ret.
  - apply steady_bind; [|intros; apply steady_ret].
    induction IH as [|[k child] rest Hchild _ IHrest]; [apply steady_ret|].
    apply steady_bind; [|intros; apply steady_bind; auto with steady].
    destruct (isObject child); [|apply steady_ret].
    apply steady_bind; [apply steady_ensureOid|]. intros [o ?]. apply Hchild.
  - apply steady_bind; [|intros; apply steady_ret].
    generalize 0.
    induction IH as [|child rest Hchild _ IHrest]; intros i;
      [apply steady_ret|].
    apply steady_bind; [|intros; apply steady_bind; auto with steady].
    destruct (isObject child); [|apply steady_ret].
    apply steady_bind; [apply steady_ensureOid|]. intros [o ?]. apply Hchild.
Qed.

Lemma steady_shallow child own key :
  steady (shallow child own key).
Proof.
  unfold shallow. destruct child; [apply steady_ret|..];
    (apply steady_bind; [apply steady_ensureOid|]; intros [o ?];
     apply steady_bind; [apply steady_createRef|]; intros; apply steady_ret).
Qed.

Lemma steady_normalizeAs v :
  ∀ own, steady (normalizeAs v own).
Proof.
  induction v as [p|oid fields IH|oid items IH] using Value_nested_ind;
    intros own; simpl.
  - apply steady_ret.
  - apply steady_bind; [|intros [? ?]; apply steady_ret].
    induction IH as [|[k child] rest Hchild _ IHrest]; [apply steady_ret|].
    apply steady_bind; [apply steady_shallow|]. intros [slot [o|]].
    + apply steady_bind; [apply Hchild|]. intros entries.
      apply steady_bind; [apply IHrest|]. intros [? ?]. apply steady_ret.
    + apply steady_bind; [apply steady_ret|]. intros entries.
      apply steady_bind; [apply IHrest|]. intros [? ?]. apply steady_ret.
  - apply steady_bind; [|intros [? ?]; apply steady_ret].
    generalize 0.
    induction IH as [|child rest Hchild _ IHrest]; intros i;
      [apply steady_ret|].
    apply steady_bind; [apply steady_shallow|]. intros [slot [o|]].
    + apply steady_bind; [apply Hchild|]. intros entries.
      apply steady_bind; [apply IHrest|]. intros [? ?]. apply steady_ret.
    + apply steady_bind; [apply steady_ret|]. intros entries.
      apply steady_bind; [apply IHrest|]. intros [? ?]. apply steady_ret.
Qed.

Lemma assignOids_stamps v own w v' w' :
  isObject v = true →
  assignOids v own w = (Normal v', w') →
  maybeGetOid v' = Some own.
Proof.
  destruct v; [done|..]; intros _; simpl; unfold bind, ret;
    case_match; case_match; by intros [= <- <-].
Qed.

Lemma normalizeAs_root_first v own w entries w' :
  isObject v = true →
  normalizeAs v own w = (Normal entries, w') →
  ∃ root below, entries = (own, root) :: below.
Proof.
  destruct v; [done|..]; intros _; simpl; unfold bind, ret;
    case_match; case_match; try done; case_match; intros [= <- <-];
    by eexists _, _.
Qed.

Lemma pushInitialize_run entries patches w :
  pushInitialize entries patches w =
    (Normal (patches
             ++ stampedFrom getNow (now_calls w) (initializations entries)),
     ticked (length entries) w).
Proof.
  revert patches w.
  induction entries as [|[key o] rest IH]; intros patches w; simpl.
  - by rewrite app_nil_r, ticked_0.
  - unfold bind. rewrite push_run, IH, ticked_ticked, <- app_assoc. simpl.
    by rewrite Nat.add_1_r.
Qed.

(** [initialToPatches] on an object or array always returns: it appends one
    [initialize] per entry of the normalized value, the root's first. *)
Lemma initialToPatches_run initial rootOid patches w :
  isObject initial = true →
  ∃ root below w2,
    now_calls w2 = now_calls w
    ∧ initialToPatches initial rootOid patches w =
        (Normal (patches
                 ++ stampedFrom getNow (now_calls w)
                      (initializations ((rootOid, root) :: below))),
         ticked (S (length below)) w2).
Proof.
  intros Hobj. unfold initialToPatches, bind.
  destruct (steady_assignOids initial rootOid w) as (v1 & w1 & E1 & Hw1).
  rewrite E1. pose proof (assignOids_stamps _ _ _ _ _ Hobj E1) as Hoid.
  assert (isObject v1 = true) as Hobj1 by (by destruct v1).
  unfold normalize, bind, getOid. rewrite Hoid. unfold ret at 1.
  destruct (steady_normalizeAs v1 rootOid w1) as (entries & w2 & E2 & Hw2).
  rewrite E2.
  destruct (normalizeAs_root_first _ _ _ _ _ Hobj1 E2) as (root & below & ->).
  exists root, below, w2. rewrite pushInitialize_run.
  split; [congruence|]. by rewrite Hw2, Hw1.
Qed.

Lemma resolveOid_keeps_shape oid key value oldValue w valueOid stamped w1 :
  resolveOid oid key value oldValue w = (Normal (valueOid, stamped), w1) →
  isObject stamped = isObject value
  ∧ now_calls w1 = now_calls w ∧ next_ident w1 = next_ident w.
Proof.
  unfold resolveOid, ensureOid, bind, ret, newSubId.
  repeat case_match; intros; simplify_eq; by destruct value.
Qed.



Lemma appending_ret : appending (λ patches, ret patches).
Proof. intros patches w ps w' [= <- <-]. exists []. by rewrite app_nil_r. Qed.

Lemma appending_bind (m k : list Operation → JS (list Operation)) :
  appending m → appending k → appending (λ patches, bind (m patches) k).
Proof.
  intros Hm Hk patches w ps w'. unfold bind.
  destruct (m patches w) as [[ps1|e] w1] eqn:E1; [|done]. intros E2.
  destruct (Hm _ _ _ _ E1) as [a1 ->]. destruct (Hk _ _ _ _ E2) as [a2 ->].
  exists (a1 ++ a2). by rewrite app_assoc.
Qed.

Lemma appending_push oid data : appending (λ patches, push patches oid data).
Proof.
  intros patches w ps w'. rewrite push_run. intros [= <- <-]. by eexists.
Qed.

Lemma appending_deleteDropped dropped : appending (deleteDropped dropped).
Proof.
  intros patches w ps w'. rewrite deleteDropped_run. intros [= <- <-].
  by eexists.
Qed.

Lemma appending_removeKeys oid oldKeys : appending (removeKeys oid oldKeys).
Proof.
  induction oldKeys as [|key rest IH]; simpl; [apply appending_ret|].
  apply (appending_bind (λ patches, push patches oid (PRemove (Key key)))
           (removeKeys oid rest)); [apply appending_push|apply IH].
Qed.

Lemma appending_initialToPatches initial rootOid :
  isObject initial = true → appending (initialToPatches initial rootOid).
Proof.
  intros Hobj patches w ps w'.
  destruct (initialToPatches_run initial rootOid patches w Hobj)
    as (root & below & w2 & _ & ->).
  intros [= <- <-]. by eexists.
Qed.

(** [diffItems] only appends, if the recursive diff of its value does. *)
Lemma appending_diffItems recurse oid keyPath key value oldValue :
  (∀ old keyPath', appending (recurse old value keyPath')) →
  appending (diffItems recurse oid keyPath key value oldValue).
Proof.
  intros Hrec patches w ps w'.
  destruct (isObject value) eqn:Hobj.
  - destruct (steady_resolveOid oid key value oldValue w)
      as ([valueOid stamped] & w1 & Eres & _).
    destruct (resolveOid_keeps_shape _ _ _ _ _ _ _ _ Eres)
      as (Hshape & _ & _).
    destruct (initialToPatches_run stamped valueOid patches w1)
      as (root & below & w2 & _ & Einit); [congruence|].
    unfold diffItems.
    destruct value as [p|o fs|o vs]; [done|..]; unfold bind at 1;
      rewrite Eres;
      (destruct (isUndefined oldValue
                 || otherOid valueOid (maybeGetOid oldValue));
       [|apply Hrec]);
      unfold bind at 1; rewrite Einit;
      unfold bind, now, createRef, newObjects, ret; simpl;
      (destruct (maybeGetOid oldValue); [rewrite push_run|]);
      intros [= <- <-]; rewrite <- ?app_assoc; by eexists.
  - unfold diffItems. destruct value as [p| |]; [|done..].
    destruct (differsFrom p oldValue);
      [apply appending_push|apply appending_ret].
Qed.

Lemma diffToPatches_object oid fromFields toOid toFields keyPath patches w :
  diffToPatches (VObject (Some oid) fromFields) (VObject toOid toFields)
    keyPath patches w =
  (let* '(oldKeys, patches) :=
     diffFields oid keyPath fromFields toFields (fromFields.*1) patches in
   if negb (defaultUndefined options) then removeKeys oid oldKeys patches
   else ret patches) w.
Proof.
  simpl. unfold bind at 1. unfold getOid, maybeGetOid, ret at 1.
  unfold bind at 1 3. match goal with
  |- context [?f toFields (fromFields.*1) patches w] =>
    assert (∀ fs keys ps w0, f fs keys ps w0
              = diffFields oid keyPath fromFields fs keys ps w0) as ->; [|done]
  end.
  induction fs as [|[key value] rest IH]; intros keys ps w0; [done|].
  simpl. destruct (isUndefined value && defaultUndefined options);
    [apply IH|].
  unfold bind.
  destruct (diffItems _ _ _ _ _ _ _ _) as [[ps'|e] w1]; [apply IH|done].
Qed.

Lemma appending_diffElements oid keyPath fromItems toItems :
  Forall (λ value, ∀ from path, appending (diffToPatches from value path))
    toItems →
  ∀ i, appending (diffElements oid keyPath fromItems i toItems).
Proof.
  induction 1 as [|value rest Hvalue _ IH]; intros i; simpl;
    [apply appending_ret|].
  apply (appending_bind
           (diffItems diffToPatches oid keyPath (Index i) value
              (getItem fromItems i))
           (diffElements oid keyPath fromItems (S i) rest));
    [by apply appending_diffItems|apply IH].
Qed.

Lemma appending_diffFields oid keyPath fromFields toFields :
  Forall (λ kv, ∀ from path, appending (diffToPatches from kv.2 path))
    toFields →
  ∀ oldKeys patches w keys ps w',
    diffFields oid keyPath fromFields toFields oldKeys patches w
      = (Normal (keys, ps), w') →
    ∃ added, ps = patches ++ added.
Proof.
  induction 1 as [|[key value] rest Hvalue _ IH];
    intros oldKeys patches w keys ps w'; simpl.
  - intros [= <- <- <-]. exists []. by rewrite app_nil_r.
  - destruct (isUndefined value && defaultUndefined options); [apply IH|].
    unfold bind.
    destruct (diffItems _ _ _ _ _ _ _ _) as [[ps1|e] w1] eqn:E1; [|done].
    intros E2. apply appending_diffItems in E1 as [a1 ->]; [|done].
    apply IH in E2 as [a2 ->]. exists (a1 ++ a2). by rewrite app_assoc.
Qed.

(** Whatever [diffToPatches] returns is the list it was given, with the
    operations it emitted appended. *)
Lemma appending_diffToPatches to :
  ∀ from keyPath, appending (diffToPatches from to keyPath).
Proof.
  induction to as [p|toOid toFields IH|toOid toItems IH]
    using Value_nested_ind; intros from keyPath patches w ps w'.
  - destruct from as [q|[o|] ff|[o|] fi]; simpl; unfold bind, getOid; simpl;
      try done; intros [= <- <-]; exists []; by rewrite app_nil_r.
  - destruct from as [q|[o|] ff|[o|] fi];
      try (simpl; unfold bind, getOid; simpl; done).
    rewrite diffToPatches_object. unfold bind.
    destruct (diffFields _ _ _ _ _ _ _) as [[[keys ps1]|e] w1] eqn:E1;
      [|done].
    apply appending_diffFields in E1 as [a1 ->]; [|done].
    destruct (negb (defaultUndefined options)).
    + intros E2. apply appending_removeKeys in E2 as [a2 ->].
      exists (a1 ++ a2). by rewrite app_assoc.
    + intros [= <- <-]. by eexists.
  - destruct from as [q|[o|] ff|[o|] fi];
      try (simpl; unfold bind, getOid; simpl; done).
    rewrite diffToPatches_array. unfold bind at 1.
    destruct (diffElements _ _ _ _ _ _ _) as [[ps1|e] w1] eqn:E1; [|done].
    apply appending_diffElements in E1 as [a1 ->]; [|done].
    destruct (bool_decide _).
    + unfold bind. rewrite deleteDropped_run, push_run. intros [= <- <-].
      rewrite <- !app_assoc. by eexists.
    + intros [= <- <-]. by eexists.
Qed.

(** C7: diffing an array against a shorter one.  After the operations of
    the positional diffs of the elements that [to] still has, the engine
    emits one [delete] for every dropped element of [from] that carries an
    OID, in order, and then a single [list-delete] at index [length to] with
    count [length from - length to]; nothing follows. *)
Theorem diff_array_shrink_deletes_tail
    oid fromItems toOid toItems keyPath patches w diffed w1 :
  length toItems < length fromItems →
  diffElements oid keyPath fromItems 0 toItems patches w
    = (Normal diffed, w1) →
  ∃ positional,
    diffed = patches ++ positional
    ∧ diffToPatches (VArray (Some oid) fromItems) (VArray toOid toItems)
        keyPath patches w =
        (Normal
           (patches ++ positional
            ++ stampedFrom getNow (now_calls w1)
                 ((λ o, (o, PDelete)) <$> droppedOids fromItems toItems)
            ++ [mkOperation oid
                  (getNow
                     (now_calls w1 + length (droppedOids fromItems toItems)))
                  (PListDelete (Z.of_nat (length toItems))
                     (Z.of_nat (length fromItems - length toItems)))]),
         ticked (S (length (droppedOids fromItems toItems))) w1).
Proof.
  intros Hlen Hdiffed.
  destruct (appending_diffElements oid keyPath fromItems toItems) with
    (i := 0) (patches := patches) (w := w) (ps := diffed) (w' := w1)
    as [positional ->]; [|done|].
  { apply Forall_forall. intros value _. apply appending_diffToPatches. }
  exists positional. split; [done|]. unfold droppedOids.
  set (dropped := carriedOids (drop (length toItems) fromItems)).
  rewrite diffToPatches_array.
  unfold bind at 1. rewrite Hdiffed.
  rewrite bool_decide_eq_true_2 by lia.
  unfold bind. rewrite deleteDropped_run, push_run, ticked_ticked.
  fold dropped. rewrite <- !app_assoc, Nat.add_1_r.
  by replace (Z.of_nat (length fromItems) - Z.of_nat (length toItems))%Z
    with (Z.of_nat (length fromItems - length toItems)) by lia.
Qed.


(** *** What a diff emits *)

Lemma emitting_ret P : emitting P (λ patches, ret patches).
Proof.
  intros patches w ps w' [= <- <-]. exists []. by rewrite app_nil_r.
Qed.

Lemma emitting_bind P (m k : list Operation → JS (list Operation)) :
  emitting P m → emitting P k → emitting P (λ patches, bind (m patches) k).
Proof.
  intros Hm Hk patches w ps w'. unfold bind.
  destruct (m patches w) as [[ps1|e] w1] eqn:E1; [|done]. intros E2.
  destruct (Hm _ _ _ _ E1) as (a1 & -> & H1).
  destruct (Hk _ _ _ _ E2) as (a2 & -> & H2).
  exists (a1 ++ a2). split; [by rewrite app_assoc|by apply Forall_app].
Qed.

Lemma emitting_push (P : OperationPatch → Prop) oid data :
  P data → emitting P (λ patches, push patches oid data).
Proof.
  intros Hdata patches w ps w'. rewrite push_run. intros [= <- <-].
  eexists. split; [done|]. by repeat constructor.
Qed.

Lemma emitted_stampedFrom (P : OperationPatch → Prop) start items :
  Forall (λ item, P item.2) items →
  Forall (λ op, P (op_data op)) (stampedFrom getNow start items).
Proof.
  intros H. revert start. induction H as [|[oid data] items Hd _ IH];
    intros start; simpl; constructor; auto.
Qed.

Lemma emitting_deleteDropped dropped :
  emitting emitted (deleteDropped dropped).
Proof.
  intros patches w ps w'. rewrite deleteDropped_run. intros [= <- <-].
  eexists. split; [done|]. apply emitted_stampedFrom.
  apply Forall_fmap, Forall_true. intros o. by split.
Qed.

Lemma emitting_removeKeys oid oldKeys :
  defaultUndefined options = false →
  emitting emitted (removeKeys oid oldKeys).
Proof.
  intros Hoff. induction oldKeys as [|key rest IH]; simpl;
    [apply emitting_ret|].
  apply (emitting_bind emitted
           (λ patches, push patches oid (PRemove (Key key)))
           (removeKeys oid rest)); [|apply IH].
  apply emitting_push. split; [done|]. by rewrite Hoff.
Qed.

Lemma emitted_initializations start entries :
  Forall (λ op, emitted (op_data op))
    (stampedFrom getNow start (initializations entries)).
Proof.
  apply emitted_stampedFrom. unfold initializations.
  apply Forall_fmap, Forall_true. intros entry. by split.
Qed.

(** [diffItems] emits what it may, if the recursive diff of its value
    does. *)
Lemma emitting_diffItems recurse oid keyPath key value oldValue :
  (∀ old keyPath', emitting emitted (recurse old value keyPath')) →
  emitting emitted (diffItems recurse oid keyPath key value oldValue).
Proof.
  intros Hrec patches w ps w'.
  destruct (isObject value) eqn:Hobj.
  - destruct (steady_resolveOid oid key value oldValue w)
      as ([valueOid stamped] & w1 & Eres & _).
    destruct (resolveOid_keeps_shape _ _ _ _ _ _ _ _ Eres)
      as (Hshape & _ & _).
    destruct (initialToPatches_run stamped valueOid patches w1)
      as (root & below & w2 & _ & Einit); [congruence|].
    unfold diffItems.
    destruct value as [p|o fs|o vs]; [done|..]; unfold bind at 1;
      rewrite Eres;
      (destruct (isUndefined oldValue
                 || otherOid valueOid (maybeGetOid oldValue));
       [|apply Hrec]);
      unfold bind at 1; rewrite Einit;
      unfold bind, now, createRef, newObjects, ret; simpl;
      (destruct (maybeGetOid oldValue); [rewrite push_run|]);
      intros [= <- <-]; rewrite <- ?app_assoc; eexists; (split; [done|]);
      rewrite ?Forall_app; split_and?;
      try apply (emitted_initializations _ ((valueOid, root) :: below));
      by repeat constructor.
  - unfold diffItems. destruct value as [p| |]; [|done..].
    destruct (differsFrom p oldValue); [|apply emitting_ret].
    apply emitting_push. by split.
Qed.

Lemma emitting_diffElements oid keyPath fromItems toItems :
  Forall (λ value, ∀ from path, emitting emitted (diffToPatches from value path))
    toItems →
  ∀ i, emitting emitted (diffElements oid keyPath fromItems i toItems).
Proof.
  induction 1 as [|value rest Hvalue _ IH]; intros i; simpl;
    [apply emitting_ret|].
  apply (emitting_bind emitted
           (diffItems diffToPatches oid keyPath (Index i) value
              (getItem fromItems i))
           (diffElements oid keyPath fromItems (S i) rest));
    [by apply emitting_diffItems|apply IH].
Qed.

Lemma emitting_diffFields oid keyPath fromFields toFields :
  Forall (λ kv, ∀ from path, emitting emitted (diffToPatches from kv.2 path))
    toFields →
  ∀ oldKeys patches w keys ps w',
    diffFields oid keyPath fromFields toFields oldKeys patches w
      = (Normal (keys, ps), w') →
    ∃ added, ps = patches ++ added
             ∧ Forall (λ op, emitted (op_data op)) added.
Proof.
  induction 1 as [|[key value] rest Hvalue _ IH];
    intros oldKeys patches w keys ps w'; simpl.
  - intros [= <- <- <-]. exists []. by rewrite app_nil_r.
  - destruct (isUndefined value && defaultUndefined options); [apply IH|].
    unfold bind.
    destruct (diffItems _ _ _ _ _ _ _ _) as [[ps1|e] w1] eqn:E1; [|done].
    intros E2. apply emitting_diffItems in E1 as (a1 & -> & H1); [|done].
    apply IH in E2 as (a2 & -> & H2). exists (a1 ++ a2).
    split; [by rewrite app_assoc|by apply Forall_app].
Qed.

(** X1: whatever [diffToPatches] returns is the list of patches it was
    given with operations appended, and these are [initialize], [set],
    [remove], [delete] and [list-delete] patches only: the diff never
    pushes, inserts, moves, adds to or removes from a list.  With
    [defaultUndefined], no [remove] is among them either. *)
Theorem diffToPatches_emits from to keyPath patches w ps w' :
  diffToPatches from to keyPath patches w = (Normal ps, w') →
  ∃ added,
    ps = patches ++ added
    ∧ Forall (λ op, diffPatch (op_data op) = true) added
    ∧ (defaultUndefined options = true →
       Forall (λ op, isRemove (op_data op) = false) added).
Proof.
  intros Hrun.
  assert (∀ to from keyPath, emitting emitted (diffToPatches from to keyPath))
    as Hemitting.
  { clear. intros to.
    induction to as [p|toOid toFields IH|toOid toItems IH]
      using Value_nested_ind; intros from keyPath patches w ps w'.
    - destruct from as [q|[o|] ff|[o|] fi]; simpl; unfold bind, getOid; simpl;
        try done; intros [= <- <-]; exists []; by rewrite app_nil_r.
    - destruct from as [q|[o|] ff|[o|] fi];
        try (simpl; unfold bind, getOid; simpl; done).
      rewrite diffToPatches_object. unfold bind.
      destruct (diffFields _ _ _ _ _ _ _) as [[[keys ps1]|e] w1] eqn:E1;
        [|done].
      apply emitting_diffFields in E1 as (a1 & -> & H1); [|done].
      destruct (defaultUndefined options) eqn:Hdefault; cbn [negb].
      + intros [= <- <-]. by eexists.
      + intros E2. apply emitting_removeKeys in E2 as (a2 & -> & H2);
          [|done].
        exists (a1 ++ a2). split; [by rewrite app_assoc|by apply Forall_app].
    - destruct from as [q|[o|] ff|[o|] fi];
        try (simpl; unfold bind, getOid; simpl; done).
      rewrite diffToPatches_array. unfold bind at 1.
      destruct (diffElements _ _ _ _ _ _ _) as [[ps1|e] w1] eqn:E1; [|done].
      apply emitting_diffElements in E1 as (a1 & -> & H1); [|done].
      destruct (bool_decide _).
      + intros E2.
        apply (emitting_bind emitted
                 (deleteDropped (drop (length toItems) fi))
                 (λ patches, push patches o
                    (PListDelete (Z.of_nat (length toItems))
                       (Z.of_nat (length fi) - Z.of_nat (length toItems)))))
          in E2 as (a2 & -> & H2).
        * exists (a1 ++ a2).
          split; [by rewrite app_assoc|by apply Forall_app].
        * apply emitting_deleteDropped.
        * apply emitting_push. by split.
      + intros [= <- <-]. by eexists. }
  destruct (Hemitting _ _ _ _ _ _ _ Hrun) as (added & -> & Hadded).
  exists added. split; [done|]. split.
  - eapply Forall_impl; [exact Hadded|]. by intros op [? ?].
  - intros Hdefault. eapply Forall_impl; [exact Hadded|].
    intros op [_ H]. by apply H.
Qed.

Lemma primStrictEq_refl p : p ≠ PNumber NaN → primStrictEq p p = true.
Proof.
  destruct p as [s|[z|]|b| |]; simpl; intros H; try done;
    by apply bool_decide_eq_true.
Qed.

Lemma getField_NoDup (fields : list (string * Value)) key value :
  NoDup fields.*1 → (key, value) ∈ fields → getField fields key = value.
Proof.
  unfold getField. induction fields as [|[k c] fields IH]; intros Hnodup Hin.
  - by apply elem_of_nil in Hin.
  - rewrite fmap_cons in Hnodup. apply NoDup_cons in Hnodup as [Hk Hnodup].
    cbn [list_find]. simpl. destruct (decide (k = key)) as [->|Hne].
    + apply elem_of_cons in Hin as [[= ->]|Hin]; [done|].
      destruct Hk. apply list_elem_of_fmap. by exists (key, value).
    + apply elem_of_cons in Hin as [[= -> ->]|Hin]; [done|].
      specialize (IH Hnodup Hin).
      by destruct (list_find _ fields) as [[? [? ?]]|].
Qed.

(** The diff of a sub-value against itself, given that its own diff
    emits nothing. *)
Lemma diffItems_same oid keyPath key value patches w :
  stampedThroughout value →
  (isObject value = true →
   ∀ path ps w0, diffToPatches value value path ps w0 = (Normal ps, w0)) →
  diffItems diffToPatches oid keyPath key value value patches w =
    (Normal patches, w).
Proof.
  intros Hvalue Hrec. unfold diffItems.
  assert (∀ o, maybeGetOid value = Some o →
               resolveOid oid key value value w = (Normal (o, value), w))
    as Hresolve.
  { intros o Ho. unfold resolveOid, ensureOid. rewrite Ho.
    destruct (negb (mergeUnknownObjects options)); [done|].
    by destruct (truthyOid (Some o)). }
  inversion Hvalue as [p Hp|o fields Hnodup Hfields|o items Hitems]; subst.
  - simpl. by rewrite primStrictEq_refl.
  - unfold bind at 1. rewrite (Hresolve o) by done. simpl.
    unfold otherOid. rewrite bool_decide_eq_true_2 by done. by apply Hrec.
  - unfold bind at 1. rewrite (Hresolve o) by done. simpl.
    unfold otherOid. rewrite bool_decide_eq_true_2 by done. by apply Hrec.
Qed.

Lemma diffElements_same oid keyPath (before items : list Value) patches w :
  Forall stampedThroughout items →
  Forall (λ value, isObject value = true → ∀ path ps w0,
            diffToPatches value value path ps w0 = (Normal ps, w0)) items →
  diffElements oid keyPath (before ++ items) (length before) items patches w
    = (Normal patches, w).
Proof.
  intros Hitems Hrec. revert before.
  induction Hitems as [|value rest Hvalue _ IH]; intros before; [done|].
  apply Forall_cons in Hrec as [Hrec Hrest].
  cbn [diffElements]. unfold bind, getItem.
  rewrite lookup_app_r, Nat.sub_diag by done. simpl.
  rewrite diffItems_same by done.
  specialize (IH Hrest (before ++ [value])).
  by rewrite length_app, Nat.add_1_r, <- app_assoc in IH.
Qed.

Lemma diffFields_same oid keyPath (fromFields fs : list (string * Value))
    oldKeys patches w :
  NoDup fromFields.*1 → fs ⊆ fromFields →
  Forall (λ kv, stampedThroughout kv.2) fs →
  Forall (λ kv, isObject kv.2 = true → ∀ path ps w0,
            diffToPatches kv.2 kv.2 path ps w0 = (Normal ps, w0)) fs →
  ∃ keys,
    diffFields oid keyPath fromFields fs oldKeys patches w
      = (Normal (keys, patches), w)
    ∧ (defaultUndefined options = false →
       keys = filter (λ k, k ∉ fs.*1) oldKeys).
Proof.
  intros Hnodup Hsub Hfs Hrec. revert oldKeys Hsub.
  induction Hfs as [|[key value] rest Hvalue _ IH]; intros oldKeys Hsub.
  - exists oldKeys. split; [done|]. intros _.
    induction oldKeys as [|k ks IHk]; [done|].
    rewrite filter_cons_True by apply not_elem_of_nil. by f_equal.
  - apply Forall_cons in Hrec as [Hrec Hrest]. cbn [diffFields].
    assert (rest ⊆ fromFields) as Hsub'
      by (intros kv ?; by apply Hsub, list_elem_of_further).
    destruct (isUndefined value && defaultUndefined options) eqn:Hskip.
    + destruct (IH Hrest oldKeys Hsub') as (keys & -> & Hkeys).
      exists keys. split; [done|]. intros Hoff.
      rewrite Hoff, andb_false_r in Hskip. done.
    + unfold bind.
      rewrite (getField_NoDup fromFields key value) by
        (done || apply Hsub, list_elem_of_here).
      rewrite diffItems_same by done.
      destruct (IH Hrest (filter (λ k, k ≠ key) oldKeys) Hsub')
        as (keys & -> & Hkeys).
      exists keys. split; [done|]. intros Hoff. rewrite (Hkeys Hoff).
      rewrite list_filter_filter. apply list_filter_iff.
      intros k. rewrite fmap_cons, not_elem_of_cons. simpl. tauto.
Qed.

(** X2: diffing a value against itself emits nothing: for an object or
    array in which every object and array carries its OID and nothing is
    [NaN], [diffToPatches(v, v)] hands the list of patches back as it got
    it, without a call of [getNow] or [createSubId]. *)
Theorem diffToPatches_same v keyPath patches w :
  isObject v = true →
  stampedThroughout v →
  diffToPatches v v keyPath patches w = (Normal patches, w).
Proof.
  intros Hobj Hv. revert keyPath patches w.
  induction v as [p|oid fields IH|oid items IH] using Value_nested_ind;
    intros keyPath patches w.
  - done.
  - inversion Hv as [|o fs Hnodup Hfields|]; subst.
    rewrite diffToPatches_object.
    destruct (diffFields_same o keyPath fields fields fields.*1 patches w)
      as (keys & Hrun & Hkeys); [done..| |].
    { apply Forall_forall. intros kv Hkv Hchild.
      apply (proj1 (Forall_forall _ _) IH kv Hkv); [done|].
      by apply (proj1 (Forall_forall _ _) Hfields kv). }
    unfold bind. rewrite Hrun.
    destruct (defaultUndefined options) eqn:Hdefault; [done|]. cbn [negb].
    rewrite (Hkeys eq_refl).
    assert (filter (λ k, k ∉ fields.*1) fields.*1 = []) as ->; [|done].
    assert (∀ l : list string, (∀ k, k ∈ l → k ∈ fields.*1) →
              filter (λ k, k ∉ fields.*1) l = []) as Hnone.
    { induction l as [|k l IHl]; intros Hl; [done|].
      rewrite filter_cons_False.
      - apply IHl. intros k' ?. by apply Hl, list_elem_of_further.
      - intros Hk. apply Hk, Hl, list_elem_of_here. }
    by apply Hnone.
  - inversion Hv as [| |o vs Hitems]; subst.
    rewrite diffToPatches_array. unfold bind at 1.
    pose proof (diffElements_same o keyPath [] items patches w Hitems) as Hrun.
    simpl in Hrun. rewrite Hrun.
    + rewrite bool_decide_eq_false_2 by lia. done.
    + apply Forall_forall. intros value Hvalue Hchild.
      apply (proj1 (Forall_forall _ _) IH value Hvalue); [done|].
      by apply (proj1 (Forall_forall _ _) Hitems value).
Qed.

End DiffEngine.

(** * Properties *)

(** ** Properties of the applier *)

Section Applier.

Implicit Types (base : Base) (patch : OperationPatch) (w : World).
Implicit Types (xs : list Slot) (v value : PropertyValue).

Lemma applyPatch_absent base patch w :
  absent base = true → isInitialize patch = false →
  applyPatch base patch w = (Normal (inPlace base), w).
Proof. by destruct base, patch. Qed.

Lemma applyPatch_delete base w :
  applyPatch base PDelete w =
    (Normal (if absent base then inPlace base
             else mkApplied Undefined base), w).
Proof. by destruct base. Qed.

(** C5: a [delete] patch returns an absent value whatever the base, and a
    patch other than [initialize] applied to an absent base returns that base
    as it is: a deleted sub-object stays deleted until it is initialized
    again. *)
Theorem delete_then_absent_until_initialize base patch w :
  (∃ r, applyPatch base PDelete w = (Normal r, w)
        ∧ absent (returned r) = true ∧ base_after r = base)
  ∧ (absent base = true → isInitialize patch = false →
     applyPatch base patch w = (Normal (inPlace base), w)).
Proof.
  split; [|apply applyPatch_absent].
  rewrite applyPatch_delete. destruct base; by eexists.
Qed.

Lemma listCheck_object oid props w :
  listCheck (NObject oid props) w =
    (Normal false, printed (CannotApplyListPatch (NObject oid props)) w).
Proof. done. Qed.

Lemma listCheck_array oid xs w :
  listCheck (NArray oid xs) w = (Normal true, w).
Proof. done. Qed.

(** C6: a list-targeted patch applied to a base that is not an array, that
    is to an object, is skipped: [listCheck] logs one error, nothing is
    thrown, and the base comes back unchanged. *)
Theorem list_patch_on_non_array_is_skipped oid props patch w :
  listTargeted patch = true →
  applyPatch (Present (NObject oid props)) patch w =
    (Normal (inPlace (Present (NObject oid props))),
     printed (CannotApplyListPatch (NObject oid props)) w).
Proof. intros Hlist. destruct patch; try discriminate Hlist; reflexivity. Qed.

(** C10: on an array base, a [list-insert] whose [value] is one of the falsy
    scalars 0, false, the empty string or null and which has no [values] is
    rejected with the malformed list-insert error; the element is not
    inserted. *)
Theorem list_insert_falsy_value_throws oid xs index value w :
  value ∈ falsyScalars →
  applyPatch (Present (NArray oid xs)) (PListInsert index value None) w =
    (Throw (ListInsertNeedsValue (PListInsert index value None)), w).
Proof.
  intros Hin. assert (truthy value = false) as Hf.
  { unfold falsyScalars in Hin. rewrite !elem_of_cons, elem_of_nil in Hin.
    by destruct Hin as [-> | [-> | [-> | [-> | []]]]]. }
  unfold applyPatch. unfold bind. rewrite listCheck_array. by rewrite Hf.
Qed.

End Applier.

Lemma delete_then_absent_until_initialize_witness :
  absent Null = true
  ∧ isInitialize (PSet (Key "title") (Prim (PString "hi"))) = false
  ∧ applyPatch Null (PSet (Key "title") (Prim (PString "hi"))) (freshWorld 0)
    = (Normal (inPlace Null), freshWorld 0).
Proof.
  split; [reflexivity|]. split; [reflexivity|].
  apply (proj2 (delete_then_absent_until_initialize Null
                  (PSet (Key "title") (Prim (PString "hi"))) (freshWorld 0)));
    reflexivity.
Defined.

Lemma list_patch_on_non_array_is_skipped_witness :
  listTargeted (PListPush (Prim PNull)) = true
  ∧ applyPatch (Present (NObject None ∅)) (PListPush (Prim PNull))
      (freshWorld 0) =
      (Normal (inPlace (Present (NObject None ∅))),
       printed (CannotApplyListPatch (NObject None ∅)) (freshWorld 0)).
Proof.
  split; [reflexivity|].
  apply (list_patch_on_non_array_is_skipped None ∅ (PListPush (Prim PNull))
           (freshWorld 0)).
  reflexivity.
Defined.

Lemma list_insert_falsy_value_throws_witness :
  Prim (PNumber (Int 0)) ∈ falsyScalars
  ∧ applyPatch (Present (NArray None [Some (Prim (PNumber (Int 7)))]))
      (PListInsert 0 (Prim (PNumber (Int 0))) None) (freshWorld 0) =
      (Throw (ListInsertNeedsValue
                (PListInsert 0 (Prim (PNumber (Int 0))) None)),
       freshWorld 0).
Proof.
  assert (Prim (PNumber (Int 0)) ∈ falsyScalars) as Hin
    by apply list_elem_of_here.
  split; [exact Hin|].
  exact (list_insert_falsy_value_throws None
           [Some (Prim (PNumber (Int 7)))] 0 (Prim (PNumber (Int 0)))
           (freshWorld 0) Hin).
Defined.

(** *** [list-move-by-ref] *)

Section MoveByRef.

Implicit Types (xs : list Slot) (value : ObjectRef) (w : World).

Lemma firstIndexWhere_none {A} (p : A → bool) (l : list A) :
  Forall (λ x, p x = false) l → firstIndexWhere p l = None.
Proof. induction 1 as [|x l Hx _ IH]; simpl; [done|]. by rewrite Hx, IH. Qed.

Lemma indexOf_other_object xs value :
  otherObjects value xs → indexOf xs (Ref value) = (-1)%Z.
Proof.
  intros H. unfold indexOf. rewrite firstIndexWhere_none; [done|].
  eapply Forall_impl; [exact H|]. intros [[p|r]|] Hs; simpl; try done.
  apply bool_decide_eq_false. by apply Hs.
Qed.

Lemma spliceStart_last n : spliceStart (S n) (-1) = n.
Proof. unfold spliceStart. change (-1 <? 0)%Z with true. cbv iota. lia. Qed.

Lemma spliceStart_inside len i : i ≤ len → spliceStart len (Z.of_nat i) = i.
Proof.
  intros. unfold spliceStart. destruct (Z.ltb_spec (Z.of_nat i) 0); lia.
Qed.

Lemma spliceCount_one len s : s < len → spliceCount len s 1 = 1.
Proof. intros. unfold spliceCount. lia. Qed.

Lemma splice_last {A} (l : list A) (x : A) :
  splice (l ++ [x]) (-1) 1 [] = ([x], l).
Proof.
  unfold splice. rewrite length_app. simpl length.
  replace (length l + 1) with (S (length l)) by lia.
  rewrite spliceStart_last, spliceCount_one by lia.
  rewrite drop_app_length, take_app_length. simpl.
  rewrite drop_ge by (rewrite length_app; simpl; lia). by rewrite app_nil_r.
Qed.

(** Taking out the element at a position inside the array. *)
Lemma splice_one {A} (l : list A) (i : nat) :
  i < length l →
  splice l (Z.of_nat i) 1 [] = (take 1 (drop i l), delete i l).
Proof.
  intros Hi. unfold splice.
  rewrite spliceStart_inside, spliceCount_one by lia.
  rewrite delete_take_drop. simpl. by rewrite Nat.add_1_r.
Qed.

(** X3: when the patch carries a ref object of its own, as every patch read back
    from storage or from the network does, [indexOf] answers [-1] and
    [splice(-1, 1)] takes the last element: that one is moved, whatever its
    id. *)
Lemma list_move_by_ref_moves_the_last oid xs x value index w :
  otherObjects value (xs ++ [x]) →
  applyPatch (Present (NArray oid (xs ++ [x]))) (PListMoveByRef value index) w =
    (Normal (inPlace (Present (NArray oid
               (splice xs index 0 [Some (readSlot x)]).2))), w).
Proof.
  intros H. unfold applyPatch, bind. rewrite listCheck_array. cbn [elements].
  by rewrite (indexOf_other_object _ _ H), splice_last.
Qed.

End MoveByRef.

(** C3: the code looks the patch's ref up with [indexOf], that is by object
    identity.  Base [[b, a, c]] and a patch that moves the ref with the id of
    [a] (held in another object) to index 0: nothing is found, so the last
    element [c] is moved to the front, where locating by id gives
    [[a, b, c]]. *)
Theorem list_move_by_ref_compares_objects :
  applyPatch (Present (NArray None exampleRefs))
    (PListMoveByRef exampleMoved 0) (freshWorld 8) =
    (Normal (inPlace (Present (NArray None
       [refTo 3 "todo/1:r#c"; refTo 1 "todo/1:r#b"; refTo 2 "todo/1:r#a"]))),
     freshWorld 8)
  ∧ moveByRefId exampleRefs exampleMoved 0 =
      [refTo 2 "todo/1:r#a"; refTo 1 "todo/1:r#b"; refTo 3 "todo/1:r#c"].
Proof. split; reflexivity. Qed.

(** *** [list-remove] *)

Section ListRemove.

Implicit Types (xs : list Slot) (value : PropertyValue) (r : ObjectRef).

Lemma firstIndexWhere_lt {A} (p : A → bool) (l : list A) i :
  firstIndexWhere p l = Some i → i < length l.
Proof.
  revert i. induction l as [|x l IH]; intros i; simpl; [done|].
  destruct (p x); [intros [= <-]; lia|].
  destruct (firstIndexWhere p l) as [j|]; [|done].
  intros [= <-]. specialize (IH j eq_refl). lia.
Qed.

Lemma lastIndexWhere_lt {A} (p : A → bool) (l : list A) i :
  lastIndexWhere p l = Some i → i < length l.
Proof.
  revert i. induction l as [|x l IH]; intros i; simpl; [done|].
  destruct (lastIndexWhere p l) as [j|].
  - intros [= <-]. specialize (IH j eq_refl). lia.
  - destruct (p x); [intros [= <-]; lia|done].
Qed.

Lemma lastIndexWhere_snoc {A} (p : A → bool) (l : list A) (x : A) :
  lastIndexWhere p (l ++ [x]) =
    if p x then Some (length l) else lastIndexWhere p l.
Proof.
  induction l as [|y l IH]; simpl; [by destruct (p x)|].
  rewrite IH. by destruct (p x), (lastIndexWhere p l), (p y).
Qed.

Lemma hasIdOf_refWithId r (s : Slot) :
  readSlot s ≠ Prim PNull ∧ readSlot s ≠ Prim PUndefined →
  hasIdOf r (readSlot s) = Normal (refWithId r s).
Proof. intros [? ?]. by destruct s as [[[]|]|]. Qed.

Lemma findIndexFrom_refWithId r xs i :
  withoutNullish xs →
  findIndexFrom i (hasIdOf r) xs =
    Normal (toIndex ((λ j, i + j) <$> firstIndexWhere (refWithId r) xs)).
Proof.
  intros H. revert i. induction H as [|s xs Hs _ IH]; intros i; simpl; [done|].
  rewrite (hasIdOf_refWithId _ _ Hs). destruct (refWithId r s); simpl.
  - by rewrite Nat.add_0_r.
  - rewrite IH. destruct (firstIndexWhere (refWithId r) xs); simpl; [|done].
    f_equal. lia.
Qed.

Lemma findIndex_refWithId r xs :
  withoutNullish xs →
  findIndex xs (hasIdOf r) =
    Normal (toIndex (firstIndexWhere (refWithId r) xs)).
Proof.
  intros H. unfold findIndex. rewrite findIndexFrom_refWithId by done.
  by destruct (firstIndexWhere (refWithId r) xs).
Qed.

Lemma findLastIndexRev_refWithId r (reversed : list Slot) :
  withoutNullish reversed →
  findLastIndexRev (hasIdOf r) reversed =
    Normal (toIndex (lastIndexWhere (refWithId r) (rev reversed))).
Proof.
  induction 1 as [|s ys Hs _ IH]; simpl; [done|].
  rewrite (hasIdOf_refWithId _ _ Hs), lastIndexWhere_snoc, length_rev.
  by destruct (refWithId r s).
Qed.

Lemma findLastIndex_refWithId r xs :
  withoutNullish xs →
  findLastIndex xs (hasIdOf r) =
    Normal (toIndex (lastIndexWhere (refWithId r) xs)).
Proof.
  intros H. unfold findLastIndex.
  rewrite findLastIndexRev_refWithId, rev_involutive; [done|].
  by apply Forall_rev.
Qed.

(** One round of the loop finds the position the specification asks for. *)
Lemma removalIndex_matches only value xs :
  (isObjectRef value = true → withoutNullish xs) →
  removalIndex only value xs =
    Normal (toIndex (match only with
                     | Some last => lastIndexWhere (matchesValue value) xs
                     | _ => firstIndexWhere (matchesValue value) xs
                     end)).
Proof.
  intros H. unfold removalIndex.
  destruct value as [p|r]; simpl in H.
  - by destruct only as [[]|].
  - destruct only as [[]|]; simpl;
      by rewrite ?findIndex_refWithId, ?findLastIndex_refWithId by auto.
Qed.

Lemma toIndex_found i : toIndex (Some i) ≠ (-1)%Z.
Proof. simpl. lia. Qed.

Lemma firstIndexWhere_filter {A} (p : A → bool) (l : list A) :
  match firstIndexWhere p l with
  | Some i => filter (λ x, p x = false) (delete i l)
              = filter (λ x, p x = false) l
  | None => filter (λ x, p x = false) l = l
  end.
Proof.
  induction l as [|x l IH]; simpl; [done|].
  destruct (p x) eqn:Hx.
  - simpl. rewrite filter_cons_False; [done|]. by rewrite Hx.
  - destruct (firstIndexWhere p l) as [i|]; simpl.
    + by rewrite !filter_cons_True, IH.
    + by rewrite filter_cons_True, IH.
Qed.

Lemma withoutNullish_delete xs i :
  withoutNullish xs → withoutNullish (delete i xs).
Proof.
  unfold withoutNullish. intros H. revert i.
  induction H as [|s xs Hs H IH]; intros [|i]; simpl; auto.
Qed.

(** The loop without [only]: as long as rounds are left for every element,
    it ends with the matching elements filtered out. *)
Lemma listRemoveLoop_all rounds value xs :
  length xs < rounds →
  (isObjectRef value = true → withoutNullish xs) →
  listRemoveLoop rounds None value xs =
    Normal (filter (λ s, matchesValue value s = false) xs).
Proof.
  revert xs. induction rounds as [|rounds IH]; intros xs Hlen Hok; [lia|].
  cbn [listRemoveLoop]. rewrite removalIndex_matches by done.
  pose proof (firstIndexWhere_filter (matchesValue value) xs) as Hf.
  destruct (firstIndexWhere (matchesValue value) xs) as [i|] eqn:Hi.
  - pose proof (firstIndexWhere_lt _ _ _ Hi) as Hlt.
    rewrite (bool_decide_eq_true_2 (toIndex (Some i) ≠ (-1)%Z))
      by apply toIndex_found.
    rewrite (bool_decide_eq_false_2 (is_Some (@None Only)))
      by (by intros [? ?]).
    cbn [negb andb toIndex]. rewrite splice_one by done. simpl.
    rewrite IH, Hf; [done| |].
    + rewrite length_delete by (by apply lookup_lt_is_Some_2). lia.
    + intros Hr. by apply withoutNullish_delete, Hok.
  - simpl. by rewrite Hf.
Qed.

Lemma findIndexFrom_range p xs i idx :
  findIndexFrom i p xs = Normal idx →
  idx = (-1)%Z ∨ (Z.of_nat i ≤ idx < Z.of_nat (i + length xs))%Z.
Proof.
  revert i. induction xs as [|s xs IH]; intros i; simpl.
  - intros [= <-]. by left.
  - destruct (p (readSlot s)) as [[|]|e]; [| |done].
    + intros [= <-]. right. lia.
    + intros H. apply IH in H as [->|H]; [by left|right; lia].
Qed.

Lemma findLastIndexRev_range p (reversed : list Slot) idx :
  findLastIndexRev p reversed = Normal idx →
  idx = (-1)%Z ∨ (0 ≤ idx < Z.of_nat (length reversed))%Z.
Proof.
  induction reversed as [|s ys IH]; simpl.
  - intros [= <-]. by left.
  - destruct (p (readSlot s)) as [[|]|e]; [| |done].
    + intros [= <-]. right. lia.
    + intros H. apply IH in H as [->|H]; [by left|right; lia].
Qed.

(** The position a round finds is [-1] or a position of the array. *)
Lemma removalIndex_range only value xs idx :
  removalIndex only value xs = Normal idx →
  idx = (-1)%Z ∨ (0 ≤ idx < Z.of_nat (length xs))%Z.
Proof.
  assert (∀ found : option nat, (∀ i, found = Some i → i < length xs) →
            toIndex found = (-1)%Z
            ∨ (0 ≤ toIndex found < Z.of_nat (length xs))%Z) as Hfound.
  { intros [i|] Hlt; [right|by left]. specialize (Hlt i eq_refl).
    simpl. lia. }
  unfold removalIndex, findIndex, findLastIndex, indexOf, lastIndexOf.
  destruct only as [[]|], value as [p|r];
    try (intros [= <-]; apply Hfound;
         (apply firstIndexWhere_lt || apply lastIndexWhere_lt)).
  - intros H. apply findIndexFrom_range in H. simpl in H. lia.
  - intros H. apply findLastIndexRev_range in H. rewrite length_rev in H.
    done.
  - intros H. apply findIndexFrom_range in H. simpl in H. lia.
Qed.

(** The loop never runs out of rounds: any number of rounds above the length
    of the array gives the same result, whether the loop returns or
    throws. *)
Lemma listRemoveLoop_enough rounds1 rounds2 only value xs :
  length xs < rounds1 → length xs < rounds2 →
  listRemoveLoop rounds1 only value xs = listRemoveLoop rounds2 only value xs.
Proof.
  revert rounds2 xs.
  induction rounds1 as [|rounds1 IH]; intros [|rounds2] xs H1 H2; try lia.
  cbn [listRemoveLoop].
  destruct (removalIndex only value xs) as [idx|e] eqn:E; [|done].
  apply removalIndex_range in E as [->|Hidx].
  - rewrite (bool_decide_eq_false_2 ((-1)%Z ≠ (-1)%Z)) by (intros H; done).
    by rewrite andb_false_r.
  - rewrite (bool_decide_eq_true_2 (idx ≠ (-1)%Z)) by lia.
    destruct (negb (bool_decide (is_Some only))); [|done].
    cbn [andb]. replace idx with (Z.of_nat (Z.to_nat idx)) by lia.
    rewrite splice_one by lia. cbn [snd]. apply IH;
      rewrite length_delete by (apply lookup_lt_is_Some_2; lia); lia.
Qed.

Lemma listRemove_removeMatching only value xs :
  (isObjectRef value = true → withoutNullish xs) →
  listRemove only value xs = Normal (removeMatching only value xs).
Proof.
  intros Hok. destruct only as [o|].
  - unfold listRemove. cbn [listRemoveLoop].
    rewrite removalIndex_matches by done.
    assert (∀ found : option nat,
      (∀ i, found = Some i → i < length xs) →
      (if bool_decide (toIndex found ≠ (-1)%Z)
       then (splice xs (toIndex found) 1 []).2 else xs) = removeAt found xs)
      as Hround.
    { intros [i|] Hlt; cbn [toIndex removeAt]; [|done].
      rewrite bool_decide_eq_true_2 by lia.
      by rewrite splice_one by auto. }
    rewrite (bool_decide_eq_true_2 (is_Some (Some o))) by done.
    cbn [negb andb].
    destruct o; simpl; f_equal; apply Hround.
    + apply firstIndexWhere_lt.
    + apply lastIndexWhere_lt.
  - unfold listRemove. by rewrite listRemoveLoop_all by (done || lia).
Qed.

(** X4: on an array whose elements are neither null nor undefined, or for a value
    that is not a ref, [list-remove] does what the specification says. *)
Lemma list_remove_removes_matching oid xs value only w :
  (isObjectRef value = true → withoutNullish xs) →
  applyPatch (Present (NArray oid xs)) (PListRemove value only) w =
    (Normal (inPlace (Present (NArray oid (removeMatching only value xs)))), w).
Proof.
  intros Hok. unfold applyPatch, bind, lift. rewrite listCheck_array.
  cbn [elements]. by rewrite listRemove_removeMatching.
Qed.

End ListRemove.

(** C9: to match a ref, the loop reads [item.id] off every element it
    visits, and that read throws on null and undefined.  Removing the ref
    with id [todo/1:r#a] from [[null, a]] ends in a TypeError, where the
    specification has the ref removed and [[null]] left. *)
Theorem list_remove_ref_throws_on_null_element :
  applyPatch (Present (NArray None exampleWithNull))
    (PListRemove (Ref exampleMoved) None) (freshWorld 8) =
    (Throw TypeError, freshWorld 8)
  ∧ removeMatching None (Ref exampleMoved) exampleWithNull =
      [Some (Prim PNull)].
Proof. split; reflexivity. Qed.

(** *** [applyOperations] *)

Section ApplyOperations.

Implicit Types (base cur : Base) (operations : list Operation) (w : World).

Lemma applyPatch_returns_base base patch w r w' :
  returnsBase patch = true →
  applyPatch base patch w = (Normal r, w') →
  returned r = base_after r.
Proof.
  intros Hp. unfold applyPatch, bind, ret, throw, lift.
  destruct base as [| |o], patch; try discriminate Hp;
    repeat case_match; intros; by simplify_eq.
Qed.

(** As long as no patch is an [initialize] or a [delete], handing [base] to
    every call is harmless: each call changes that very object and returns
    it, so the next call does see the patches before it. *)
Lemma applyOperations_fold_when_in_place base operations w :
  Forall (λ op, returnsBase (op_data op) = true) operations →
  applyOperations base operations w = foldPatches base operations w.
Proof.
  unfold applyOperations. intros H. revert base w.
  induction H as [|op ops Hop _ IH]; intros base w; simpl; [done|].
  unfold bind. destruct (applyPatch base (op_data op) w) as [[r|e] w'] eqn:E;
    [|done].
  rewrite <- (applyPatch_returns_base _ _ _ _ _ Hop E). apply IH.
Qed.

(** The example of the specification: [set] then [remove] of the same key
    leaves the key absent. *)
Lemma applyOperations_set_then_remove oid props k v o1 t1 o2 t2 w :
  applyOperations (Present (NObject oid props))
    [mkOperation o1 t1 (PSet (Key k) v); mkOperation o2 t2 (PRemove (Key k))]
    w = (Normal (Present (NObject oid (delete k props))), w).
Proof.
  unfold applyOperations. simpl. unfold bind, ret. simpl.
  by rewrite delete_insert_eq.
Qed.

End ApplyOperations.

(** C1: [applyOperations] passes [base], not [cur], to every [applyPatch].
    After a [delete], which returns [undefined] and leaves the object [base]
    alone, a later [set] is applied to that object and brings it back:
    [delete; set b := 2] on [{a: 1}] yields [{a: 1, b: 2}], where the fold of
    [applyPatch] yields [undefined]. *)
Theorem applyOperations_passes_base_not_cur :
  applyOperations exampleDocument exampleDeleteThenSet (freshWorld 0) =
    (Normal (Present (NObject None
       (<["b" := Prim (PNumber (Int 2))]> {["a" := Prim (PNumber (Int 1))]}))),
     freshWorld 0)
  ∧ foldPatches exampleDocument exampleDeleteThenSet (freshWorld 0) =
      (Normal Undefined, freshWorld 0).
Proof. split; reflexivity. Qed.

(** ** Properties of the metadata store *)

Section UpdateSchema.

Import Metadata.

(** When [updateSchema] throws: only with the override present and equal to
    the stored version. *)
Lemma updateSchema_throws_iff db new overrideConflict w :
  (∃ w', updateSchema db new overrideConflict w =
           (Throw SchemaChangedWithoutVersionChange, w'))
  ↔ ∃ stored, schema db = Some stored
              ∧ overrideConflict = Some (version stored)
              ∧ version stored = version new
              ∧ JSON_stringify stored ≠ JSON_stringify new.
Proof.
  unfold updateSchema, bind, ret, throw, console_error.
  destruct (schema db) as [stored|]; simpl.
  - destruct (bool_decide (overrideConflict = Some (version stored))) eqn:E1,
      (bool_decide (version stored = version new)) eqn:E2,
      (bool_decide (JSON_stringify stored ≠ JSON_stringify new)) eqn:E3;
      simpl; split;
      try (intros [w' [=]]); try (intros (s & [= <-] & H1 & H2 & H3));
      try (apply bool_decide_eq_false in E1; done);
      try (apply bool_decide_eq_false in E2; done);
      try (apply bool_decide_eq_false in E3; done).
    + apply bool_decide_eq_true in E1, E2, E3. by exists stored.
    + by eexists.
  - split; [intros [w' [=]]|intros (s & [=] & _)].
Qed.

End UpdateSchema.

(** C2: the test in [updateSchema] asks for [overrideConflict] to be EQUAL to
    the stored version before it reports a mismatch.  With schema
    [{version: 1, A}] stored, [updateSchema({version: 1, B})] without an
    override stores the new schema and raises nothing, although this is the
    drift the specification (and the comment above the test) rejects; with
    the override [1] the same call throws. *)
Theorem updateSchema_override_test_is_inverted :
  Metadata.updateSchema exampleSchemaDb (mkSchema 1 "B") None (freshWorld 0) =
    (Normal (mkDb ∅ ∅ (Some (mkSchema 1 "B"))), freshWorld 0)
  ∧ schemaDrift (schema exampleSchemaDb) (mkSchema 1 "B") None = true
  ∧ Metadata.updateSchema exampleSchemaDb (mkSchema 1 "B") (Some 1%Z)
      (freshWorld 0) =
      (Throw SchemaChangedWithoutVersionChange,
       printed (SchemaMismatchForVersion 1) (freshWorld 0))
  ∧ schemaDrift (schema exampleSchemaDb) (mkSchema 1 "B") (Some 1%Z) = false.
Proof. repeat split; reflexivity. Qed.

Section Rebase.

Import Metadata.

Implicit Types (store : gmap OperationKey (OperationPatch * bool)).
Implicit Types (rows : list OperationRow) (row : OperationRow).
Implicit Types (baseline : option DocumentBaseline) (w : World).


(** The scan yields exactly the rows of the entity up to the bound, ... *)
Lemma elem_of_operationsForEntity store oid to row :
  row ∈ operationsForEntity store oid to
  ↔ store !! row.1 = Some row.2 ∧ inScan oid to row.
Proof.
  unfold operationsForEntity. rewrite merge_sort_Permutation.
  rewrite list_elem_of_filter. destruct row as [k v].
  rewrite elem_of_map_to_list. simpl. tauto.
Qed.


Lemma lookup_deleteRows store rows k :
  deleteRows store rows !! k =
    if decide (k ∈ rows.*1) then None else store !! k.
Proof.
  unfold deleteRows. revert store.
  induction rows as [|row rows IH]; intros store.
  - rewrite decide_False; [done|]. apply not_elem_of_nil.
  - cbn [foldl]. rewrite fmap_cons, IH.
    destruct (decide (k ∈ rows.*1)) as [Hin|Hnot].
    + rewrite decide_True; [done|]. by apply list_elem_of_further.
    + destruct (decide (k = row.1)) as [->|Hne].
      * rewrite decide_True by apply list_elem_of_here.
        apply lookup_delete_eq.
      * rewrite decide_False by (rewrite elem_of_cons; tauto).
        by apply lookup_delete_ne.
Qed.

(** The callback loop: the patches newer than the baseline are folded, in
    the order of the rows, and every row is deleted. *)
Lemma rebaseRows_folds baseline rows current store w current' store' w' :
  rebaseRows baseline rows current store w = (Normal (current', store'), w') →
  foldPatches current
    (row_operation <$> filter (notYetFolded baseline) rows) w
    = (Normal current', w')
  ∧ store' = deleteRows store rows.
Proof.
  revert current store w.
  induction rows as [|row rows IH]; intros current store w; simpl.
  - by intros [= <- <- <-].
  - unfold bind at 1. destruct (decide (notYetFolded baseline row)) as [H|H].
    + rewrite filter_cons_True, fmap_cons by done. cbn [foldPatches].
      change (op_data (row_operation row)) with (row_data row).
      unfold bind, ret.
      destruct (applyPatch current (row_data row) w) as [[r|e] w1]; [|done].
      apply IH.
    + rewrite filter_cons_False by done. apply IH.
Qed.


End Rebase.


(** ** Instances of the diff theorems *)

Lemma diff_array_shrink_deletes_tail_witness :
  length [number 1; number 2] < length [number 1; number 2; number 3]
  ∧ diffElements exampleNow exampleSubId exampleSubOid exampleOptions
      "todo/1:r#tags" [] [number 1; number 2; number 3] 0
      [number 1; number 2] [] (freshWorld 0) = (Normal [], freshWorld 0)
  ∧ diffToPatches exampleNow exampleSubId exampleSubOid exampleOptions
      (VArray (Some "todo/1:r#tags") [number 1; number 2; number 3])
      (VArray None [number 1; number 2]) [] [] (freshWorld 0) =
      (Normal [mkOperation "todo/1:r#tags" "0" (PListDelete 2 1)],
       ticked 1 (freshWorld 0)).
Proof.
  assert (length [number 1; number 2]
          < length [number 1; number 2; number 3]) as Hlen by (simpl; lia).
  assert (diffElements exampleNow exampleSubId exampleSubOid exampleOptions
            "todo/1:r#tags" [] [number 1; number 2; number 3] 0
            [number 1; number 2] [] (freshWorld 0) = (Normal [], freshWorld 0))
    as Hdiffed by reflexivity.
  split; [exact Hlen|]. split; [exact Hdiffed|].
  destruct (diff_array_shrink_deletes_tail exampleNow exampleSubId
              exampleSubOid exampleOptions "todo/1:r#tags"
              [number 1; number 2; number 3] None [number 1; number 2] [] []
              (freshWorld 0) [] (freshWorld 0) Hlen Hdiffed)
    as (positional & Hpositional & Hrun).
  simpl in Hpositional. subst positional. exact Hrun.
Defined.


(** The scenarios of the specification, run. *)
Example nested_replace_by_reassignment :
  diffToPatches exampleNow exampleSubId exampleSubOid exampleOptions
    (VObject (Some "todo/a:x")
       [("id", VPrim (PString "a")); ("sub", exampleOldSub)])
    (VObject None [("id", VPrim (PString "a")); ("sub", exampleNewSub)])
    [] [] (freshWorld 0) =
    (Normal
       [mkOperation "todo/a:x#s0" "0"
          (PInitialize (NObject None {["v" := Prim (PNumber (Int 2))]}));
        mkOperation "todo/a:x" "1"
          (PSet (Key "sub") (Ref (mkRef 0 "todo/a:x#s0")));
        mkOperation "todo/a:x#sub" "2" PDelete],
     mkWorld 1 [] 3 1).
Proof. reflexivity. Qed.

Example nested_replace_by_identity :
  diffToPatches exampleNow exampleSubId exampleSubOid (mkOptions true false)
    (VObject (Some "todo/a:x")
       [("id", VPrim (PString "a")); ("sub", exampleOldSub)])
    (VObject None [("id", VPrim (PString "a")); ("sub", exampleNewSub)])
    [] [] (freshWorld 0) =
    (Normal
       [mkOperation "todo/a:x#sub" "0"
          (PSet (Key "v") (Prim (PNumber (Int 2))))],
     mkWorld 0 [] 1 0).
Proof. reflexivity. Qed.

(** ** More properties of the applier *)

Section ApplierMore.

Implicit Types (base : Base) (patch : OperationPatch) (w : World).
Implicit Types (xs ys : list Slot) (v value : PropertyValue).







(** X6: a patch that ends in [return base] leaves an object an object and an
    array an array, with the OID it was stamped with: only [initialize] and
    [delete] change what a sub-object is. *)
Theorem applyPatch_keeps_kind_and_oid o patch w r w' :
  returnsBase patch = true →
  applyPatch (Present o) patch w = (Normal r, w') →
  ∃ o', returned r = Present o' ∧ base_after r = Present o'
        ∧ isArray o' = isArray o ∧ oidOf o' = oidOf o.
Proof.
  intros Hp. unfold applyPatch, bind, ret, throw, lift.
  destruct o as [oid props|oid xs], patch; try discriminate Hp;
    rewrite ?listCheck_object, ?listCheck_array; cbn [elements withElements];
    repeat case_match; intros ?; simplify_eq;
    eexists; split_and!; try reflexivity;
    match goal with n : PropertyName |- _ => by destruct n end.
Qed.



Lemma spliceCount_zero len s : spliceCount len s 0 = 0.
Proof. unfold spliceCount. lia. Qed.

Lemma splice_insert {A} (l new : list A) (start : Z) :
  splice l start 0 new =
    ([], take (spliceStart (length l) start) l ++ new
         ++ drop (spliceStart (length l) start) l).
Proof.
  unfold splice. rewrite spliceCount_zero, Nat.add_0_r. by rewrite take_0.
Qed.

(** X8: a [list-insert] at a position of the array (its end included),
    followed by a [list-delete] of as many elements at the same position,
    gives the array back. *)
Theorem list_insert_then_delete oid xs index value values w :
  (0 ≤ index ≤ Z.of_nat (length xs))%Z →
  truthy value = true ∨ is_Some values →
  ∃ ys,
    applyPatch (Present (NArray oid xs)) (PListInsert index value values) w =
      (Normal (inPlace (Present (NArray oid ys))), w)
    ∧ applyPatch (Present (NArray oid ys))
        (PListDelete index (insertedCount value values)) w =
        (Normal (inPlace (Present (NArray oid xs))), w).
Proof.
  intros Hindex Hvalue.
  set (new := if truthy value then [Some value]
              else Some <$> default [] values).
  assert (insertedCount value values = Z.of_nat (length new)) as Hcount.
  { unfold insertedCount, new. destruct (truthy value); [done|].
    by rewrite length_fmap. }
  assert (applyPatch (Present (NArray oid xs))
            (PListInsert index value values) w =
          (Normal (inPlace (Present
                     (NArray oid (splice xs index 0 new).2))), w)) as Hrun.
  { unfold applyPatch, bind, new. rewrite listCheck_array. cbn [elements].
    destruct (truthy value); [done|].
    destruct Hvalue as [|[vs ->]]; done. }
  eexists. split; [exact Hrun|].
  unfold applyPatch, bind. rewrite listCheck_array.
  cbn [elements withElements].
  rewrite splice_insert. cbn [snd]. rewrite Hcount.
  set (s := spliceStart (length xs) index).
  assert (s = Z.to_nat index) as Hs
    by (unfold s, spliceStart; destruct (Z.ltb_spec index 0); lia).
  unfold splice. rewrite !length_app, length_take, length_drop.
  assert (spliceStart (s `min` length xs + (length new + (length xs - s)))
            index = s) as ->.
  { unfold spliceStart. destruct (Z.ltb_spec index 0); lia. }
  assert (spliceCount (s `min` length xs + (length new + (length xs - s))) s
            (Z.of_nat (length new)) = length new) as ->.
  { unfold spliceCount. lia. }
  cbn [snd]. rewrite app_nil_l.
  assert (length (take s xs) = s) as Hlen by (rewrite length_take; lia).
  rewrite take_app_length' by done.
  rewrite (app_assoc (take s xs)), drop_app_length'
    by (rewrite length_app; lia).
  by rewrite take_drop.
Qed.

Lemma splice_Permutation {A} (l new : list A) (start deleteCount : Z) :
  (splice l start deleteCount new).1 ++ (splice l start deleteCount new).2
    ≡ₚ new ++ l.
Proof.
  unfold splice. cbn [fst snd].
  set (s := spliceStart _ _). set (d := spliceCount _ _ _).
  transitivity (new ++ take s l ++ take d (drop s l) ++ drop d (drop s l)).
  - rewrite drop_drop. solve_Permutation.
  - by rewrite !take_drop.
Qed.

(** X9: [list-move-by-index] takes the element at [from] out and puts it
    back at [to]: when [from] addresses an element, the array holds the same
    elements afterwards.  When it does not, because [from] is the length of
    the array or more, or the array is empty, nothing is taken out and an
    [undefined] is inserted all the same. *)
Theorem list_move_by_index_keeps_elements oid xs from to w :
  ∃ ys,
    applyPatch (Present (NArray oid xs)) (PListMoveByIndex from to) w =
      (Normal (inPlace (Present (NArray oid ys))), w)
    ∧ contents ys ≡ₚ
        (if decide ((from < Z.of_nat (length xs))%Z ∧ xs ≠ [])
         then contents xs else Prim PUndefined :: contents xs).
Proof.
  unfold applyPatch, bind. rewrite listCheck_array. cbn [elements].
  pose proof (splice_Permutation xs [] from 1) as Hout.
  destruct (splice xs from 1 []) as [removed rest] eqn:Hsplice.
  cbn [fst snd] in Hout. rewrite app_nil_l in Hout.
  eexists. split; [done|].
  pose proof (splice_Permutation rest [Some (firstOf removed)] to 0) as Hin.
  rewrite splice_insert in Hin at 1. cbn [fst] in Hin.
  rewrite app_nil_l in Hin. unfold contents. rewrite Hin.
  rewrite fmap_app. cbn [fmap list_fmap].
  assert (removed = take (spliceCount (length xs)
                            (spliceStart (length xs) from) 1)
                      (drop (spliceStart (length xs) from) xs)) as Hremoved
    by (unfold splice in Hsplice; by injection Hsplice as <- _).
  set (s := spliceStart (length xs) from) in *.
  destruct (decide ((from < Z.of_nat (length xs))%Z ∧ xs ≠ []))
    as [[Hlt Hne]|Hno].
  - assert (s < length xs) as Hs.
    { assert (0 < length xs) by (destruct xs; simpl; [done|lia]).
      unfold s, spliceStart. destruct (Z.ltb_spec from 0); lia. }
    rewrite spliceCount_one in Hremoved by done.
    destruct (drop s xs) as [|x rest'] eqn:Hdrop.
    { apply (f_equal length) in Hdrop. rewrite length_drop in Hdrop.
      simpl in Hdrop. lia. }
    simpl in Hremoved. subst removed. rewrite <- Hout. by simpl.
  - assert (length xs ≤ s) as Hs.
    { unfold s, spliceStart. destruct xs as [|x xs']; simpl length in *.
      - destruct (Z.ltb_spec from 0); lia.
      - assert (¬ (from < Z.of_nat (S (length xs')))%Z) by (intros ?; by apply Hno).
        destruct (Z.ltb_spec from 0); lia. }
    rewrite drop_ge in Hremoved by done. rewrite take_nil in Hremoved.
    subst removed. simpl in Hout. by rewrite <- Hout.
Qed.

End ApplierMore.


Lemma applyPatch_keeps_kind_and_oid_witness :
  returnsBase (PListPush (Prim (PString "c"))) = true
  ∧ applyPatch (Present (NArray (Some "todo/1:r#tags") exampleTags))
      (PListPush (Prim (PString "c"))) (freshWorld 0) =
      (Normal (inPlace (Present
         (NArray (Some "todo/1:r#tags")
            (exampleTags ++ [Some (Prim (PString "c"))])))), freshWorld 0)
  ∧ ∃ o',
      Present (NArray (Some "todo/1:r#tags")
                 (exampleTags ++ [Some (Prim (PString "c"))])) = Present o'
      ∧ isArray o' = true ∧ oidOf o' = Some "todo/1:r#tags".
Proof.
  assert (returnsBase (PListPush (Prim (PString "c"))) = true) as Hp
    by reflexivity.
  assert (applyPatch (Present (NArray (Some "todo/1:r#tags") exampleTags))
            (PListPush (Prim (PString "c"))) (freshWorld 0) =
          (Normal (inPlace (Present
             (NArray (Some "todo/1:r#tags")
                (exampleTags ++ [Some (Prim (PString "c"))])))), freshWorld 0))
    as Hrun by reflexivity.
  split; [exact Hp|]. split; [exact Hrun|].
  destruct (applyPatch_keeps_kind_and_oid _ _ _ _ _ Hp Hrun)
    as (o' & Hreturned & _ & Harray & Hoid).
  exists o'. split; [exact Hreturned|]. split; [exact Harray|exact Hoid].
Defined.

Lemma list_insert_then_delete_witness :
  (0 ≤ 1 ≤ Z.of_nat (length exampleTags))%Z
  ∧ (truthy (Prim (PString "x")) = true ∨ is_Some (@None (list PropertyValue)))
  ∧ ∃ ys,
      applyPatch (Present (NArray None exampleTags))
        (PListInsert 1 (Prim (PString "x")) None) (freshWorld 0) =
        (Normal (inPlace (Present (NArray None ys))), freshWorld 0)
      ∧ applyPatch (Present (NArray None ys))
          (PListDelete 1 (insertedCount (Prim (PString "x")) None))
          (freshWorld 0) =
          (Normal (inPlace (Present (NArray None exampleTags))), freshWorld 0).
Proof.
  assert (0 ≤ 1 ≤ Z.of_nat (length exampleTags))%Z as Hindex
    by (simpl; lia).
  assert (truthy (Prim (PString "x")) = true
          ∨ is_Some (@None (list PropertyValue))) as Hvalue
    by (left; reflexivity).
  split; [exact Hindex|]. split; [exact Hvalue|].
  exact (list_insert_then_delete None exampleTags 1 (Prim (PString "x")) None
           (freshWorld 0) Hindex Hvalue).
Defined.

Lemma list_move_by_ref_moves_the_last_witness :
  otherObjects exampleMoved exampleRefs
  ∧ applyPatch (Present (NArray None exampleRefs))
      (PListMoveByRef exampleMoved 0) (freshWorld 8) =
      (Normal (inPlace (Present (NArray None
         (splice [refTo 1 "todo/1:r#b"; refTo 2 "todo/1:r#a"] 0 0
            [Some (readSlot (refTo 3 "todo/1:r#c"))]).2))), freshWorld 8).
Proof.
  assert (otherObjects exampleMoved exampleRefs) as Hother.
  { unfold otherObjects, exampleRefs, refTo.
    repeat constructor; intros r [= <-]; simpl; lia. }
  split; [exact Hother|].
  exact (list_move_by_ref_moves_the_last None
           [refTo 1 "todo/1:r#b"; refTo 2 "todo/1:r#a"]
           (refTo 3 "todo/1:r#c") exampleMoved 0 (freshWorld 8) Hother).
Defined.

Lemma list_remove_removes_matching_witness :
  (isObjectRef (Ref exampleMoved) = true → withoutNullish exampleRefs)
  ∧ applyPatch (Present (NArray None exampleRefs))
      (PListRemove (Ref exampleMoved) None) (freshWorld 8) =
      (Normal (inPlace (Present (NArray None
         (removeMatching None (Ref exampleMoved) exampleRefs)))),
       freshWorld 8).
Proof.
  assert (isObjectRef (Ref exampleMoved) = true → withoutNullish exampleRefs)
    as Hok.
  { intros _. unfold withoutNullish, exampleRefs, refTo.
    repeat constructor; discriminate. }
  split; [exact Hok|].
  exact (list_remove_removes_matching None exampleRefs (Ref exampleMoved) None
           (freshWorld 8) Hok).
Defined.

(** ** Properties of the shallow diff *)

Section ShallowDiffProperties.

Variable getNow : nat → string.

Implicit Types (patches : list Operation) (w : World).
Implicit Types (xs zs : list Slot) (v : PropertyValue) (value : Any).

Lemma stampedFrom_app start items1 items2 :
  stampedFrom getNow start (items1 ++ items2) =
    stampedFrom getNow start items1
    ++ stampedFrom getNow (start + length items1) items2.
Proof.
  revert start. induction items1 as [|[oid data] items1 IH]; intros start.
  - simpl. by rewrite Nat.add_0_r.
  - simpl. rewrite IH. do 3 f_equal. lia.
Qed.

Lemma shallowDiffItems_flat oid key v oldValue patches w :
  shallowDiffItems getNow oid key (embed v) oldValue patches w =
    (inr (patches ++ stampedFrom getNow (now_calls w)
                       (opsFor oid (if differs v oldValue then [PSet key v]
                                    else []))),
     ticked (length (if differs v oldValue then [PSet key v] else [])) w).
Proof.
  unfold shallowDiffItems. assert (flat (embed v) = Some v) as ->
    by (by destruct v).
  destruct (differs v oldValue).
  - unfold run. by rewrite push_run.
  - unfold retS. simpl. by rewrite app_nil_r, ticked_0.
Qed.

Lemma flat_Some value v : flat value = Some v → value = embed v.
Proof. destruct value; simpl; intros [=]; by subst. Qed.

Lemma flatItems_Some items vs : flatItems items = Some vs → items = embed <$> vs.
Proof.
  revert vs. induction items as [|x items IH]; intros vs; simpl.
  - by intros [= <-].
  - destruct (flat x) as [v|] eqn:Hv; [|done].
    destruct (flatItems items) as [vs'|]; [|done].
    intros [= <-]. rewrite fmap_cons. f_equal; [by apply flat_Some|by apply IH].
Qed.

Lemma flat_embed v : flat (embed v) = Some v.
Proof. by destruct v. Qed.

Lemma flatItems_embed vs : flatItems (embed <$> vs) = Some vs.
Proof.
  induction vs as [|v vs IH]; [done|].
  rewrite fmap_cons. simpl. by rewrite flat_embed, IH.
Qed.

(** The loop over the elements of [to]: it throws at the first nested
    object, and appends the [set] patches otherwise. *)
Lemma shallowDiffElements_run oid fromItems i vs patches w :
  match flatItems vs with
  | Some values =>
      shallowDiffElements getNow oid fromItems i vs patches w =
        (inr (patches ++ stampedFrom getNow (now_calls w)
                           (opsFor oid (elementSets fromItems i values))),
         ticked (length (elementSets fromItems i values)) w)
  | None =>
      ∃ w', shallowDiffElements getNow oid fromItems i vs patches w =
              (inl GivenNestedObject, w')
  end.
Proof.
  revert i patches w.
  induction vs as [|value rest IH]; intros i patches w.
  - simpl. unfold retS. by rewrite app_nil_r, ticked_0.
  - cbn [flatItems shallowDiffElements]. unfold bindS.
    destruct (flat value) as [v|] eqn:Hv.
    + apply flat_Some in Hv as ->. rewrite shallowDiffItems_flat.
      specialize (IH (S i) (patches ++ stampedFrom getNow (now_calls w)
        (opsFor oid (if differs v (anyItem fromItems i)
                     then [PSet (Index i) v] else [])))
        (ticked (length (if differs v (anyItem fromItems i)
                         then [PSet (Index i) v] else [])) w)).
      destruct (flatItems rest) as [values|].
      * rewrite IH. cbn [elementSets]. unfold opsFor.
        rewrite fmap_app, stampedFrom_app.
        rewrite <- app_assoc, length_app, length_fmap, ticked_ticked.
        done.
      * destruct IH as [w' ->]. by eexists.
    + unfold shallowDiffItems. rewrite Hv. unfold throwS. by eexists.
Qed.

Lemma flatFields_Some fields vs :
  flatFields fields = Some vs → fields = embedFields vs.
Proof.
  revert vs. induction fields as [|[k x] fields IH]; intros vs; simpl.
  - by intros [= <-].
  - destruct (flat x) as [v|] eqn:Hv; [|done].
    destruct (flatFields fields) as [vs'|]; [|done].
    intros [= <-]. unfold embedFields. rewrite fmap_cons.
    f_equal; [|by apply IH]. simpl. f_equal. by apply flat_Some.
Qed.

Lemma flatFields_keys fields vs :
  flatFields fields = Some vs → vs.*1 = fields.*1.
Proof.
  intros ->%flatFields_Some.
  unfold embedFields.
  induction vs as [|[k v] vs IH]; [done|]. rewrite !fmap_cons. by f_equal.
Qed.

Lemma flatFields_embed vs : flatFields (embedFields vs) = Some vs.
Proof.
  unfold embedFields. induction vs as [|[k v] vs IH]; [done|].
  rewrite fmap_cons. simpl. by rewrite flat_embed, IH.
Qed.

Lemma keys_embedFields (vs : list (string * PropertyValue)) :
  (embedFields vs).*1 = vs.*1.
Proof. symmetry. apply flatFields_keys, flatFields_embed. Qed.

(** The loop over the entries of [to]. *)
Lemma shallowDiffFields_run oid fromFields fs oldKeys patches w :
  match flatFields fs with
  | Some values =>
      shallowDiffFields getNow oid fromFields fs oldKeys patches w =
        (inr (filter (λ k, k ∉ fs.*1) oldKeys,
              patches ++ stampedFrom getNow (now_calls w)
                           (opsFor oid (fieldSets fromFields values))),
         ticked (length (fieldSets fromFields values)) w)
  | None =>
      ∃ w', shallowDiffFields getNow oid fromFields fs oldKeys patches w =
              (inl GivenNestedObject, w')
  end.
Proof.
  revert oldKeys patches w.
  induction fs as [|[key value] rest IH]; intros oldKeys patches w.
  - simpl. unfold retS. rewrite app_nil_r, ticked_0. do 3 f_equal.
    induction oldKeys as [|k ks IHk]; [done|].
    rewrite filter_cons_True by apply not_elem_of_nil. by f_equal.
  - cbn [flatFields shallowDiffFields]. unfold bindS.
    destruct (flat value) as [v|] eqn:Hv.
    + apply flat_Some in Hv as ->. rewrite shallowDiffItems_flat.
      specialize (IH (filter (λ k, k ≠ key) oldKeys)
        (patches ++ stampedFrom getNow (now_calls w)
        (opsFor oid (if differs v (anyField fromFields key)
                     then [PSet (Key key) v] else [])))
        (ticked (length (if differs v (anyField fromFields key)
                         then [PSet (Key key) v] else [])) w)).
      destruct (flatFields rest) as [values|].
      * rewrite IH. cbn [fieldSets]. unfold opsFor.
        rewrite fmap_app, stampedFrom_app.
        rewrite <- app_assoc, length_app, length_fmap, ticked_ticked.
        do 3 f_equal. rewrite list_filter_filter. apply list_filter_iff.
        intros k. rewrite fmap_cons, not_elem_of_cons. simpl. tauto.
      * destruct IH as [w' ->]. by eexists.
    + unfold shallowDiffItems. rewrite Hv. unfold throwS. by eexists.
Qed.

Lemma removeKeys_run oid oldKeys patches w :
  removeKeys getNow oid oldKeys patches w =
    (Normal (patches ++ stampedFrom getNow (now_calls w)
                          (opsFor oid (PRemove ∘ Key <$> oldKeys))),
     ticked (length oldKeys) w).
Proof.
  revert patches w. induction oldKeys as [|k ks IH]; intros patches w; simpl.
  - unfold ret. by rewrite app_nil_r, ticked_0.
  - unfold bind. rewrite push_run, IH, <- app_assoc, ticked_ticked. simpl.
    by rewrite Nat.add_1_r.
Qed.

Lemma shallowDiffToPatches_array oid fromItems toOid toItems patches w :
  shallowDiffToPatches getNow (AArray (Some oid) fromItems)
    (AArray toOid toItems) patches w =
    match shallowDiffElements getNow oid fromItems 0 toItems patches w with
    | (inr patches, w1) =>
        (inr (patches ++ stampedFrom getNow (now_calls w1)
                           (opsFor oid (tailDelete fromItems toItems))),
         ticked (length (tailDelete fromItems toItems)) w1)
    | (inl e, w1) => (inl e, w1)
    end.
Proof.
  unfold shallowDiffToPatches, bindS at 1. simpl.
  unfold bindS.
  destruct (shallowDiffElements getNow oid fromItems 0 toItems patches w)
    as [[e|ps] w1]; [done|].
  unfold tailDelete.
  destruct (bool_decide _).
  - unfold run. by rewrite push_run.
  - unfold retS. simpl. by rewrite app_nil_r, ticked_0.
Qed.

Lemma shallowDiffToPatches_object oid fromFields to patches w :
  isArrayAny to = false → isObjectAny to = true →
  shallowDiffToPatches getNow (AObject (Some oid) fromFields) to patches w =
    match shallowDiffFields getNow oid fromFields (entries to)
            fromFields.*1 patches w with
    | (inr (oldKeys, patches), w1) =>
        (inr (patches ++ stampedFrom getNow (now_calls w1)
                           (opsFor oid (PRemove ∘ Key <$> oldKeys))),
         ticked (length oldKeys) w1)
    | (inl e, w1) => (inl e, w1)
    end.
Proof.
  intros Harr Hobj. unfold shallowDiffToPatches, getAnyOid.
  cbn [anyOid]. unfold bindS at 1, run at 1, ret.
  assert (∀ m : Shallow (list Operation),
            match to with
            | AArray _ _ => throwS (Thrown CannotDiffArrayWithObject)
            | _ => if isObjectAny (AObject (Some oid) fromFields)
                      && isObjectAny to then m else retS patches
            end = m) as ->.
  { intros m. by destruct to. }
  cbn [entries]. unfold bindS.
  destruct (shallowDiffFields getNow oid fromFields (entries to)
              fromFields.*1 patches w) as [[e|[oldKeys ps]] w1]; [done|].
  unfold run. cbn [fst snd]. by rewrite removeKeys_run.
Qed.

(** X10: what [shallowDiffToPatches] does with its arguments.  A [from]
    without an OID fails the assertion of [getOid]; an array against a value
    that is not one, or the reverse, is the error 'Cannot diff an array with
    an object'; otherwise the diff throws 'Shallow diff was given a nested
    object' if one of the elements or property values of [to] is an object
    that is not a ref, and returns if there is none. *)
Theorem shallowDiffToPatches_outcome from to patches w :
  match anyOid from with
  | None =>
      shallowDiffToPatches getNow from to patches w =
        (inl (Thrown AssertionFailed), w)
  | Some oid =>
      if negb (bool_decide (isArrayAny from = isArrayAny to)) then
        shallowDiffToPatches getNow from to patches w =
          (inl (Thrown CannotDiffArrayWithObject), w)
      else if bool_decide (Forall (λ item, is_Some (flat item)) (children to))
      then ∃ ps w', shallowDiffToPatches getNow from to patches w = (inr ps, w')
      else ∃ w', shallowDiffToPatches getNow from to patches w =
                   (inl GivenNestedObject, w')
  end.
Proof.
  assert (∀ items, Forall (λ item, is_Some (flat item)) items
                   ↔ is_Some (flatItems items)) as HflatItems.
  { induction items as [|x items IH]; simpl.
    - split; [by eexists|constructor].
    - rewrite Forall_cons, IH. destruct (flat x), (flatItems items); simpl;
        split; try (intros [[? ?] [? ?]]; done); try (intros [? ?]; done);
        try (by eexists); intros _; split; by eexists. }
  assert (∀ fields, Forall (λ item, is_Some (flat item)) fields.*2
                    ↔ is_Some (flatFields fields)) as HflatFields.
  { induction fields as [|[k x] fields IH]; simpl.
    - split; [by eexists|constructor].
    - rewrite Forall_cons, IH. destruct (flat x), (flatFields fields); simpl;
        split; try (intros [[? ?] [? ?]]; done); try (intros [? ?]; done);
        try (by eexists); intros _; split; by eexists. }
  destruct from as [p|r|[oid|] fromFields|[oid|] fromItems]; try done.
  - (* an object *)
    cbn [anyOid]. destruct (isArrayAny to) eqn:Harr.
    { by destruct to. }
    cbn [isArrayAny negb]. rewrite bool_decide_eq_true_2 by done. cbn [negb].
    destruct (isObjectAny to) eqn:Hobj.
    + rewrite shallowDiffToPatches_object by done.
      pose proof (shallowDiffFields_run oid fromFields (entries to)
                    fromFields.*1 patches w) as Hrun.
      assert (children to = (entries to).*2) as -> by (by destruct to).
      destruct (flatFields (entries to)) as [values|] eqn:Hvalues.
      * rewrite bool_decide_eq_true_2 by (apply HflatFields; by eexists).
        rewrite Hrun. by eexists _, _.
      * rewrite bool_decide_eq_false_2
          by (rewrite HflatFields, Hvalues; by intros [? ?]).
        destruct Hrun as [w' ->]. by eexists.
    + destruct to; try done. simpl. by eexists _, _.
  - (* an array *)
    cbn [anyOid]. destruct to as [p|r|toOid toFields|toOid toItems];
      try done.
    cbn [isArrayAny negb]. rewrite (bool_decide_eq_true_2 (true = true)) by done.
    cbn [negb children]. rewrite shallowDiffToPatches_array.
    pose proof (shallowDiffElements_run oid fromItems 0 toItems patches w)
      as Hrun.
    destruct (flatItems toItems) as [values|] eqn:Hvalues.
    + rewrite bool_decide_eq_true_2 by (apply HflatItems; by eexists).
      rewrite Hrun. by eexists _, _.
    + rewrite bool_decide_eq_false_2
        by (rewrite HflatItems, Hvalues; by intros [? ?]).
      destruct Hrun as [w' ->]. by eexists.
Qed.

Lemma shallowPatch_elementSets fromItems i values :
  Forall (λ data, shallowPatch data = true) (elementSets fromItems i values).
Proof.
  revert i. induction values as [|v values IH]; intros i; simpl; [done|].
  apply Forall_app. split; [|apply IH].
  destruct (differs _ _); by repeat constructor.
Qed.

Lemma shallowPatch_fieldSets fromFields values :
  Forall (λ data, shallowPatch data = true) (fieldSets fromFields values).
Proof.
  induction values as [|[k v] values IH]; simpl; [done|].
  apply Forall_app. split; [|apply IH].
  destruct (differs _ _); by repeat constructor.
Qed.

(** X11: when [shallowDiffToPatches] returns, the list of patches it was
    given comes back with operations appended to it, and with nothing else
    changed.  The new operations all address the OID of [from], carry the
    timestamps of consecutive calls of [getNow], and are [set], [remove] and
    [list-delete] patches only: a shallow diff initializes and deletes no
    sub-object, and never pushes, inserts or moves. *)
Theorem shallowDiffToPatches_appends from to patches w ps w' :
  shallowDiffToPatches getNow from to patches w = (inr ps, w') →
  ∃ oid datas,
    anyOid from = Some oid
    ∧ Forall (λ data, shallowPatch data = true) datas
    ∧ ps = patches ++ stampedFrom getNow (now_calls w) (opsFor oid datas)
    ∧ w' = ticked (length datas) w.
Proof.
  destruct from as [p|r|[oid|] fromFields|[oid|] fromItems]; try done.
  - (* an object *)
    destruct (isArrayAny to) eqn:Harr; [by destruct to|].
    destruct (isObjectAny to) eqn:Hobj.
    + rewrite shallowDiffToPatches_object by done.
      pose proof (shallowDiffFields_run oid fromFields (entries to)
                    fromFields.*1 patches w) as Hrun.
      destruct (flatFields (entries to)) as [values|];
        [|by destruct Hrun as [? ->]].
      rewrite Hrun. intros [= <- <-].
      exists oid, (fieldSets fromFields values ++ removals fromFields (entries to)).
      split; [done|]. split.
      { apply Forall_app. split; [apply shallowPatch_fieldSets|].
        unfold removals. by apply Forall_fmap, Forall_true. }
      unfold opsFor, removals.
      rewrite fmap_app, stampedFrom_app, length_app, !length_fmap.
      by rewrite <- app_assoc, ticked_ticked.
    + destruct to; try done. intros [= <- <-]. exists oid, [].
      split; [done|]. split; [done|]. simpl. by rewrite app_nil_r, ticked_0.
  - (* an array *)
    destruct to as [p|r|toOid toFields|toOid toItems]; try done.
    rewrite shallowDiffToPatches_array.
    pose proof (shallowDiffElements_run oid fromItems 0 toItems patches w)
      as Hrun.
    destruct (flatItems toItems) as [values|];
      [|by destruct Hrun as [? ->]].
    rewrite Hrun. intros [= <- <-].
    exists oid, (elementSets fromItems 0 values ++ tailDelete fromItems toItems).
    split; [done|]. split.
    { apply Forall_app. split; [apply shallowPatch_elementSets|].
      unfold tailDelete. destruct (bool_decide _); by repeat constructor. }
    unfold opsFor.
    rewrite fmap_app, stampedFrom_app, length_app, !length_fmap.
    by rewrite <- app_assoc, ticked_ticked.
Qed.

Lemma foldPatches_app cur ops1 ops2 w :
  foldPatches cur (ops1 ++ ops2) w =
    match foldPatches cur ops1 w with
    | (Normal cur', w') => foldPatches cur' ops2 w'
    | (Throw e, w') => (Throw e, w')
    end.
Proof.
  revert cur w. induction ops1 as [|op ops1 IH]; intros cur w; simpl; [done|].
  unfold bind. destruct (applyPatch cur (op_data op) w) as [[r|e] w1]; [|done].
  apply IH.
Qed.

Lemma primStrictEq_eq p q : primStrictEq p q = true → p = q.
Proof.
  destruct p as [s|[x|]|b| |], q as [t|[y|]|c| |]; simpl; try done;
    intros ?%bool_decide_eq_true; by subst.
Qed.

Lemma strictEq_eq a b :
  sameObjects [a; b] → strictEq a b = true → a = b.
Proof.
  intros Hsame. destruct a as [p|r], b as [q|s]; simpl; try done.
  - by intros ->%primStrictEq_eq.
  - intros ?%bool_decide_eq_true. f_equal. apply Hsame; [| |done].
    + apply list_elem_of_here.
    + apply list_elem_of_further, list_elem_of_here.
Qed.

Lemma sameObjects_sub vs ws :
  (∀ r, Ref r ∈ ws → Ref r ∈ vs) → sameObjects vs → sameObjects ws.
Proof. intros Hsub H r s Hr Hs. apply H; by apply Hsub. Qed.

Lemma length_writeSlot xs i v :
  length (writeSlot xs i v) = length xs `max` S i.
Proof.
  unfold writeSlot. destruct (decide (i < length xs)).
  - rewrite length_insert. lia.
  - rewrite !length_app, length_replicate. simpl. lia.
Qed.

Lemma readAt_writeSlot_eq xs i v : readAt (writeSlot xs i v) i = v.
Proof.
  unfold readAt, writeSlot. destruct (decide (i < length xs)).
  - by rewrite list_lookup_insert_eq.
  - rewrite lookup_app_r by lia. rewrite lookup_app_r
      by (rewrite length_replicate; lia).
    rewrite length_replicate. by replace (i - length xs - (i - length xs)) with 0 by lia.
Qed.

Lemma readAt_writeSlot_ne xs i j v :
  i ≠ j → readAt (writeSlot xs i v) j = readAt xs j.
Proof.
  intros Hne. unfold readAt, writeSlot. destruct (decide (i < length xs)).
  - by rewrite list_lookup_insert_ne.
  - destruct (decide (j < length xs)).
    + by rewrite lookup_app_l.
    + rewrite (lookup_ge_None_2 xs j) by lia. rewrite lookup_app_r by lia.
      destruct (decide (j - length xs < i - length xs)).
      * rewrite lookup_app_l by (by rewrite length_replicate).
        by rewrite lookup_replicate_2.
      * rewrite lookup_app_r by (rewrite length_replicate; lia).
        rewrite length_replicate. rewrite lookup_ge_None_2; [done|].
        simpl. lia.
Qed.

Lemma readAt_ge xs j : length xs ≤ j → readAt xs j = Prim PUndefined.
Proof. intros. unfold readAt. by rewrite lookup_ge_None_2. Qed.

Lemma readAt_take xs n j :
  readAt (take n xs) j = if decide (j < n) then readAt xs j
                         else Prim PUndefined.
Proof.
  unfold readAt. destruct (decide (j < n)).
  - by rewrite lookup_take_lt.
  - by rewrite lookup_take_ge by lia.
Qed.

Lemma readAt_Some (vs : list PropertyValue) j :
  readAt (Some <$> vs) j = default (Prim PUndefined) (vs !! j).
Proof. unfold readAt. rewrite list_lookup_fmap. by destruct (vs !! j). Qed.

Lemma anyItem_embed (vs : list PropertyValue) j :
  anyItem (embed <$> vs) j = embed (readAt (Some <$> vs) j).
Proof.
  rewrite readAt_Some. unfold anyItem. rewrite list_lookup_fmap.
  by destruct (vs !! j).
Qed.

Lemma differs_embed v old : differs v (embed old) = negb (strictEq v old).
Proof. unfold differs. by rewrite flat_embed. Qed.

(** The [set] patches of the loop over the elements, applied in order to
    an array that agrees with [from] from position [i] on, make it agree
    with [to] on the positions the loop has visited. *)
Lemma elementSets_apply o oid fromItems (ys : list PropertyValue) :
  ∀ i cur start w,
    (∀ j, i ≤ j → anyItem fromItems j = embed (readAt cur j)) →
    (∀ j v, ys !! j = Some v → sameObjects [v; readAt cur (i + j)]) →
    ∃ zs,
      foldPatches (Present (NArray o cur))
        (stampedFrom getNow start (opsFor oid (elementSets fromItems i ys))) w
        = (Normal (Present (NArray o zs)), w)
      ∧ length cur ≤ length zs ≤ length cur `max` (i + length ys)
      ∧ (∀ j, j < i → readAt zs j = readAt cur j)
      ∧ (∀ j v, ys !! j = Some v → readAt zs (i + j) = v)
      ∧ (∀ j, i + length ys ≤ j → readAt zs j = readAt cur j).
Proof.
  induction ys as [|v ys IH]; intros i cur start w Hfrom Hsame.
  - exists cur. simpl. split; [done|]. split; [lia|]. split; [done|].
    split; [done|done].
  - cbn [elementSets]. unfold opsFor. rewrite fmap_app, stampedFrom_app.
    rewrite foldPatches_app. rewrite Hfrom by done. rewrite differs_embed.
    destruct (strictEq v (readAt cur i)) eqn:Heq; cbn [negb].
    + (* nothing to set *)
      simpl. unfold ret.
      destruct (IH (S i) cur (start + 0) w) as (zs & Hrun & Hlen & Hlt & Hys & Hge).
      { intros j Hj. apply Hfrom. lia. }
      { intros j u Hu. replace (S i + j) with (i + S j) by lia.
        by apply Hsame. }
      exists zs. split; [exact Hrun|]. split; [simpl; lia|].
      split; [intros j Hj; apply Hlt; lia|]. split.
      * intros [|j] u Hu.
        -- injection Hu as <-. rewrite Nat.add_0_r, Hlt by lia.
           symmetry. apply strictEq_eq; [|done].
           specialize (Hsame 0 v eq_refl). by rewrite Nat.add_0_r in Hsame.
        -- replace (i + S j) with (S i + j) by lia. by apply Hys.
      * intros j Hj. apply Hge. simpl in Hj. lia.
    + (* one set *)
      simpl. unfold bind, ret. simpl.
      destruct (IH (S i) (writeSlot cur i v) (start + 1) w)
        as (zs & Hrun & Hlen & Hlt & Hys & Hge).
      { intros j Hj. rewrite readAt_writeSlot_ne by lia. apply Hfrom. lia. }
      { intros j u Hu. rewrite readAt_writeSlot_ne by lia.
        replace (S i + j) with (i + S j) by lia. by apply Hsame. }
      exists zs. split; [exact Hrun|]. rewrite length_writeSlot in Hlen.
      split; [simpl; lia|].
      split; [intros j Hj; rewrite Hlt by lia;
              by rewrite readAt_writeSlot_ne by lia|].
      split.
      * intros [|j] u Hu.
        -- injection Hu as <-. rewrite Nat.add_0_r, Hlt by lia.
           apply readAt_writeSlot_eq.
        -- replace (i + S j) with (S i + j) by lia. by apply Hys.
      * intros j Hj. simpl in Hj. rewrite Hge by lia.
        by rewrite readAt_writeSlot_ne by lia.
Qed.

Lemma returnsBase_shallowPatch data :
  shallowPatch data = true → returnsBase data = true.
Proof. by destruct data. Qed.

Lemma applyOperations_foldPatches base operations w :
  Forall (λ op, shallowPatch (op_data op) = true) operations →
  applyOperations base operations w = foldPatches base operations w.
Proof.
  intros H. apply applyOperations_fold_when_in_place.
  eapply Forall_impl; [exact H|]. intros op. apply returnsBase_shallowPatch.
Qed.

Lemma Forall_stampedFrom (P : OperationPatch → Prop) start oid datas :
  Forall P datas →
  Forall (λ op, P (op_data op)) (stampedFrom getNow start (opsFor oid datas)).
Proof.
  intros H. revert start. induction H as [|d ds Hd _ IH]; intros start;
    simpl; constructor; auto.
Qed.

(** X12: the diff of two arrays of primitives and refs, applied to the first
    with [applyOperations], gives the second: every position of the result
    reads as it does in [to]. *)
Theorem shallow_diff_of_arrays_applies oid toOid (xs ys : list PropertyValue)
    patches w w0 :
  sameObjects (xs ++ ys) →
  ∃ added zs w',
    shallowDiffToPatches getNow (AArray (Some oid) (embed <$> xs))
      (AArray toOid (embed <$> ys)) patches w = (inr (patches ++ added), w')
    ∧ applyOperations (Present (NArray (Some oid) (Some <$> xs))) added w0 =
        (Normal (Present (NArray (Some oid) zs)), w0)
    ∧ length zs ≤ length ys
    ∧ ∀ i, readAt zs i = readAt (Some <$> ys) i.
Proof.
  intros Hsame. rewrite shallowDiffToPatches_array.
  pose proof (shallowDiffElements_run oid (embed <$> xs) 0 (embed <$> ys)
                patches w) as Hrun.
  rewrite flatItems_embed in Hrun. rewrite Hrun. clear Hrun.
  destruct (elementSets_apply (Some oid) oid (embed <$> xs) ys 0
              (Some <$> xs) (now_calls w) w0)
    as (zs & Hsets & Hlen & _ & Hys & Hge).
  { intros j _. apply anyItem_embed. }
  { intros j v Hv. eapply sameObjects_sub; [|exact Hsame].
    intros r. rewrite !elem_of_cons, elem_of_nil, elem_of_app.
    intros [Hr|[Hr|[]]].
    - right. rewrite Hr. by eapply list_elem_of_lookup_2.
    - rewrite readAt_Some in Hr. simpl in Hr.
      destruct (xs !! j) as [x|] eqn:Hx; simpl in Hr; [|done].
      left. rewrite Hr. by eapply list_elem_of_lookup_2. }
  assert (∀ i, readAt zs i =
               if decide (i < length ys) then readAt (Some <$> ys) i
               else readAt (Some <$> xs) i) as Hzs.
  { intros i. destruct (decide (i < length ys)) as [Hi|Hi].
    - destruct (lookup_lt_is_Some_2 ys i Hi) as [v Hv].
      specialize (Hys i v Hv). simpl in Hys. rewrite Hys, readAt_Some.
      by rewrite Hv.
    - apply Hge. simpl. lia. }
  rewrite length_fmap in Hlen. simpl in Hlen.
  unfold tailDelete. rewrite !length_fmap, <- app_assoc.
  destruct (bool_decide_reflect
              (Z.of_nat (length xs) - Z.of_nat (length ys) > 0)%Z) as [Hgt|Hle].
  - (* [to] is shorter: the tail is deleted *)
    eexists _, (take (length ys) zs), _. split; [reflexivity|]. split.
    { rewrite applyOperations_foldPatches.
      2:{ apply Forall_app. split;
            apply (Forall_stampedFrom (λ d, shallowPatch d = true));
            [apply shallowPatch_elementSets|by repeat constructor]. }
      rewrite foldPatches_app, Hsets. simpl. unfold bind, ret. simpl.
      do 4 f_equal. unfold splice.
      assert (length zs = length xs) as Hzlen by lia.
      assert (spliceStart (length zs) (Z.of_nat (length ys)) = length ys) as ->
        by (apply spliceStart_inside; lia).
      assert (spliceCount (length zs) (length ys)
                (Z.of_nat (length xs) - Z.of_nat (length ys))
              = length xs - length ys) as -> by (unfold spliceCount; lia).
      cbn [snd]. rewrite drop_ge by lia. by rewrite !app_nil_r. }
    split; [rewrite length_take; lia|].
    intros i. rewrite readAt_take, Hzs. destruct (decide (i < length ys));
      [done|]. rewrite readAt_ge; [done|]. rewrite length_fmap. lia.
  - (* nothing to delete *)
    eexists _, zs, _. split; [reflexivity|]. split.
    { rewrite applyOperations_foldPatches.
      2:{ apply Forall_app. split;
            apply (Forall_stampedFrom (λ d, shallowPatch d = true));
            [apply shallowPatch_elementSets|done]. }
      by rewrite foldPatches_app, Hsets. }
    split; [lia|].
    intros i. rewrite Hzs. destruct (decide (i < length ys)); [done|].
    rewrite !readAt_ge; [done|rewrite length_fmap; lia..].
Qed.

Lemma anyField_embedFields (fs : list (string * PropertyValue)) key :
  anyField (embedFields fs) key =
    embed (readProperty (list_to_map fs) key).
Proof.
  unfold anyField, readProperty, embedFields.
  induction fs as [|[k v] fs IH]; [done|].
  rewrite fmap_cons. cbn [list_find list_to_map foldr]. simpl.
  destruct (decide (k = key)) as [->|Hne].
  - by rewrite lookup_insert_eq.
  - rewrite lookup_insert_ne by done. rewrite <- IH.
    by destruct (list_find _ _) as [[? [? ?]]|].
Qed.

Lemma readProperty_insert_eq (props : gmap string PropertyValue) k v :
  readProperty (<[k := v]> props) k = v.
Proof. unfold readProperty. by rewrite lookup_insert_eq. Qed.





Lemma strictEq_refl v : v ≠ Prim (PNumber NaN) → strictEq v v = true.
Proof.
  destruct v as [[s|[z|]|b| |]|r]; simpl; intros H; try done;
    by apply bool_decide_eq_true.
Qed.

Lemma elementSets_same (before : list Any) (vs : list PropertyValue) :
  Forall (λ v, v ≠ Prim (PNumber NaN)) vs →
  elementSets (before ++ (embed <$> vs)) (length before) vs = [].
Proof.
  intros H. revert before. induction H as [|v vs Hv _ IH]; intros before;
    [done|].
  cbn [elementSets]. unfold anyItem.
  rewrite lookup_app_r, Nat.sub_diag by done. simpl.
  rewrite differs_embed, strictEq_refl by done. simpl.
  specialize (IH (before ++ [embed v])).
  rewrite length_app, Nat.add_1_r, <- app_assoc in IH. exact IH.
Qed.

Lemma fieldSets_same fromFields (vs : list (string * PropertyValue)) :
  Forall (λ kv, anyField fromFields kv.1 = embed kv.2
                ∧ kv.2 ≠ Prim (PNumber NaN)) vs →
  fieldSets fromFields vs = [].
Proof.
  induction 1 as [|[k v] vs [Hk Hv] _ IH]; [done|].
  cbn [fieldSets]. simpl in Hk, Hv.
  by rewrite Hk, differs_embed, strictEq_refl, IH.
Qed.

Lemma filter_not_in_self (keys : list string) :
  filter (λ k, k ∉ keys) keys = [].
Proof.
  assert (∀ l, (∀ k, k ∈ l → k ∈ keys) → filter (λ k, k ∉ keys) l = [])
    as H.
  { induction l as [|k l IH]; intros Hl; [done|].
    rewrite filter_cons_False.
    - apply IH. intros k' ?. by apply Hl, list_elem_of_further.
    - intros Hk. apply Hk, Hl, list_elem_of_here. }
  by apply H.
Qed.

(** X14: the shallow diff of a value with itself emits nothing, as long as
    none of its elements or property values is [NaN] (which differs from
    itself, and is set again by every diff). *)
Theorem shallow_diff_of_a_value_with_itself from oid patches w :
  anyOid from = Some oid →
  Forall (λ item, ∃ v, flat item = Some v ∧ v ≠ Prim (PNumber NaN))
    (children from) →
  NoDup (entries from).*1 →
  shallowDiffToPatches getNow from from patches w = (inr patches, w).
Proof.
  intros Hoid Hflat Hnodup.
  destruct from as [p|r|o fields|o items]; try done; simpl in Hoid; subst o.
  - (* an object *)
    cbn [children entries] in Hflat, Hnodup.
    assert (∃ vs, fields = embedFields vs
                  ∧ Forall (λ kv, kv.2 ≠ Prim (PNumber NaN)) vs)
      as (vs & -> & Hvs).
    { clear Hnodup. induction fields as [|[k x] fields IH].
      - by exists [].
      - rewrite fmap_cons in Hflat.
        apply Forall_cons in Hflat as [(v & Hv & Hnan) Hflat].
        destruct (IH Hflat) as (vs & -> & Hvs).
        exists ((k, v) :: vs). split; [|by constructor].
        unfold embedFields. rewrite fmap_cons. simpl in *.
        by rewrite (flat_Some _ _ Hv). }
    rewrite shallowDiffToPatches_object by done. cbn [entries].
    pose proof (shallowDiffFields_run oid (embedFields vs) (embedFields vs)
                  (embedFields vs).*1 patches w) as Hrun.
    rewrite flatFields_embed in Hrun. rewrite Hrun.
    rewrite fieldSets_same, filter_not_in_self.
    + simpl. by rewrite !app_nil_r, !ticked_0.
    + rewrite keys_embedFields in Hnodup. apply Forall_forall.
      intros [k v] Hkv. split.
      * rewrite anyField_embedFields. unfold readProperty. simpl.
        by rewrite (elem_of_list_to_map_1 _ _ _ Hnodup Hkv).
      * by apply (proj1 (Forall_forall _ _) Hvs (k, v)).
  - (* an array *)
    cbn [children] in Hflat.
    assert (∃ vs, items = embed <$> vs
                  ∧ Forall (λ v, v ≠ Prim (PNumber NaN)) vs)
      as (vs & -> & Hvs).
    { clear Hnodup. induction items as [|x items IH].
      - by exists [].
      - apply Forall_cons in Hflat as [(v & Hv & Hnan) Hflat].
        destruct (IH Hflat) as (vs & -> & Hvs).
        exists (v :: vs). split; [|by constructor].
        rewrite fmap_cons. by rewrite (flat_Some _ _ Hv). }
    rewrite shallowDiffToPatches_array.
    pose proof (shallowDiffElements_run oid (embed <$> vs) 0 (embed <$> vs)
                  patches w) as Hrun.
    rewrite flatItems_embed in Hrun. rewrite Hrun.
    pose proof (elementSets_same [] vs Hvs) as Hsame. simpl in Hsame.
    rewrite Hsame. unfold tailDelete.
    rewrite bool_decide_eq_false_2 by lia.
    simpl. by rewrite !app_nil_r, !ticked_0.
Qed.

End ShallowDiffProperties.

Lemma shallowDiffToPatches_appends_witness :
  shallowDiffToPatches exampleNow
    (AArray (Some "todo/1:r#tags") (embed <$> exampleFromTags))
    (AArray None (embed <$> exampleToTags)) [] (freshWorld 0) =
    (inr [mkOperation "todo/1:r#tags" "0"
            (PSet (Index 1) (Prim (PString "x")));
          mkOperation "todo/1:r#tags" "1" (PListDelete 2 1)],
     ticked 2 (freshWorld 0))
  ∧ ∃ oid datas,
      anyOid (AArray (Some "todo/1:r#tags") (embed <$> exampleFromTags)) =
        Some oid
      ∧ Forall (λ data, shallowPatch data = true) datas
      ∧ [mkOperation "todo/1:r#tags" "0"
           (PSet (Index 1) (Prim (PString "x")));
         mkOperation "todo/1:r#tags" "1" (PListDelete 2 1)] =
          [] ++ stampedFrom exampleNow (now_calls (freshWorld 0))
                  (opsFor oid datas)
      ∧ ticked 2 (freshWorld 0) = ticked (length datas) (freshWorld 0).
Proof.
  assert (shallowDiffToPatches exampleNow
            (AArray (Some "todo/1:r#tags") (embed <$> exampleFromTags))
            (AArray None (embed <$> exampleToTags)) [] (freshWorld 0) =
          (inr [mkOperation "todo/1:r#tags" "0"
                  (PSet (Index 1) (Prim (PString "x")));
                mkOperation "todo/1:r#tags" "1" (PListDelete 2 1)],
           ticked 2 (freshWorld 0))) as Hrun by reflexivity.
  split; [exact Hrun|].
  exact (shallowDiffToPatches_appends exampleNow _ _ _ _ _ _ Hrun).
Defined.

Lemma shallow_diff_of_arrays_applies_witness :
  sameObjects (exampleFromTags ++ exampleToTags)
  ∧ ∃ added zs w',
      shallowDiffToPatches exampleNow
        (AArray (Some "todo/1:r#tags") (embed <$> exampleFromTags))
        (AArray None (embed <$> exampleToTags)) [] (freshWorld 0) =
        (inr ([] ++ added), w')
      ∧ applyOperations
          (Present (NArray (Some "todo/1:r#tags") (Some <$> exampleFromTags)))
          added (freshWorld 0) =
          (Normal (Present (NArray (Some "todo/1:r#tags") zs)), freshWorld 0)
      ∧ length zs ≤ length exampleToTags
      ∧ ∀ i, readAt zs i = readAt (Some <$> exampleToTags) i.
Proof.
  assert (sameObjects (exampleFromTags ++ exampleToTags)) as Hsame.
  { intros r s Hr. exfalso. revert Hr.
    unfold exampleFromTags, exampleToTags. simpl.
    rewrite !elem_of_cons, elem_of_nil.
    intros H; repeat destruct H as [H|H]; done. }
  split; [exact Hsame|].
  exact (shallow_diff_of_arrays_applies exampleNow "todo/1:r#tags" None
           exampleFromTags exampleToTags [] (freshWorld 0) (freshWorld 0)
           Hsame).
Defined.


Lemma shallow_diff_of_a_value_with_itself_witness :
  anyOid (AObject (Some "todo/1:r") (embedFields exampleToFields)) =
    Some "todo/1:r"
  ∧ Forall (λ item, ∃ v, flat item = Some v ∧ v ≠ Prim (PNumber NaN))
      (children (AObject (Some "todo/1:r") (embedFields exampleToFields)))
  ∧ NoDup (entries (AObject (Some "todo/1:r")
                      (embedFields exampleToFields))).*1
  ∧ shallowDiffToPatches exampleNow
      (AObject (Some "todo/1:r") (embedFields exampleToFields))
      (AObject (Some "todo/1:r") (embedFields exampleToFields)) []
      (freshWorld 0) = (inr [], freshWorld 0).
Proof.
  assert (anyOid (AObject (Some "todo/1:r") (embedFields exampleToFields)) =
            Some "todo/1:r") as Hoid by reflexivity.
  assert (Forall (λ item, ∃ v, flat item = Some v ∧ v ≠ Prim (PNumber NaN))
            (children (AObject (Some "todo/1:r")
                         (embedFields exampleToFields)))) as Hflat.
  { unfold exampleToFields. simpl.
    repeat constructor; eexists; (split; [reflexivity|discriminate]). }
  assert (NoDup (entries (AObject (Some "todo/1:r")
                            (embedFields exampleToFields))).*1) as Hnodup.
  { unfold exampleToFields. simpl.
    repeat constructor; rewrite ?elem_of_cons, ?elem_of_nil;
      intros H; repeat destruct H as [H|H]; done. }
  split; [exact Hoid|]. split; [exact Hflat|]. split; [exact Hnodup|].
  exact (shallow_diff_of_a_value_with_itself exampleNow _ _ [] (freshWorld 0)
           Hoid Hflat Hnodup).
Defined.

(** ** Properties of the grouping functions *)

Section Grouping.

Context {A : Type}.
Implicit Types (key : A → string) (items : list A).
Implicit Types (grouped : gmap string (list A)).

(** The loop, started from groups that are not empty and not under an
    inherited name: every group gets the items of its key appended, in
    order, and the loop throws exactly if one of the keys is an inherited
    name. *)
Lemma groupInto_run key items grouped :
  (∀ k group, grouped !! k = Some group →
              group ≠ [] ∧ k ∉ inheritedNames) →
  if bool_decide (Exists (λ item, key item ∈ inheritedNames) items)
  then groupInto key items grouped = Throw TypeError
  else ∃ result,
         groupInto key items grouped = Normal result
         ∧ ∀ k, result !! k =
                match grouped !! k with
                | Some group => Some (group ++ keyed key k items)
                | None => groupOf key items k
                end.
Proof.
  revert grouped. induction items as [|item rest IH]; intros grouped Hok.
  - rewrite bool_decide_eq_false_2 by (by intros ?%Exists_nil).
    exists grouped. split; [done|]. intros k. unfold groupOf, keyed. simpl.
    destruct (grouped !! k); [by rewrite app_nil_r|done].
  - cbn [groupInto].
    destruct (grouped !! key item) as [group|] eqn:Hgroup.
    + (* the key has a group already *)
      destruct (Hok _ _ Hgroup) as [Hne Hown].
      rewrite (bool_decide_eq_true_2 (is_Some (Some group) ∨ _))
        by (left; by eexists).
      specialize (IH (<[key item := group ++ [item]]> grouped)).
      assert (Exists (λ item, key item ∈ inheritedNames) (item :: rest)
              ↔ Exists (λ item, key item ∈ inheritedNames) rest) as Hiff.
      { rewrite Exists_cons. tauto. }
      rewrite (bool_decide_ext _ _ Hiff).
      destruct (bool_decide (Exists _ rest)).
      * apply IH. intros k g. destruct (decide (k = key item)) as [->|].
        -- rewrite lookup_insert_eq. intros [= <-]. split; [|done].
           by destruct group.
        -- rewrite lookup_insert_ne by done. apply Hok.
      * destruct IH as (result & -> & Hresult).
        { intros k g. destruct (decide (k = key item)) as [->|].
          - rewrite lookup_insert_eq. intros [= <-]. split; [|done].
            by destruct group.
          - rewrite lookup_insert_ne by done. apply Hok. }
        exists result. split; [done|]. intros k. rewrite Hresult.
        unfold keyed. destruct (decide (k = key item)) as [->|Hk].
        -- rewrite lookup_insert_eq, Hgroup, filter_cons_True by done.
           by rewrite <- app_assoc.
        -- rewrite lookup_insert_ne by done.
           rewrite (filter_cons_False _ item) by congruence.
           destruct (grouped !! k); [done|]. unfold groupOf, keyed.
           by rewrite (filter_cons_False _ item) by congruence.
    + destruct (decide (key item ∈ inheritedNames)) as [Hin|Hnot].
      * rewrite (bool_decide_eq_true_2 (is_Some None ∨ _)) by (by right).
        rewrite bool_decide_eq_true_2; [done|]. by apply Exists_cons_hd.
      * rewrite (bool_decide_eq_false_2 (is_Some None ∨ _))
          by (intros [[? ?]|?]; done).
        specialize (IH (<[key item := [item]]> grouped)).
        assert (Exists (λ item, key item ∈ inheritedNames) (item :: rest)
                ↔ Exists (λ item, key item ∈ inheritedNames) rest) as Hiff.
        { rewrite Exists_cons. tauto. }
        rewrite (bool_decide_ext _ _ Hiff).
        destruct (bool_decide (Exists _ rest)).
        -- apply IH. intros k g. destruct (decide (k = key item)) as [->|].
           ++ rewrite lookup_insert_eq. by intros [= <-].
           ++ rewrite lookup_insert_ne by done. apply Hok.
        -- destruct IH as (result & -> & Hresult).
           { intros k g. destruct (decide (k = key item)) as [->|].
             - rewrite lookup_insert_eq. by intros [= <-].
             - rewrite lookup_insert_ne by done. apply Hok. }
           exists result. split; [done|]. intros k. rewrite Hresult.
           unfold groupOf, keyed.
           destruct (decide (k = key item)) as [->|Hk].
           ++ by rewrite lookup_insert_eq, Hgroup, filter_cons_True by done.
           ++ rewrite lookup_insert_ne by done.
              by rewrite (filter_cons_False _ item) by congruence.
Qed.

End Grouping.

Section GroupingProperties.

Variable getOidRoot : ObjectIdentifier → ObjectIdentifier.

(** X15: grouping by OID puts every operation into the group of its OID
    and keeps the order of the list within each group; an OID without
    operations has no group.  An OID that is a name every object inherits
    ([constructor], [toString], ...) is found by the [in] test although no
    group was made for it, and the call of [push] on what is found throws a
    TypeError. *)
Theorem groupPatchesByIdentifier_groups (patches : list Operation) :
  if bool_decide (Exists (λ patch, op_oid patch ∈ inheritedNames) patches)
  then groupPatchesByIdentifier patches = Throw TypeError
  else ∃ grouped,
         groupPatchesByIdentifier patches = Normal grouped
         ∧ ∀ oid, grouped !! oid = groupOf op_oid patches oid.
Proof.
  pose proof (groupInto_run op_oid patches ∅) as H.
  unfold groupPatchesByIdentifier.
  destruct (bool_decide _); [by apply H|].
  destruct H as (grouped & -> & Hgrouped); [done|].
  exists grouped. split; [done|]. intros oid. by rewrite Hgrouped.
Qed.

(** X16: grouping operations, and baselines, by the root of their OID:
    the group of a root holds the items of that document, all of them and
    in the order of the list, and a root without items has no group.  A
    root that is a name every object inherits makes the call throw a
    TypeError. *)
Theorem groupByRootOid_groups (patches : list Operation)
    (baselines : list DocumentBaseline) :
  (if bool_decide (Exists (λ patch, getOidRoot (op_oid patch) ∈ inheritedNames)
                     patches)
   then groupPatchesByRootOid getOidRoot patches = Throw TypeError
   else ∃ grouped,
          groupPatchesByRootOid getOidRoot patches = Normal grouped
          ∧ ∀ root, grouped !! root =
                      groupOf (λ patch, getOidRoot (op_oid patch)) patches root)
  ∧ (if bool_decide (Exists (λ baseline,
                               getOidRoot (bl_oid baseline) ∈ inheritedNames)
                       baselines)
     then groupBaselinesByRootOid getOidRoot baselines = Throw TypeError
     else ∃ grouped,
            groupBaselinesByRootOid getOidRoot baselines = Normal grouped
            ∧ ∀ root, grouped !! root =
                        groupOf (λ baseline, getOidRoot (bl_oid baseline))
                          baselines root).
Proof.
  split.
  - pose proof (groupInto_run (λ patch, getOidRoot (op_oid patch)) patches ∅)
      as H.
    unfold groupPatchesByRootOid.
    destruct (bool_decide _); [by apply H|].
    destruct H as (grouped & -> & Hgrouped); [done|].
    exists grouped. split; [done|]. intros root. by rewrite Hgrouped.
  - pose proof (groupInto_run (λ baseline, getOidRoot (bl_oid baseline))
                  baselines ∅) as H.
    unfold groupBaselinesByRootOid.
    destruct (bool_decide _); [by apply H|].
    destruct H as (grouped & -> & Hgrouped); [done|].
    exists grouped. split; [done|]. intros root. by rewrite Hgrouped.
Qed.

End GroupingProperties.

(** ** Properties of [migrationRange] *)

Section MigrationRange.

Implicit Types (from to v : Z).

Lemma migrationRange_seqZ from to :
  (0 ≤ to - from < 2 ^ 32)%Z →
  migrationRange from to = inr (seqZ (from + 1) (to - from)).
Proof.
  intros H. unfold migrationRange. rewrite bool_decide_eq_true_2 by done.
  f_equal. unfold seqZ. apply list_fmap_ext. intros _ i _. simpl. lia.
Qed.


(** X18: the versions from [a] to [b], followed by those from [b] to [c],
    are the versions from [a] to [c]. *)
Theorem migrationRange_app (a b c : Z) :
  (a ≤ b ≤ c)%Z → (c - a < 2 ^ 32)%Z →
  ∃ first second,
    migrationRange a b = inr first
    ∧ migrationRange b c = inr second
    ∧ migrationRange a c = inr (first ++ second).
Proof.
  intros Horder Hsmall.
  exists (seqZ (a + 1) (b - a)), (seqZ (b + 1) (c - b)).
  rewrite !migrationRange_seqZ by lia. split; [done|]. split; [done|].
  f_equal. replace (c - a)%Z with ((b - a) + (c - b))%Z by lia.
  rewrite seqZ_app by lia. do 2 f_equal. lia.
Qed.

End MigrationRange.

Lemma migrationRange_app_witness :
  (1 ≤ 3 ≤ 4)%Z ∧ (4 - 1 < 2 ^ 32)%Z
  ∧ ∃ first second,
      migrationRange 1 3 = inr first
      ∧ migrationRange 3 4 = inr second
      ∧ migrationRange 1 4 = inr (first ++ second).
Proof.
  assert (1 ≤ 3 ≤ 4)%Z as Horder by lia.
  assert (4 - 1 < 2 ^ 32)%Z as Hsmall by lia.
  split; [exact Horder|]. split; [exact Hsmall|].
  exact (migrationRange_app 1 3 4 Horder Hsmall).
Defined.

(** ** [rebase], a second time *)

Section RebaseAgain.

Import Metadata.

Implicit Types (store : gmap OperationKey (OperationPatch * bool)).
Implicit Types (rows : list OperationRow) (row : OperationRow).
Implicit Types (baseline : option DocumentBaseline) (w : World).

Lemma applyPatch_not_null base patch w r w' :
  base ≠ Null → applyPatch base patch w = (Normal r, w') → returned r ≠ Null.
Proof.
  intros Hbase. unfold applyPatch, bind, ret, throw, lift.
  destruct base as [| |o], patch; try done;
    repeat case_match; intros; by simplify_eq.
Qed.

Lemma foldPatches_not_null cur operations w cur' w' :
  cur ≠ Null → foldPatches cur operations w = (Normal cur', w') → cur' ≠ Null.
Proof.
  revert cur w. induction operations as [|op ops IH]; intros cur w Hcur; simpl.
  - by intros [= <- <-].
  - unfold bind.
    destruct (applyPatch cur (op_data op) w) as [[r|e] w1] eqn:E; [|done].
    apply IH. by eapply applyPatch_not_null.
Qed.

Lemma snapshotOrUndefined_not_null baseline :
  snapshotOrUndefined baseline ≠ Null.
Proof. destruct baseline as [[oid [| |o] t]|]; done. Qed.

Lemma operationsForEntity_nil store oid to :
  (∀ k, k.1 = oid → ts_le k.2 to → store !! k = None) →
  operationsForEntity store oid to = [].
Proof.
  intros Hnone.
  destruct (operationsForEntity store oid to) as [|row rows] eqn:E; [done|].
  assert (row ∈ operationsForEntity store oid to) as Hrow
    by (rewrite E; apply list_elem_of_here).
  apply elem_of_operationsForEntity in Hrow as [Hlookup [Hoid Hts]].
  by rewrite Hnone in Hlookup.
Qed.

(** X19: [rebase] is idempotent.  Once [rebase(oid, T)] has completed, a
    second [rebase(oid, T)] finds no row to fold, answers the same baseline
    and leaves the tables as they are. *)
Theorem rebase_again db oid T w newBaseline db' w' :
  rebase db oid T w = (Normal (newBaseline, db'), w') →
  rebase db' oid T w' = (Normal (newBaseline, db'), w').
Proof.
  intros Hrun. set (prior := baselines db !! oid).
  set (scanned := operationsForEntity (operations db) oid T).
  unfold rebase in Hrun. unfold bind at 1 in Hrun.
  fold prior scanned in Hrun.
  destruct (rebaseRows prior scanned (snapshotOrUndefined prior)
              (operations db) w) as [[[folded store]|e] w1] eqn:Hrows;
    [|done].
  apply rebaseRows_folds in Hrows as [Hfold ->].
  apply foldPatches_not_null in Hfold as Hnotnull;
    [|apply snapshotOrUndefined_not_null].
  assert (operationsForEntity (deleteRows (operations db) scanned) oid T = [])
    as Hempty.
  { apply operationsForEntity_nil. intros k Hoid Hts.
    rewrite lookup_deleteRows.
    destruct (decide (k ∈ scanned.*1)) as [|Hnot]; [done|].
    destruct (operations db !! k) as [v|] eqn:Hv; [|done].
    destruct Hnot. apply list_elem_of_fmap. exists (k, v). split; [done|].
    by apply elem_of_operationsForEntity. }
  destruct folded as [| |o]; [|done|].
  - (* the sub-object is deleted: no baseline is left *)
    simpl in Hrun. unfold ret in Hrun. injection Hrun as <- <- <-.
    unfold rebase. cbn [baselines operations schema].
    rewrite lookup_delete_eq, Hempty. simpl. unfold bind, ret. simpl.
    by rewrite delete_delete_eq.
  - (* the baseline holds the folded snapshot *)
    simpl in Hrun. unfold ret in Hrun. injection Hrun as <- <- <-.
    unfold rebase. cbn [baselines operations schema].
    rewrite lookup_insert_eq, Hempty. simpl. unfold bind, ret. simpl.
    assert (assignOid (assignOid o oid) oid = assignOid o oid) as ->
      by (by destruct o).
    by rewrite insert_insert_eq.
Qed.

End RebaseAgain.

Lemma rebase_again_witness :
  Metadata.rebase exampleDb "todo/1:r" "3" (freshWorld 0) =
    (Normal (exampleBaseline, exampleDbAfter), freshWorld 1)
  ∧ Metadata.rebase exampleDbAfter "todo/1:r" "3" (freshWorld 1) =
      (Normal (exampleBaseline, exampleDbAfter), freshWorld 1).
Proof.
  assert (Metadata.rebase exampleDb "todo/1:r" "3" (freshWorld 0) =
            (Normal (exampleBaseline, exampleDbAfter), freshWorld 1)) as Hrun
    by (vm_compute; reflexivity).
  split; [exact Hrun|].
  exact (rebase_again exampleDb "todo/1:r" "3" (freshWorld 0) exampleBaseline
           exampleDbAfter (freshWorld 1) Hrun).
Defined.

(** ** Instances of the further diff theorems *)

Lemma diffToPatches_emits_witness :
  diffToPatches exampleNow exampleSubId exampleSubOid exampleOptions
    exampleReplaceFrom exampleReplaceTo [] [] (freshWorld 0) =
    (Normal exampleReplaceOps, mkWorld 1 [] 3 1)
  ∧ ∃ added,
      exampleReplaceOps = [] ++ added
      ∧ Forall (λ op, diffPatch (op_data op) = true) added
      ∧ (defaultUndefined exampleOptions = true →
         Forall (λ op, isRemove (op_data op) = false) added).
Proof.
  assert (diffToPatches exampleNow exampleSubId exampleSubOid exampleOptions
            exampleReplaceFrom exampleReplaceTo [] [] (freshWorld 0) =
          (Normal exampleReplaceOps, mkWorld 1 [] 3 1)) as Hrun
    by reflexivity.
  split; [exact Hrun|].
  exact (diffToPatches_emits exampleNow exampleSubId exampleSubOid
           exampleOptions exampleReplaceFrom exampleReplaceTo [] []
           (freshWorld 0) exampleReplaceOps (mkWorld 1 [] 3 1) Hrun).
Defined.

Lemma diffToPatches_same_witness :
  isObject exampleNested = true
  ∧ stampedThroughout exampleNested
  ∧ diffToPatches exampleNow exampleSubId exampleSubOid exampleOptions
      exampleNested exampleNested [] [] (freshWorld 0) =
      (Normal [], freshWorld 0).
Proof.
  assert (isObject exampleNested = true) as Hobj by reflexivity.
  assert (∀ keys : list string,
            bool_decide (NoDup keys) = true → NoDup keys) as Hkeys
    by (intros keys; apply bool_decide_eq_true).
  assert (stampedThroughout exampleNested) as Hstamped.
  { unfold exampleNested, exampleOldSub, number.
    apply stamped_object; [by apply Hkeys|].
    repeat first
      [ apply Forall_nil_2 | apply Forall_cons_2
      | apply stamped_prim; discriminate
      | apply stamped_array
      | apply stamped_object; [by apply Hkeys|] ]. }
  split; [exact Hobj|]. split; [exact Hstamped|].
  exact (diffToPatches_same exampleNow exampleSubId exampleSubOid
           exampleOptions exampleNested [] [] (freshWorld 0) Hobj Hstamped).
Defined.

(** ** Properties of [substituteFirstLevelObjectsWithRefs] and [dereference] *)

Section FirstLevel.

Implicit Types (base value : Any) (w : World).
Implicit Types (refObjects : gmap ObjectIdentifier Any).

Lemma substituteSlot_run value refObjects w :
  substituteSlot value refObjects w =
    if isObjectAny value then
      match anyOid value with
      | Some oid =>
          (Normal (ARef (mkRef (next_ident w) oid), <[oid := value]> refObjects),
           mkWorld (next_ident w + 1) (console w) (now_calls w) (subid_calls w))
      | None => (Throw AssertionFailed, w)
      end
    else (Normal (value, refObjects), w).
Proof.
  unfold substituteSlot. destruct (isObjectAny value); [|done].
  unfold bind, getAnyOid. by destruct (anyOid value).
Qed.

Lemma substituteItems_run items refObjects w :
  match substituteItems items refObjects w with
  | (Normal (items', refObjects'), w') =>
      allStamped items = true
      ∧ refObjects' = entered refObjects items
      ∧ Forall2 standsFor items items'
  | (Throw e, w') => allStamped items = false ∧ e = AssertionFailed
  end.
Proof.
  revert refObjects w.
  induction items as [|item rest IH]; intros refObjects w; [done|].
  cbn [substituteItems allStamped forallb]. unfold bind at 1.
  rewrite substituteSlot_run. fold (allStamped rest).
  destruct (isObjectAny item) eqn:Hobj; cbn [negb orb].
  - destruct (anyOid item) as [oid|] eqn:Hoid.
    + rewrite bool_decide_eq_true_2 by (by eexists). cbn [andb].
      specialize (IH (<[oid := item]> refObjects)
        (mkWorld (next_ident w + 1) (console w) (now_calls w)
           (subid_calls w))).
      unfold bind.
      destruct (substituteItems rest _ _) as [[[items' refs']|e] w'];
        [|done].
      destruct IH as (Hall & -> & Hstands). split; [done|]. split.
      * cbn [entered foldl]. by rewrite Hoid, Hobj.
      * constructor; [|done]. unfold standsFor. rewrite Hobj. by eexists.
    + by rewrite bool_decide_eq_false_2 by (by intros [? ?]).
  - specialize (IH refObjects w). unfold bind.
    destruct (substituteItems rest _ _) as [[[items' refs']|e] w']; [|done].
    destruct IH as (Hall & -> & Hstands). split; [done|]. split.
    + cbn [entered foldl]. rewrite Hobj. by destruct (anyOid item).
    + constructor; [|done]. unfold standsFor. by rewrite Hobj.
Qed.

Lemma substituteFields_items fields refObjects w :
  substituteFields fields refObjects w =
    match substituteItems fields.*2 refObjects w with
    | (Normal (values, refObjects'), w') =>
        (Normal (zip fields.*1 values, refObjects'), w')
    | (Throw e, w') => (Throw e, w')
    end.
Proof.
  revert refObjects w. induction fields as [|[key value] rest IH];
    intros refObjects w; [done|].
  rewrite !fmap_cons. cbn [substituteFields substituteItems fst snd].
  unfold bind at 1 3.
  destruct (substituteSlot value refObjects w) as [[[value' refs1]|e] w1];
    [|done].
  unfold bind. rewrite IH.
  by destruct (substituteItems rest.*2 refs1 w1) as [[[values refs2]|e] w2].
Qed.

(** What a call that returns has done. *)
Lemma substituteFirstLevel_returns base refObjects w base' refObjects' w' :
  substituteFirstLevelObjectsWithRefs base refObjects w =
    (Normal (base', refObjects'), w') →
  allStamped (children base) = true
  ∧ refObjects' = entered refObjects (children base)
  ∧ Forall2 standsFor (children base) (children base')
  ∧ isArrayAny base' = isArrayAny base
  ∧ anyOid base' = anyOid base
  ∧ (entries base').*1 = (entries base).*1.
Proof.
  destruct base as [[s|n|b| |]|r|oid fields|oid items]; simpl;
    try (intros [= <- <- <-]; split_and!; try done; by repeat constructor);
    try done.
  - (* an object *)
    unfold bind. rewrite substituteFields_items.
    pose proof (substituteItems_run fields.*2 refObjects w) as Hrun.
    destruct (substituteItems fields.*2 refObjects w)
      as [[[values refs']|e] w1]; [|done].
    destruct Hrun as (Hall & -> & Hstands). intros [= <- <- <-]. simpl.
    apply Forall2_length in Hstands as Hlen. rewrite !length_fmap in Hlen.
    rewrite snd_zip, fst_zip by (rewrite length_fmap; lia). done.
  - (* an array *)
    unfold bind.
    pose proof (substituteItems_run items refObjects w) as Hrun.
    destruct (substituteItems items refObjects w)
      as [[[values refs']|e] w1]; [|done].
    destruct Hrun as (Hall & -> & Hstands). by intros [= <- <- <-].
Qed.

(** X20: [substituteFirstLevelObjectsWithRefs] returns exactly if every
    object in a slot of [base] carries an OID, and fails the assertion of
    [getOid] otherwise; a ref counts as an object without OID, so a base that
    holds a ref already makes the call throw.  When it returns, [base] has
    kept its shape, its OID and its keys, every object in it has given way
    to a ref to its OID while everything else is as it was, and the objects
    have been entered in the map under their OIDs, in order. *)
Theorem substituteFirstLevelObjectsWithRefs_outcome base refObjects w :
  isObjectAny base = true →
  if allStamped (children base) then
    ∃ base' w',
      substituteFirstLevelObjectsWithRefs base refObjects w =
        (Normal (base', entered refObjects (children base)), w')
      ∧ Forall2 standsFor (children base) (children base')
      ∧ isArrayAny base' = isArrayAny base
      ∧ anyOid base' = anyOid base
      ∧ (entries base').*1 = (entries base).*1
  else
    ∃ w', substituteFirstLevelObjectsWithRefs base refObjects w =
            (Throw AssertionFailed, w').
Proof.
  intros Hbase.
  destruct (substituteFirstLevelObjectsWithRefs base refObjects w)
    as [[[base' refs']|e] w'] eqn:Hrun.
  - apply substituteFirstLevel_returns in Hrun as (-> & -> & ? & ? & ? & ?).
    by eexists _, _.
  - assert (allStamped (children base) = false ∧ e = AssertionFailed)
      as [-> ->]; [|by eexists].
    destruct base as [p|r|oid fields|oid items]; try done;
      simpl in Hrun; unfold bind in Hrun.
    + rewrite substituteFields_items in Hrun.
      pose proof (substituteItems_run fields.*2 refObjects w) as H.
      destruct (substituteItems fields.*2 refObjects w)
        as [[[values refs']|e'] w1]; [done|].
      injection Hrun as <- <-. exact H.
    + pose proof (substituteItems_run items refObjects w) as H.
      destruct (substituteItems items refObjects w)
        as [[[values refs']|e'] w1]; [done|].
      injection Hrun as <- <-. exact H.
Qed.

Lemma entered_lookup_other values refObjects oid :
  Some oid ∉ objectOids values →
  entered refObjects values !! oid = refObjects !! oid.
Proof.
  revert refObjects. unfold objectOids.
  induction values as [|value rest IH]; intros refObjects Hnot; [done|].
  cbn [entered foldl]. fold (entered).
  destruct (isObjectAny value) eqn:Hobj.
  - rewrite filter_cons_True, fmap_cons in Hnot by done.
    apply not_elem_of_cons in Hnot as [Hne Hnot].
    destruct (anyOid value) as [o|] eqn:Ho.
    + unfold entered in IH. rewrite IH by done.
      apply lookup_insert_ne. congruence.
    + unfold entered in IH. by rewrite IH.
  - rewrite filter_cons_False in Hnot by (by rewrite Hobj).
    unfold entered in IH. destruct (anyOid value); by rewrite IH.
Qed.

Lemma dereferenceAll_entered values :
  ∀ values' (before : gmap ObjectIdentifier Any) used w,
    Forall2 standsFor values values' →
    NoDup (objectOids values) →
    dereferenceAll values' (entered before values) used w =
      (Normal (values, used ++ objectIds values), w).
Proof.
  unfold objectOids.
  induction values as [|value rest IH];
    intros values' before used w Hstands Hnodup.
  - apply Forall2_nil_inv_l in Hstands as ->. simpl. unfold ret.
    by rewrite app_nil_r.
  - apply Forall2_cons_inv_l in Hstands as (new & rest' & Hnew & Hrest & ->).
    cbn [dereferenceAll]. unfold standsFor in Hnew.
    cbn [entered foldl objectIds omap list_omap]. fold (entered).
    destruct (isObjectAny value) eqn:Hobj.
    + destruct Hnew as (r & -> & Hoid). rewrite Hoid.
      rewrite filter_cons_True, fmap_cons in Hnodup by done.
      apply NoDup_cons in Hnodup as [Hfresh Hnodup]. rewrite Hoid in Hfresh.
      unfold bind at 1. cbn [dereference].
      fold (entered (<[id r := value]> before) rest).
      rewrite entered_lookup_other by done. rewrite lookup_insert_eq.
      assert (truthyAny value = true) as -> by (by destruct value).
      assert (assignAnyOid value (id r) = value) as ->.
      { destruct value; simpl in *; try done; by rewrite Hoid. }
      unfold ret at 1. unfold bind.
      rewrite (IH rest' (<[id r := value]> before) (used ++ [id r]) w)
        by done.
      unfold ret. by rewrite <- app_assoc.
    + subst new. rewrite filter_cons_False in Hnodup by (by rewrite Hobj).
      destruct value as [p| | |]; try done. simpl.
      unfold bind at 1. cbn [dereference]. unfold ret at 1. unfold bind.
      fold (entered before rest).
      rewrite (IH rest' before used w) by done. done.
Qed.

(** X21: what [substituteFirstLevelObjectsWithRefs] took out,
    [dereference] puts back.  When the objects in the slots of [base] have
    OIDs of their own, each different from the others, dereferencing the
    slots of the substituted base against the map that was filled answers
    the slots of [base] as they were, and uses the OIDs of the objects, in
    order. *)
Theorem dereference_substituted base w base' refObjects' w' used w0 :
  substituteFirstLevelObjectsWithRefs base ∅ w =
    (Normal (base', refObjects'), w') →
  NoDup (objectOids (children base)) →
  dereferenceAll (children base') refObjects' used w0 =
    (Normal (children base, used ++ objectIds (children base)), w0).
Proof.
  intros Hrun Hnodup.
  apply substituteFirstLevel_returns in Hrun as (_ & -> & Hstands & _).
  by apply dereferenceAll_entered.
Qed.

End FirstLevel.

Lemma substituteFirstLevelObjectsWithRefs_outcome_witness :
  isObjectAny exampleAny = true
  ∧ if allStamped (children exampleAny) then
      ∃ base' w',
        substituteFirstLevelObjectsWithRefs exampleAny ∅ (freshWorld 0) =
          (Normal (base', entered ∅ (children exampleAny)), w')
        ∧ Forall2 standsFor (children exampleAny) (children base')
        ∧ isArrayAny base' = isArrayAny exampleAny
        ∧ anyOid base' = anyOid exampleAny
        ∧ (entries base').*1 = (entries exampleAny).*1
    else
      ∃ w', substituteFirstLevelObjectsWithRefs exampleAny ∅ (freshWorld 0) =
              (Throw AssertionFailed, w').
Proof.
  assert (isObjectAny exampleAny = true) as Hobj by reflexivity.
  split; [exact Hobj|].
  exact (substituteFirstLevelObjectsWithRefs_outcome exampleAny ∅
           (freshWorld 0) Hobj).
Defined.

Lemma dereference_substituted_witness :
  substituteFirstLevelObjectsWithRefs exampleAny ∅ (freshWorld 0) =
    (Normal
       (AObject (Some "todo/a:x")
          [("id", APrim (PString "a"));
           ("sub", ARef (mkRef 0 "todo/a:x#sub"));
           ("tags", ARef (mkRef 1 "todo/a:x#tags"))],
        entered ∅ (children exampleAny)), mkWorld 2 [] 0 0)
  ∧ NoDup (objectOids (children exampleAny))
  ∧ dereferenceAll
      [APrim (PString "a"); ARef (mkRef 0 "todo/a:x#sub");
       ARef (mkRef 1 "todo/a:x#tags")]
      (entered ∅ (children exampleAny)) [] (freshWorld 2) =
      (Normal (children exampleAny, ["todo/a:x#sub"; "todo/a:x#tags"]),
       freshWorld 2).
Proof.
  assert (substituteFirstLevelObjectsWithRefs exampleAny ∅ (freshWorld 0) =
            (Normal
               (AObject (Some "todo/a:x")
                  [("id", APrim (PString "a"));
                   ("sub", ARef (mkRef 0 "todo/a:x#sub"));
                   ("tags", ARef (mkRef 1 "todo/a:x#tags"))],
                entered ∅ (children exampleAny)), mkWorld 2 [] 0 0)) as Hrun
    by reflexivity.
  assert (NoDup (objectOids (children exampleAny))) as Hnodup.
  { unfold exampleAny, objectOids. simpl.
    repeat constructor; rewrite ?elem_of_cons, ?elem_of_nil;
      intros H; repeat destruct H as [H|H]; done. }
  split; [exact Hrun|]. split; [exact Hnodup|].
  exact (dereference_substituted exampleAny (freshWorld 0) _ _ _ []
           (freshWorld 2) Hrun Hnodup).
Defined.

(** ** Properties of [getIndexes] and [migrate] *)

Section MigrationProperties.

Import Migrations.

Context {Rest : Type}.
Variable stableStringify : Looked (CollectionSchema Rest) → option string.

Lemma get_Own {A} (obj : list (string * A)) key :
  key ∈ obj.*1 → ∃ a, get obj key = Own a ∧ (key, a) ∈ obj.
Proof.
  unfold get. intros Hin.
  destruct (list_find (λ kv, kv.1 = key) obj) as [[i [k a]]|] eqn:Hfind.
  - apply list_find_Some in Hfind as (Hi & Hk & _). simpl in Hk. subst k.
    exists a. split; [done|]. by eapply list_elem_of_lookup_2.
  - apply list_find_None in Hfind.
    apply list_elem_of_fmap in Hin as ([k a] & -> & Hin).
    by apply (proj1 (Forall_forall _ _) Hfind) in Hin.
Qed.

Lemma get_not_Own {A} (obj : list (string * A)) key :
  key ∉ obj.*1 →
  get obj key = if bool_decide (key ∈ inheritedNames) then Inherited key
                else Missing.
Proof.
  unfold get. intros Hnot.
  destruct (list_find (λ kv, kv.1 = key) obj) as [[i [k a]]|] eqn:Hfind;
    [|done].
  apply list_find_Some in Hfind as (Hi & Hk & _). simpl in Hk. subst k.
  destruct Hnot. apply list_elem_of_fmap. exists (key, a).
  split; [done|]. by eapply list_elem_of_lookup_2.
Qed.

Lemma absentFrom_iff {A} (obj : list (string * A)) key :
  absentFrom obj key = true ↔ (key ∉ obj.*1) ∧ (key ∉ inheritedNames).
Proof.
  unfold absentFrom. destruct (decide (key ∈ obj.*1)) as [Hin|Hnot].
  - destruct (get_Own obj key Hin) as (a & -> & _). split; [done|tauto].
  - rewrite get_not_Own by done.
    destruct (bool_decide_reflect (key ∈ inheritedNames)); split;
      try done; tauto.
Qed.

Lemma componentIsArray_resolvable (collection : CollectionSchema Rest)
    fieldName :
  fieldName ∈ (fields collection).*1
  ∨ fieldName ∈ (default [] (synthetics collection)).*1 →
  ∃ b, componentIsArray collection fieldName = Normal b.
Proof.
  intros H. unfold componentIsArray.
  destruct (decide (fieldName ∈ (fields collection).*1)) as [Hin|Hnot].
  - destruct (get_Own _ _ Hin) as (f & -> & _). by eexists.
  - destruct H as [?|Hin]; [done|]. rewrite get_not_Own by done.
    destruct (bool_decide _); [by eexists|].
    destruct (synthetics collection) as [synths|]; simpl in Hin;
      [|by apply elem_of_nil in Hin].
    destruct (get_Own _ _ Hin) as (s & -> & _). by eexists.
Qed.

Lemma someOf_returns p names :
  (∀ fieldName, fieldName ∈ names → ∃ b, p fieldName = Normal b) →
  ∃ b, someOf p names = Normal b.
Proof.
  induction names as [|fieldName rest IH]; intros Hp; simpl; [by eexists|].
  destruct (Hp fieldName) as [[|] ->]; [apply list_elem_of_here|by eexists|].
  apply IH. intros n Hn. by apply Hp, list_elem_of_further.
Qed.

Lemma compoundIndexes_returns (collection : CollectionSchema Rest) entries :
  (∀ key description fieldName,
     (key, description) ∈ entries →
     fieldName ∈ compound_of description →
     fieldName ∈ (fields collection).*1
     ∨ fieldName ∈ (default [] (synthetics collection)).*1) →
  ∃ indexes,
    compoundIndexes collection entries = Normal indexes
    ∧ name <$> indexes = entries.*1
    ∧ Forall (λ index, compound index = true ∧ synthetic index = false)
        indexes.
Proof.
  induction entries as [|[key description] rest IH]; intros Hok; simpl.
  - by exists [].
  - destruct (someOf_returns (componentIsArray collection)
                (compound_of description)) as [multi ->].
    { intros n Hn. apply componentIsArray_resolvable.
      apply (Hok key description n); [apply list_elem_of_here|done]. }
    destruct IH as (indexes & -> & Hnames & Hflags).
    { intros k d n Hk. apply (Hok k d n). by apply list_elem_of_further. }
    eexists. split; [done|]. split.
    + rewrite fmap_cons. simpl. by f_equal.
    + by constructor.
Qed.

Lemma filter_all {A} (P : A → Prop) `{∀ x, Decision (P x)} (l : list A) :
  Forall P l → filter P l = l.
Proof.
  induction 1 as [|x l Hx _ IH]; [done|].
  rewrite filter_cons_True by done. by f_equal.
Qed.

Lemma filter_none {A} (P : A → Prop) `{∀ x, Decision (P x)} (l : list A) :
  Forall (λ x, ¬ P x) l → filter P l = [].
Proof.
  induction 1 as [|x l Hx _ IH]; [done|]. by rewrite filter_cons_False.
Qed.

(** X22: of a collection whose compound indexes are made of its own fields
    and synthetics, [getIndexes] returns the indexes named after the
    indexed fields, then the synthetics, then the compounds, each in the
    order of the schema; the ones flagged [synthetic] are the synthetics
    and the ones flagged [compound] the compounds. *)
Theorem getIndexes_lists_indexes (collection : CollectionSchema Rest) :
  resolvable collection →
  ∃ indexes,
    getIndexes (Own collection) = Normal indexes
    ∧ name <$> indexes =
        (filter (λ kv, indexed kv.2 = true) (fields collection)).*1
        ++ (default [] (synthetics collection)).*1
        ++ (default [] (compounds collection)).*1
    ∧ name <$> filter (λ index, synthetic index = true) indexes =
        (default [] (synthetics collection)).*1
    ∧ name <$> filter (λ index, compound index = true) indexes =
        (default [] (compounds collection)).*1.
Proof.
  intros Hok.
  destruct (compoundIndexes_returns collection
              (default [] (compounds collection)))
    as (compoundOnes & Hrun & Hnames & Hflags).
  { intros key d n. apply Hok. }
  assert (name <$> fieldIndexes collection =
            (filter (λ kv, indexed kv.2 = true) (fields collection)).*1)
    as Hfields.
  { unfold fieldIndexes. rewrite <- list_fmap_compose.
    by apply list_fmap_ext. }
  assert (name <$> syntheticIndexes collection =
            (default [] (synthetics collection)).*1) as Hsynths.
  { unfold syntheticIndexes. rewrite <- list_fmap_compose.
    by apply list_fmap_ext. }
  eexists. unfold getIndexes. rewrite Hrun. split; [done|]. split_and!.
  - by rewrite !fmap_app, Hfields, Hsynths, Hnames.
  - rewrite !filter_app.
    rewrite (filter_none _ (fieldIndexes collection)),
      (filter_all _ (syntheticIndexes collection)),
      (filter_none _ compoundOnes).
    + by rewrite app_nil_r.
    + eapply Forall_impl; [exact Hflags|]. intros i [_ ->]. done.
    + unfold syntheticIndexes. by apply Forall_fmap, Forall_true.
    + unfold fieldIndexes. by apply Forall_fmap, Forall_true.
  - rewrite !filter_app.
    rewrite (filter_none _ (fieldIndexes collection)),
      (filter_none _ (syntheticIndexes collection)),
      (filter_all _ compoundOnes).
    + done.
    + eapply Forall_impl; [exact Hflags|]. by intros i [-> _].
    + unfold syntheticIndexes. by apply Forall_fmap, Forall_true.
    + unfold fieldIndexes. by apply Forall_fmap, Forall_true.
Qed.

Lemma assign_lookup {A} (obj : gmap string A) key value k v :
  assign obj key value !! k = Some v →
  (k = key ∧ v = value) ∨ obj !! k = Some v.
Proof.
  unfold assign. destruct (bool_decide (key = "__proto__")); [by right|].
  destruct (decide (k = key)) as [->|Hne].
  - rewrite lookup_insert_eq. intros [= <-]. by left.
  - rewrite lookup_insert_ne by done. by right.
Qed.

(** The loop over the changed collections records index deltas only. *)
Lemma indexChanges_deltas (old new : StorageSchema Rest) every changed
    added removed added' removed' :
  indexChanges old new changed added removed = Normal (added', removed') →
  (∀ c, c ∈ changed → c ∈ every) →
  (∀ c indexes, added !! c = Some indexes →
                indexDelta old new every c indexes) →
  (∀ c indexes, removed !! c = Some indexes →
                indexDelta new old every c indexes) →
  (∀ c indexes, added' !! c = Some indexes →
                indexDelta old new every c indexes)
  ∧ (∀ c indexes, removed' !! c = Some indexes →
                  indexDelta new old every c indexes).
Proof.
  revert added removed.
  induction changed as [|collection rest IH];
    intros added removed Hrun Hsub Hadded Hremoved.
  - injection Hrun as <- <-. done.
  - cbn [indexChanges] in Hrun.
    destruct (getIndexes (get (collections old) collection))
      as [oldIndexes|e] eqn:Hold; [|done].
    destruct (getIndexes (get (collections new) collection))
      as [newIndexes|e] eqn:Hnew; [|done].
    apply IH in Hrun; [done| | |].
    + intros c Hc. by apply Hsub, list_elem_of_further.
    + intros c indexes.
      destruct (bool_decide_reflect
                  (0 < length (filter (λ i, unknownIn oldIndexes i = true)
                                 newIndexes))) as [Hlen|_]; [|apply Hadded].
      intros [[-> ->]|H]%assign_lookup; [|by apply Hadded].
      split; [apply Hsub, list_elem_of_here|]. split.
      * intros E. rewrite E in Hlen. simpl in Hlen. lia.
      * by exists oldIndexes, newIndexes.
    + intros c indexes.
      destruct (bool_decide_reflect
                  (0 < length (filter (λ i, unknownIn newIndexes i = true)
                                 oldIndexes))) as [Hlen|_]; [|apply Hremoved].
      intros [[-> ->]|H]%assign_lookup; [|by apply Hremoved].
      split; [apply Hsub, list_elem_of_here|]. split.
      * intros E. rewrite E in Hlen. simpl in Hlen. lia.
      * by exists newIndexes, oldIndexes.
Qed.

Lemma migrate_deltas old new m :
  migrate stableStringify old new = Normal m →
  (∀ c indexes, addedIndexes m !! c = Some indexes →
                indexDelta old new (changedCollections m) c indexes)
  ∧ (∀ c indexes, removedIndexes m !! c = Some indexes →
                  indexDelta new old (changedCollections m) c indexes).
Proof.
  unfold migrate. set (changed := filter _ (collections new).*1).
  destruct (indexChanges old new changed ∅ ∅) as [[added removed]|e] eqn:Hrun;
    [|done].
  intros [= <-]. cbn [addedIndexes removedIndexes changedCollections].
  by eapply indexChanges_deltas.
Qed.

(** X23: what [migrate] reports about indexes.  An entry of [addedIndexes]
    belongs to a changed collection, is not empty, and holds the indexes of
    the new schema whose name the old schema has no index for; an entry of
    [removedIndexes] holds the indexes of the old schema whose name the new
    one has none for.  No index name is reported both as added and as
    removed for a collection. *)
Theorem migrate_index_changes old new m :
  migrate stableStringify old new = Normal m →
  (∀ c indexes, addedIndexes m !! c = Some indexes →
                indexDelta old new (changedCollections m) c indexes)
  ∧ (∀ c indexes, removedIndexes m !! c = Some indexes →
                  indexDelta new old (changedCollections m) c indexes)
  ∧ ∀ c added removed i j,
      addedIndexes m !! c = Some added →
      removedIndexes m !! c = Some removed →
      i ∈ added → j ∈ removed → name i ≠ name j.
Proof.
  intros Hrun. destruct (migrate_deltas old new m Hrun) as [Hadded Hremoved].
  split; [done|]. split; [done|].
  intros c added removed i j Ha Hr Hi Hj Hname.
  destruct (Hadded _ _ Ha) as (_ & _ & o & n & Ho & Hn & ->).
  destruct (Hremoved _ _ Hr) as (_ & _ & n' & o' & Hn' & Ho' & ->).
  rewrite Ho in Ho'. rewrite Hn in Hn'. injection Ho' as <-.
  injection Hn' as <-. unfold notAmong in Hi, Hj.
  apply list_elem_of_filter in Hi as [Hi _].
  apply list_elem_of_filter in Hj as [_ Hj].
  unfold unknownIn in Hi. apply negb_true_iff, bool_decide_eq_false in Hi.
  apply Hi. rewrite Hname. apply list_elem_of_fmap. by exists j.
Qed.

(** X24: what [migrate] reports about collections.  [allCollections] are
    the collections of the new schema, and the changed ones are among them;
    a collection is reported as added if the new schema has it and the old
    one has not, as removed if the old schema has it and the new one has
    not, and never as both.  A collection whose name every object inherits
    ([constructor], [toString], ...) is found in the schema that lacks it
    and is reported neither as added nor as removed. *)
Theorem migrate_collections old new m :
  migrate stableStringify old new = Normal m →
  migration_version m = version new
  ∧ oldSchema m = old ∧ newSchema m = new
  ∧ allCollections m = (collections new).*1
  ∧ (∀ c, c ∈ changedCollections m → c ∈ allCollections m)
  ∧ (∀ c, c ∈ addedCollections m ↔
          c ∈ (collections new).*1 ∧ (c ∉ (collections old).*1)
          ∧ (c ∉ inheritedNames))
  ∧ (∀ c, c ∈ removedCollections m ↔
          c ∈ (collections old).*1 ∧ (c ∉ (collections new).*1)
          ∧ (c ∉ inheritedNames))
  ∧ (∀ c, c ∈ addedCollections m → c ∉ removedCollections m).
Proof.
  unfold migrate. set (changed := filter _ (collections new).*1).
  destruct (indexChanges old new changed ∅ ∅) as [[added removed]|e];
    [|done].
  intros [= <-]. simpl. split_and!; try done.
  - intros c Hc. unfold changed in Hc.
    by apply list_elem_of_filter in Hc as [_ ?].
  - intros c. rewrite list_elem_of_filter, absentFrom_iff. tauto.
  - intros c. rewrite list_elem_of_filter, absentFrom_iff. tauto.
  - intros c. rewrite !list_elem_of_filter, !absentFrom_iff. tauto.
Qed.

(** X25: the first migration, [createDefaultMigration(schema)] without a
    second schema, starts from an empty schema of version 0: it removes no
    collection and no index, and the indexes it adds for a collection are
    all the indexes of that collection. *)
Theorem createDefaultMigration_first schema m :
  createDefaultMigration stableStringify schema None = Normal m →
  migration_version m = version schema
  ∧ version (oldSchema m) = 0%Z
  ∧ removedCollections m = []
  ∧ removedIndexes m = ∅
  ∧ ∀ c indexes,
      addedIndexes m !! c = Some indexes →
      ∃ collection,
        (c, collection) ∈ collections schema
        ∧ getIndexes (Own collection) = Normal indexes.
Proof.
  unfold createDefaultMigration. simpl. intros Hrun.
  destruct (migrate_deltas _ _ _ Hrun) as [Hadded Hremoved].
  assert (∀ c, get ([] : list (string * CollectionSchema Rest)) c = Missing
               ∨ get ([] : list (string * CollectionSchema Rest)) c
                 = Inherited c)
    as Hempty.
  { intros c. unfold get. simpl. destruct (bool_decide _); tauto. }
  revert Hrun. unfold migrate.
  set (changed := filter _ (collections schema).*1).
  destruct (indexChanges _ schema changed ∅ ∅) as [[added removed]|e];
    [|done].
  intros [= <-]. simpl in *. split_and!; try done.
  - apply map_eq. intros c. rewrite lookup_empty.
    destruct (removed !! c) as [indexes|] eqn:Hc; [|done].
    destruct (Hremoved _ _ Hc) as (_ & Hne & n & o & _ & Ho & ->).
    destruct Hne. simpl in Ho.
    destruct (Hempty c) as [E|E]; rewrite E in Ho; [|done].
    by injection Ho as <-.
  - intros c indexes Hc.
    destruct (Hadded _ _ Hc) as (Hchanged & _ & o & n & Ho & Hn & ->).
    unfold changed in Hchanged.
    apply list_elem_of_filter in Hchanged as [_ Hin].
    destruct (get_Own _ _ Hin) as (collection & Hget & Hcoll).
    exists collection. split; [done|].
    change (getIndexes (Own collection) = Normal (notAmong o n)).
    rewrite <- Hget, Hn. f_equal. simpl in Ho.
    destruct (Hempty c) as [E|E]; rewrite E in Ho; [|done].
    injection Ho as <-. unfold notAmong, unknownIn. simpl.
    clear. induction n as [|i n IH]; [done|].
    rewrite filter_cons_True by done. by f_equal.
Qed.

Lemma getIndexes_returns (collection : CollectionSchema Rest) :
  resolvable collection →
  ∃ indexes, getIndexes (Own collection) = Normal indexes.
Proof.
  intros Hok.
  destruct (compoundIndexes_returns collection
              (default [] (compounds collection)))
    as (compoundOnes & Hrun & _).
  { intros key d n. apply Hok. }
  unfold getIndexes. rewrite Hrun. by eexists.
Qed.

Lemma getIndexes_throws (found : Looked (CollectionSchema Rest)) e :
  getIndexes found = Throw e → e = TypeError.
Proof.
  assert (∀ collection fieldName e',
            componentIsArray (Rest := Rest) collection fieldName = Throw e' →
            e' = TypeError) as Hcomponent.
  { intros collection fieldName e'. unfold componentIsArray.
    repeat case_match; congruence. }
  assert (∀ collection names e',
            someOf (componentIsArray (Rest := Rest) collection) names
            = Throw e' → e' = TypeError) as Hsome.
  { intros collection names e'. induction names as [|n names IH]; [done|].
    simpl. destruct (componentIsArray collection n) as [[|]|e''] eqn:Hn;
      [done|done|]. intros [= <-]. by eapply Hcomponent. }
  assert (∀ (collection : CollectionSchema Rest) entries e',
            compoundIndexes collection entries = Throw e' → e' = TypeError)
    as Hcompound.
  { intros collection entries e'.
    induction entries as [|[key d] entries IH]; [done|]. simpl.
    destruct (someOf _ _) as [multi|e''] eqn:Hs.
    - destruct (compoundIndexes collection entries); [done|].
      intros [= <-]. by apply IH.
    - intros [= <-]. by eapply Hsome. }
  destruct found as [collection| |]; simpl; [|congruence|done].
  destruct (compoundIndexes _ _) eqn:Hc; [done|].
  intros [= <-]. by eapply Hcompound.
Qed.

Lemma indexChanges_returns (old new : StorageSchema Rest) changed
    added removed :
  (∀ c, c ∈ changed →
        (∃ indexes, getIndexes (get (collections old) c) = Normal indexes)
        ∧ ∃ indexes, getIndexes (get (collections new) c) = Normal indexes) →
  ∃ result, indexChanges old new changed added removed = Normal result.
Proof.
  revert added removed.
  induction changed as [|c rest IH]; intros added removed Hok;
    [by eexists|].
  cbn [indexChanges].
  destruct (Hok c) as [[oldIndexes ->] [newIndexes ->]];
    [apply list_elem_of_here|].
  apply IH. intros c' Hc'. by apply Hok, list_elem_of_further.
Qed.

Lemma indexChanges_throws (old new : StorageSchema Rest) changed
    added removed c :
  c ∈ changed →
  getIndexes (get (collections old) c) = Throw TypeError →
  indexChanges old new changed added removed = Throw TypeError.
Proof.
  revert added removed.
  induction changed as [|c' rest IH]; intros added removed Hin Hthrows.
  { by apply elem_of_nil in Hin. }
  cbn [indexChanges].
  destruct (getIndexes (get (collections old) c')) as [oldIndexes|e] eqn:Hold.
  - destruct (getIndexes (get (collections new) c')) as [newIndexes|e]
      eqn:Hnew.
    + apply IH; [|done]. apply elem_of_cons in Hin as [->|?]; [|done].
      congruence.
    + by rewrite (getIndexes_throws _ _ Hnew).
  - by rewrite (getIndexes_throws _ _ Hold).
Qed.

(** X26: [migrate] returns a migration for two schemas whose compound
    indexes are made of fields and synthetics of their collection, when the
    new schema has no collection under a name that every object inherits
    ([constructor], [toString], ...) unless the old schema has it too. *)
Theorem migrate_returns (old new : StorageSchema Rest) :
  wellFormed old → wellFormed new →
  (∀ c, c ∈ (collections new).*1 → c ∈ inheritedNames →
        c ∈ (collections old).*1) →
  ∃ m, migrate stableStringify old new = Normal m.
Proof.
  intros Hold Hnew Hnames. unfold migrate.
  set (changed := filter _ (collections new).*1).
  destruct (indexChanges_returns old new changed ∅ ∅) as [[added removed] ->];
    [|by eexists].
  intros c Hc. unfold changed in Hc. apply list_elem_of_filter in Hc as [_ Hc].
  split.
  - destruct (decide (c ∈ (collections old).*1)) as [Hin|Hnot].
    + destruct (get_Own _ _ Hin) as (collection & -> & Hcoll).
      eapply getIndexes_returns, Hold, Hcoll.
    + rewrite get_not_Own by done.
      destruct (bool_decide_reflect (c ∈ inheritedNames)) as [Hi|_];
        [|by eexists].
      destruct Hnot. by apply Hnames.
  - destruct (get_Own _ _ Hc) as (collection & -> & Hcoll).
    eapply getIndexes_returns, Hnew, Hcoll.
Qed.

(** X27: for a new schema with a collection under a name that every object
    inherits, which the old schema has no collection for, [migrate] throws
    a TypeError when the collection counts as changed: what the old schema
    inherits under that name is taken for the collection's old schema, and
    it has no fields. *)
Theorem migrate_throws_on_inherited_name (old new : StorageSchema Rest)
    c collection :
  (c, collection) ∈ collections new →
  c ∈ inheritedNames →
  c ∉ (collections old).*1 →
  stableStringify (Inherited c) ≠ stableStringify (get (collections new) c) →
  migrate stableStringify old new = Throw TypeError.
Proof.
  intros Hin Hname Hnot Hprint. unfold migrate.
  assert (get (collections old) c = Inherited c) as Hget.
  { rewrite get_not_Own by done. by rewrite bool_decide_eq_true_2. }
  rewrite (indexChanges_throws old new _ ∅ ∅ c); [done| |by rewrite Hget].
  apply list_elem_of_filter. split; [by rewrite Hget|].
  apply list_elem_of_fmap. by exists (c, collection).
Qed.

End MigrationProperties.

Lemma exampleTodo_resolvable : resolvable exampleTodo.
Proof.
  intros key description fieldName Hin Hof. left.
  unfold exampleTodo in *. simpl in *.
  rewrite !elem_of_cons, elem_of_nil in Hin.
  destruct Hin as [[= -> ->]|[[= -> ->]|[]]]; simpl in Hof;
    rewrite !elem_of_cons, elem_of_nil in Hof;
    destruct Hof as [->|[->|[]]]; rewrite !elem_of_cons; tauto.
Defined.

Lemma getIndexes_lists_indexes_witness :
  resolvable exampleTodo
  ∧ ∃ indexes,
      Migrations.getIndexes (Own exampleTodo) = Normal indexes
      ∧ Migrations.name <$> indexes =
          (filter (λ kv, Migrations.indexed kv.2 = true)
             (Migrations.fields exampleTodo)).*1
          ++ (default [] (Migrations.synthetics exampleTodo)).*1
          ++ (default [] (Migrations.compounds exampleTodo)).*1
      ∧ Migrations.name
          <$> filter (λ index, Migrations.synthetic index = true) indexes =
          (default [] (Migrations.synthetics exampleTodo)).*1
      ∧ Migrations.name
          <$> filter (λ index, Migrations.compound index = true) indexes =
          (default [] (Migrations.compounds exampleTodo)).*1.
Proof.
  split; [exact exampleTodo_resolvable|].
  exact (getIndexes_lists_indexes exampleTodo exampleTodo_resolvable).
Defined.

Lemma exampleMigration_migrates :
  Migrations.migrate examplePrint exampleSchema exampleLaterSchema
  = Normal exampleMigration.
Proof. vm_compute. reflexivity. Defined.

Lemma exampleFirstMigration_migrates :
  Migrations.createDefaultMigration examplePrint exampleSchema None
  = Normal exampleFirstMigration.
Proof. vm_compute. reflexivity. Defined.

Lemma migrate_index_changes_witness :
  Migrations.migrate examplePrint exampleSchema exampleLaterSchema
  = Normal exampleMigration
  ∧ (∀ c indexes,
       Migrations.addedIndexes exampleMigration !! c = Some indexes →
       indexDelta exampleSchema exampleLaterSchema
         (Migrations.changedCollections exampleMigration) c indexes)
  ∧ (∀ c indexes,
       Migrations.removedIndexes exampleMigration !! c = Some indexes →
       indexDelta exampleLaterSchema exampleSchema
         (Migrations.changedCollections exampleMigration) c indexes)
  ∧ ∀ c added removed i j,
      Migrations.addedIndexes exampleMigration !! c = Some added →
      Migrations.removedIndexes exampleMigration !! c = Some removed →
      i ∈ added → j ∈ removed → Migrations.name i ≠ Migrations.name j.
Proof.
  split; [exact exampleMigration_migrates|].
  exact (migrate_index_changes examplePrint _ _ _ exampleMigration_migrates).
Defined.

Lemma migrate_collections_witness :
  Migrations.migrate examplePrint exampleSchema exampleLaterSchema
  = Normal exampleMigration
  ∧ Migrations.migration_version exampleMigration
    = Migrations.version exampleLaterSchema
  ∧ Migrations.oldSchema exampleMigration = exampleSchema
  ∧ Migrations.newSchema exampleMigration = exampleLaterSchema
  ∧ Migrations.allCollections exampleMigration
    = (Migrations.collections exampleLaterSchema).*1
  ∧ (∀ c, c ∈ Migrations.changedCollections exampleMigration →
          c ∈ Migrations.allCollections exampleMigration)
  ∧ (∀ c, c ∈ Migrations.addedCollections exampleMigration ↔
          c ∈ (Migrations.collections exampleLaterSchema).*1
          ∧ (c ∉ (Migrations.collections exampleSchema).*1)
          ∧ (c ∉ inheritedNames))
  ∧ (∀ c, c ∈ Migrations.removedCollections exampleMigration ↔
          c ∈ (Migrations.collections exampleSchema).*1
          ∧ (c ∉ (Migrations.collections exampleLaterSchema).*1)
          ∧ (c ∉ inheritedNames))
  ∧ (∀ c, c ∈ Migrations.addedCollections exampleMigration →
          c ∉ Migrations.removedCollections exampleMigration).
Proof.
  split; [exact exampleMigration_migrates|].
  exact (migrate_collections examplePrint _ _ _ exampleMigration_migrates).
Defined.

Lemma createDefaultMigration_first_witness :
  Migrations.createDefaultMigration examplePrint exampleSchema None
  = Normal exampleFirstMigration
  ∧ Migrations.migration_version exampleFirstMigration
    = Migrations.version exampleSchema
  ∧ Migrations.version (Migrations.oldSchema exampleFirstMigration) = 0%Z
  ∧ Migrations.removedCollections exampleFirstMigration = []
  ∧ Migrations.removedIndexes exampleFirstMigration = ∅
  ∧ ∀ c indexes,
      Migrations.addedIndexes exampleFirstMigration !! c = Some indexes →
      ∃ collection,
        (c, collection) ∈ Migrations.collections exampleSchema
        ∧ Migrations.getIndexes (Own collection) = Normal indexes.
Proof.
  split; [exact exampleFirstMigration_migrates|].
  exact (createDefaultMigration_first examplePrint _ _
           exampleFirstMigration_migrates).
Defined.

Lemma exampleSchema_wellFormed : wellFormed exampleSchema.
Proof.
  intros key collection Hin. unfold exampleSchema in Hin. simpl in Hin.
  rewrite !elem_of_cons, elem_of_nil in Hin.
  destruct Hin as [[= -> ->]|[[= -> ->]|[]]].
  - exact exampleTodo_resolvable.
  - intros k d n Hk. by apply elem_of_nil in Hk.
Defined.

Lemma exampleLaterSchema_wellFormed : wellFormed exampleLaterSchema.
Proof.
  intros key collection Hin. unfold exampleLaterSchema in Hin. simpl in Hin.
  rewrite !elem_of_cons, elem_of_nil in Hin.
  destruct Hin as [[= -> ->]|[[= -> ->]|[]]].
  - intros k d n Hk Hof. left. unfold exampleLaterTodo in *. simpl in *.
    rewrite !elem_of_cons, elem_of_nil in Hk.
    destruct Hk as [[= -> ->]|[]]. simpl in Hof.
    rewrite !elem_of_cons, elem_of_nil in Hof.
    destruct Hof as [->|[->|[]]]; rewrite !elem_of_cons; tauto.
  - intros k d n Hk. by apply elem_of_nil in Hk.
Defined.

Lemma exampleLaterSchema_names c :
  c ∈ (Migrations.collections exampleLaterSchema).*1 →
  c ∈ inheritedNames →
  c ∈ (Migrations.collections exampleSchema).*1.
Proof.
  unfold exampleLaterSchema, exampleSchema, inheritedNames. simpl.
  rewrite !elem_of_cons, !elem_of_nil. intros [->|[->|[]]] Hi; [tauto|].
  exfalso. repeat destruct Hi as [Hi|Hi]; done.
Defined.

Lemma migrate_returns_witness :
  wellFormed exampleSchema ∧ wellFormed exampleLaterSchema
  ∧ (∀ c, c ∈ (Migrations.collections exampleLaterSchema).*1 →
          c ∈ inheritedNames →
          c ∈ (Migrations.collections exampleSchema).*1)
  ∧ ∃ m, Migrations.migrate examplePrint exampleSchema exampleLaterSchema
         = Normal m.
Proof.
  split; [exact exampleSchema_wellFormed|].
  split; [exact exampleLaterSchema_wellFormed|].
  split; [exact exampleLaterSchema_names|].
  exact (migrate_returns examplePrint exampleSchema exampleLaterSchema
           exampleSchema_wellFormed exampleLaterSchema_wellFormed
           exampleLaterSchema_names).
Defined.

Lemma exampleInheritedSchema_collection :
  ("constructor", exampleList) ∈ Migrations.collections exampleInheritedSchema.
Proof.
  unfold exampleInheritedSchema. simpl. rewrite !elem_of_cons. tauto.
Defined.

Lemma constructor_inherited : "constructor" ∈ inheritedNames.
Proof. unfold inheritedNames. rewrite !elem_of_cons. tauto. Defined.

Lemma exampleSchema_no_constructor :
  "constructor" ∉ (Migrations.collections exampleSchema).*1.
Proof.
  unfold exampleSchema. simpl. rewrite !elem_of_cons, elem_of_nil.
  intros [?|[?|[]]]; done.
Defined.

Lemma examplePrint_differs :
  examplePrint (Inherited "constructor")
  ≠ examplePrint
      (get (Migrations.collections exampleInheritedSchema) "constructor").
Proof. vm_compute. discriminate. Defined.

Lemma migrate_throws_on_inherited_name_witness :
  ("constructor", exampleList) ∈ Migrations.collections exampleInheritedSchema
  ∧ "constructor" ∈ inheritedNames
  ∧ ("constructor" ∉ (Migrations.collections exampleSchema).*1)
  ∧ examplePrint (Inherited "constructor")
    ≠ examplePrint
        (get (Migrations.collections exampleInheritedSchema) "constructor")
  ∧ Migrations.migrate examplePrint exampleSchema exampleInheritedSchema
    = Throw TypeError.
Proof.
  split; [exact exampleInheritedSchema_collection|].
  split; [exact constructor_inherited|].
  split; [exact exampleSchema_no_constructor|].
  split; [exact examplePrint_differs|].
  exact (migrate_throws_on_inherited_name examplePrint exampleSchema
           exampleInheritedSchema "constructor" exampleList
           exampleInheritedSchema_collection constructor_inherited
           exampleSchema_no_constructor examplePrint_differs).
Defined.
